(** * Scope-aware variable renaming (src/modifications/renaming/variableRenamer.ts)

    A shallow embedding of the [VariableRenamer] modification: the two tree
    walks that build the scope tree and resolve identifier uses, the name
    generator, and the renaming walk, together with the properties of the
    pass stated in the specification. *)

From Stdlib Require Import Ascii String Lia.
From stdpp Require Import base list strings gmap sorting.

Open Scope string_scope.
Open Scope list_scope.
Set Warnings "-register-all".

(** ** Syntax trees

    The part of the Shift AST the pass looks at.  Node kinds the two walks do
    not dispatch on are [OtherNode]; wrapper objects the callbacks ignore
    (FormalParameters, FunctionBody, Block) are flattened into their owner.
    [node.name] of a function is a BindingIdentifier, kept by its name. *)

Inductive VariableType := var | let_ | const.

Inductive Node :=
| Script (statements : list Node)
| BindingIdentifier (name : string)
| IdentifierExpression (name : string)
| FunctionDeclaration (name : string) (params : list Node) (body : list Node)
| FunctionExpression (name : option string) (params : list Node) (body : list Node)
| ArrowExpression (params : list Node) (body : list Node)
| CatchClause (binding : option Node) (body : list Node)
| ForStatement (parts : list Node)
| BlockStatement (statements : list Node)
| VariableDeclaration (kind : VariableType) (declarators : list Node)
| VariableDeclarator (binding : Node) (init : option Node)
| OtherNode (children : list Node).

#[global] Instance VariableType_eq_dec : EqDecision VariableType.
Proof. solve_decision. Defined.

(** Child nodes in the order the traverser visits them. *)
Definition opt_list {A} (o : option A) : list A :=
  match o with Some a => [a] | None => [] end.

Definition childNodes (n : Node) : list Node :=
  match n with
  | Script ss => ss
  | BindingIdentifier _ | IdentifierExpression _ => []
  | FunctionDeclaration nm ps b => BindingIdentifier nm :: ps ++ b
  | FunctionExpression nm ps b => opt_list (BindingIdentifier <$> nm) ++ ps ++ b
  | ArrowExpression ps b => ps ++ b
  | CatchClause bd b => opt_list bd ++ b
  | ForStatement ps => ps
  | BlockStatement ss => ss
  | VariableDeclaration _ ds => ds
  | VariableDeclarator bd i => bd :: opt_list i
  | OtherNode cs => cs
  end.

(** Number of nodes of a subtree.  A node is identified by its position in
    the pre-order numbering of the tree: object identity ([==] on nodes) is
    equality of these numbers. *)
Fixpoint size (n : Node) : nat :=
  let fix sizes (l : list Node) : nat :=
    match l with [] => 0 | c :: l' => size c + sizes l' end in
  S match n with
    | Script ss => sizes ss
    | BindingIdentifier _ | IdentifierExpression _ => 0
    | FunctionDeclaration _ ps b => 1 + sizes ps + sizes b
    | FunctionExpression nm ps b =>
        match nm with Some _ => 1 | None => 0 end + sizes ps + sizes b
    | ArrowExpression ps b => sizes ps + sizes b
    | CatchClause bd b =>
        match bd with Some c => size c | None => 0 end + sizes b
    | ForStatement ps => sizes ps
    | BlockStatement ss => sizes ss
    | VariableDeclaration _ ds => sizes ds
    | VariableDeclarator bd i =>
        size bd + match i with Some c => size c | None => 0 end
    | OtherNode cs => sizes cs
    end.

Fixpoint sizes (l : list Node) : nat :=
  match l with [] => 0 | c :: l' => size c + sizes l' end.

Abbreviation NodeId := nat.

(** ** The traversal

    [traverse(ast, {enter, leave})] of shift-traverser is a depth-first walk
    calling [enter] on the way down and [leave] on the way up.  It is an
    external collaborator: it is modelled by the sequence of callbacks it
    makes. *)
Inductive Event :=
| Enter (id : NodeId) (n : Node)
| Leave (id : NodeId) (n : Node).

Fixpoint events (k : NodeId) (n : Node) : list Event :=
  let fix kids (k : NodeId) (l : list Node) : list Event :=
    match l with [] => [] | c :: l' => events k c ++ kids (k + size c) l' end in
  let leaf k c := [Enter k c; Leave k c] in
  Enter k n ::
  match n with
  | Script ss => kids (S k) ss
  | BindingIdentifier _ | IdentifierExpression _ => []
  | FunctionDeclaration nm ps b =>
      leaf (S k) (BindingIdentifier nm) ++ kids (S (S k)) ps ++ kids (S (S k) + sizes ps) b
  | FunctionExpression nm ps b =>
      match nm with
      | Some x => leaf (S k) (BindingIdentifier x) ++ kids (S (S k)) ps ++ kids (S (S k) + sizes ps) b
      | None => kids (S k) ps ++ kids (S k + sizes ps) b
      end
  | ArrowExpression ps b => kids (S k) ps ++ kids (S k + sizes ps) b
  | CatchClause bd b =>
      match bd with
      | Some c => events (S k) c ++ kids (S k + size c) b
      | None => kids (S k) b
      end
  | ForStatement ps => kids (S k) ps
  | BlockStatement ss => kids (S k) ss
  | VariableDeclaration _ ds => kids (S k) ds
  | VariableDeclarator bd i =>
      events (S k) bd ++
      match i with Some c => events (S k + size bd) c | None => [] end
  | OtherNode cs => kids (S k) cs
  end ++ [Leave k n].

Fixpoint eventsList (k : NodeId) (l : list Node) : list Event :=
  match l with [] => [] | c :: l' => events k c ++ eventsList (k + size c) l' end.

(** ** The heap: scopes and variables

    [Scope] and [Variable] objects ([Variable_] here) are shared and mutated in place, so both
    live in a store and are referred to by their index. *)
Abbreviation ScopeId := nat.
Abbreviation VarId := nat.

Inductive ScopeType := Global | Function | Other.

Record Variable_ := mkVariable {
  name : string;
  kind : VariableType;
  declarations : list NodeId;
  references : list NodeId }.

Record Scope := mkScope {
  node : NodeId;
  type : ScopeType;
  parent : option ScopeId;
  children : list ScopeId;
  variables : list (string * VarId) }.

Inductive Error :=
| DuplicateDeclaration (nm : string)
| ScopeAssociationFailure
| NameExhaustion.

Inductive Result (A : Type) :=
| Ok (a : A)
| Err (e : Error).
Arguments Ok {A} a.
Arguments Err {A} e.

Definition bind {A B} (r : Result A) (f : A -> Result B) : Result B :=
  match r with Ok a => f a | Err e => Err e end.

Notation "'let*' x ':=' r 'in' k" := (bind r (fun x => k))
  (at level 10, x name, r at level 100, k at level 200, only parsing).

(** The renamer instance together with the objects it has allocated.
    [scope] is the cursor [let scope] the callbacks of a walk close over;
    [patched] holds the names written into tree nodes by [Variable.rename]. *)
Record Renamer := mkRenamer {
  scopes : list Scope;
  heap : list Variable_;
  scope : ScopeId;
  usedVariableNames : gset string;
  variableNames : list string;
  patched : gmap NodeId string }.

Definition globalScope : ScopeId := 0.

Definition setScopes (f : list Scope -> list Scope) (r : Renamer) : Renamer :=
  mkRenamer (f (scopes r)) (heap r) (scope r) (usedVariableNames r)
            (variableNames r) (patched r).
Definition setHeap (f : list Variable_ -> list Variable_) (r : Renamer) : Renamer :=
  mkRenamer (scopes r) (f (heap r)) (scope r) (usedVariableNames r)
            (variableNames r) (patched r).
Definition setScope (s : ScopeId) (r : Renamer) : Renamer :=
  mkRenamer (scopes r) (heap r) s (usedVariableNames r)
            (variableNames r) (patched r).
Definition setUsed (f : gset string -> gset string) (r : Renamer) : Renamer :=
  mkRenamer (scopes r) (heap r) (scope r) (f (usedVariableNames r))
            (variableNames r) (patched r).
Definition setNames (l : list string) (r : Renamer) : Renamer :=
  mkRenamer (scopes r) (heap r) (scope r) (usedVariableNames r) l (patched r).
Definition setPatched (f : gmap NodeId string -> gmap NodeId string)
    (r : Renamer) : Renamer :=
  mkRenamer (scopes r) (heap r) (scope r) (usedVariableNames r)
            (variableNames r) (f (patched r)).

(** The constructor: a Global scope for the whole tree and the seed of
    reserved words. *)
Definition reservedWords : list string :=
  ["if"; "do"; "in"; "var"; "let"; "try"; "for"].

Definition new_VariableRenamer : Renamer :=
  mkRenamer [mkScope 0 Global None [] []] [] globalScope
            (list_to_set reservedWords) [] ∅.

(** ** scope.ts and variable.ts *)

Definition emptyScope : Scope := mkScope 0 Other None [] [].
Definition emptyVariable : Variable_ := mkVariable "" var [] [].

Definition getScope (r : Renamer) (s : ScopeId) : Scope :=
  default emptyScope (scopes r !! s).
Definition getVariable (r : Renamer) (v : VarId) : Variable_ :=
  default emptyVariable (heap r !! v).

(** [Map.get] and [Map.set] on an insertion-ordered [Map<string, Variable>]. *)
Fixpoint tableGet (nm : string) (t : list (string * VarId)) : option VarId :=
  match t with
  | [] => None
  | (k, v) :: t' => if String.eqb k nm then Some v else tableGet nm t'
  end.

Fixpoint tableSet (nm : string) (v : VarId) (t : list (string * VarId))
    : list (string * VarId) :=
  match t with
  | [] => [(nm, v)]
  | (k, w) :: t' =>
      if String.eqb k nm then (k, v) :: t' else (k, w) :: tableSet nm v t'
  end.

(** Modelled from the spec: [blockScopedTypes] of variable.ts, the kinds
    for which [isBlockScoped()] holds (let, const and the catch binding,
    which the renamer declares with kind let). *)
Definition blockScopedTypes (k : VariableType) : bool :=
  match k with var => false | let_ | const => true end.

(** Modelled from the spec: [Variable.isBlockScoped] of variable.ts. *)
Definition isBlockScoped (v : Variable_) : bool := blockScopedTypes (kind v).

(** [new Variable(name, kind)]: a fresh object with no sites. *)
Definition new_Variable (nm : string) (k : VariableType) (r : Renamer)
    : VarId * Renamer :=
  (length (heap r), setHeap (fun h => h ++ [mkVariable nm k [] []]) r).

Definition pushDeclaration (v : VarId) (site : NodeId) (r : Renamer) : Renamer :=
  setHeap (alter (fun x => mkVariable (name x) (kind x)
                             (declarations x ++ [site]) (references x)) v) r.

Definition pushReference (v : VarId) (site : NodeId) (r : Renamer) : Renamer :=
  setHeap (alter (fun x => mkVariable (name x) (kind x)
                             (declarations x) (references x ++ [site])) v) r.

(** Modelled from the spec: the constructor of [Scope] in scope.ts, which
    allocates a scope and registers it as the last child of its parent. *)
Definition new_Scope (nd : NodeId) (ty : ScopeType) (p : ScopeId) (r : Renamer)
    : ScopeId * Renamer :=
  let s := length (scopes r) in
  (s, setScopes (fun ss =>
         alter (fun x => mkScope (node x) (type x) (parent x)
                           (children x ++ [s]) (variables x)) p ss
         ++ [mkScope nd ty (Some p) [] []]) r).

(** Modelled from the spec: [Scope.addVariable] of scope.ts.  When the name
    is already in this scope's table the conflict rule applies: an error
    if either variable is block-scoped, otherwise the declaration sites of
    the new variable are appended to the existing one.  Otherwise the new
    variable is inserted. *)
Definition addVariable (s : ScopeId) (v : VarId) (r : Renamer) : Result Renamer :=
  let new := getVariable r v in
  match tableGet (name new) (variables (getScope r s)) with
  | Some e =>
      let existing := getVariable r e in
      if isBlockScoped existing || isBlockScoped new
      then Err (DuplicateDeclaration (name new))
      else Ok (setHeap (alter (fun x => mkVariable (name x) (kind x)
                  (declarations x ++ declarations new) (references x)) e) r)
  | None =>
      Ok (setScopes (alter (fun x => mkScope (node x) (type x) (parent x)
            (children x) (tableSet (name new) v (variables x))) s) r)
  end.

(** Modelled from the spec: [Scope.getDeclarationScope] of scope.ts.  For
    var it climbs the parent links over Other scopes to the nearest Function
    or Global scope; for let and const it is the scope itself.  A parent is
    allocated before its children, so [S s] steps are enough from [s]. *)
Fixpoint climb (fuel : nat) (ss : list Scope) (s : ScopeId) : ScopeId :=
  match fuel with
  | 0 => s
  | S fuel' =>
      match ss !! s with
      | Some x =>
          match type x, parent x with
          | Other, Some p => climb fuel' ss p
          | _, _ => s
          end
      | None => s
      end
  end.

Definition getDeclarationScope (r : Renamer) (s : ScopeId) (k : VariableType)
    : ScopeId :=
  match k with
  | var => climb (S s) (scopes r) s
  | let_ | const => s
  end.

(** Modelled from the spec: [Scope.lookupVariable] of scope.ts, the
    scope-chain lookup: this scope's table, then the parent's, up to the
    root. *)
Fixpoint lookupFrom (fuel : nat) (ss : list Scope) (s : ScopeId) (nm : string)
    : option VarId :=
  match fuel with
  | 0 => None
  | S fuel' =>
      match ss !! s with
      | Some x =>
          match tableGet nm (variables x) with
          | Some v => Some v
          | None =>
              match parent x with
              | Some p => lookupFrom fuel' ss p nm
              | None => None
              end
          end
      | None => None
      end
  end.

Definition lookupVariable (r : Renamer) (s : ScopeId) (nm : string)
    : option VarId :=
  lookupFrom (S s) (scopes r) s nm.

(** ** variableRenamer.ts *)

Definition shouldRename (nm : string) : bool := String.prefix "_0x" nm.

Definition addName (nm : string) (r : Renamer) : Renamer :=
  if shouldRename nm then r else setUsed (fun u => {[nm]} ∪ u) r.

(** The recurring four lines of [collectDeclarations]: a new variable with
    one declaration site, added to scope [s], its name recorded. *)
Definition declare (s : ScopeId) (nm : string) (k : VariableType)
    (site : NodeId) (r : Renamer) : Result Renamer :=
  let '(v, r1) := new_Variable nm k r in
  let r2 := pushDeclaration v site r1 in
  let* r3 := addVariable s v r2 in
  Ok (addName nm r3).

(** [for (const param of node.params.items)]; [id] is the identity of the
    first parameter of [ps]. *)
Fixpoint declareParams (id : NodeId) (ps : list Node) (r : Renamer)
    : Result Renamer :=
  match ps with
  | [] => Ok r
  | p :: ps' =>
      let* r1 := match p with
                 | BindingIdentifier nm => declare (scope r) nm var id r
                 | _ => Ok r
                 end in
      declareParams (id + size p) ps' r1
  end.

(** The case shared by FunctionDeclaration (by fall-through),
    FunctionExpression and ArrowExpression. *)
Definition enterFunction (k : NodeId) (n : Node) (r : Renamer) : Result Renamer :=
  let '(s, r1) := new_Scope k Function (scope r) r in
  let r2 := setScope s r1 in
  let* r3 := match n with
             | FunctionExpression (Some nm) _ _ => declare s nm var (S k) r2
             | _ => Ok r2
             end in
  let* r4 := match n with
             | FunctionDeclaration _ ps _ => declareParams (S (S k)) ps r3
             | FunctionExpression (Some _) ps _ => declareParams (S (S k)) ps r3
             | FunctionExpression None ps _ => declareParams (S k) ps r3
             | ArrowExpression ps _ => declareParams (S k) ps r3
             | _ => Ok r3
             end in
  match n with
  | ArrowExpression _ _ => Ok r4
  | _ => let '(v, r5) := new_Variable "arguments" var r4 in
         addVariable (scope r5) v r5
  end.

(** The case shared by CatchClause (by fall-through), ForStatement and
    BlockStatement. *)
Definition enterBlock (k : NodeId) (r : Renamer) : Renamer :=
  let '(s, r1) := new_Scope k Other (scope r) r in
  setScope s r1.

(** [for (const declarator of node.declarators)]; [id] is the identity of
    the first declarator of [ds], its binding is the next node. *)
Fixpoint declareDeclarators (k : VariableType) (id : NodeId) (ds : list Node)
    (r : Renamer) : Result Renamer :=
  match ds with
  | VariableDeclarator (BindingIdentifier nm) _ as d :: ds' =>
      let declarationScope := getDeclarationScope r (scope r) k in
      let* r1 :=
        match tableGet nm (variables (getScope r declarationScope)) with
        | Some v =>
            if isBlockScoped (getVariable r v) || blockScopedTypes k
            then Err (DuplicateDeclaration (name (getVariable r v)))
            else Ok (pushDeclaration v (S id) r)
        | None =>
            let '(v, r1) := new_Variable nm k r in
            let* r2 := addVariable (scope r1) v r1 in
            Ok (pushDeclaration v (S id) (addName nm r2))
        end in
      declareDeclarators k (id + size d) ds' r1
  | _ => Ok r
  end.

Definition declEnter (k : NodeId) (n : Node) (r : Renamer) : Result Renamer :=
  match n with
  | FunctionDeclaration nm _ _ =>
      let* r1 := declare (scope r) nm var (S k) r in
      enterFunction k n r1
  | FunctionExpression _ _ _ | ArrowExpression _ _ => enterFunction k n r
  | CatchClause bd _ =>
      let* r1 := match bd with
                 | Some (BindingIdentifier nm) => declare (scope r) nm let_ (S k) r
                 | _ => Ok r
                 end in
      Ok (enterBlock k r1)
  | ForStatement _ | BlockStatement _ => Ok (enterBlock k r)
  | VariableDeclaration kd ds => declareDeclarators kd (S k) ds r
  | _ => Ok r
  end.

(** [leave], the same in both walks. *)
Definition leave (k : NodeId) (r : Renamer) : Renamer :=
  let s := getScope r (scope r) in
  match parent s with
  | Some p => if Nat.eqb k (node s) then setScope p r else r
  | None => r
  end.

Definition declStep (e : Event) (r : Renamer) : Result Renamer :=
  match e with
  | Enter k n => declEnter k n r
  | Leave k _ => Ok (leave k r)
  end.

(** Running the callbacks over the traversal; a throw ends the walk. *)
Fixpoint run (step : Event -> Renamer -> Result Renamer) (es : list Event)
    (r : Renamer) : Result Renamer :=
  match es with
  | [] => Ok r
  | e :: es' => let* r1 := step e r in run step es' r1
  end.

Definition collectDeclarations (ast : Node) (r : Renamer) : Result Renamer :=
  run declStep (events 0 ast) (setScope globalScope r).

(** [collectReferences]. *)
Definition isScopeNode (n : Node) : bool :=
  match n with
  | FunctionDeclaration _ _ _ | FunctionExpression _ _ _ | ArrowExpression _ _
  | CatchClause _ _ | ForStatement _ | BlockStatement _ => true
  | _ => false
  end.

(** [scope.children.find(s => s.node == node)]. *)
Definition findChild (r : Renamer) (k : NodeId) : option ScopeId :=
  List.find (fun c => Nat.eqb (node (getScope r c)) k)
            (children (getScope r (scope r))).

Definition refEnter (k : NodeId) (n : Node) (r : Renamer) : Result Renamer :=
  if isScopeNode n then
    match findChild r k with
    | Some s => Ok (setScope s r)
    | None => Err ScopeAssociationFailure
    end
  else
    match n with
    | IdentifierExpression nm =>
        match lookupVariable r (scope r) nm with
        | Some v => Ok (pushReference v k r)
        | None =>
            let '(v, r1) := new_Variable nm var r in
            Ok (pushReference v k (addName nm r1))
        end
    | _ => Ok r
    end.

Definition refStep (e : Event) (r : Renamer) : Result Renamer :=
  match e with
  | Enter k n => refEnter k n r
  | Leave k _ => Ok (leave k r)
  end.

Definition collectReferences (ast : Node) (r : Renamer) : Result Renamer :=
  run refStep (events 0 ast) (setScope globalScope r).

(** [generateNames]: the three loop nests over the alphabet, in order. *)
Definition ALPHABET : string := "abcdefghijklmnopqrstuvwxyz".

Definition chars : list string :=
  (fun c => String c EmptyString) <$> list_ascii_of_string ALPHABET.

Definition candidates1 : list string := chars.
Definition candidates2 : list string :=
  c1 ← chars; c2 ← chars; [c1 +:+ c2].
Definition candidates3 : list string :=
  c1 ← chars; c2 ← chars; c3 ← chars; [c1 +:+ c2 +:+ c3].
Definition candidates : list string :=
  candidates1 ++ candidates2 ++ candidates3.
Arguments candidates : simpl never.

Definition unused (used : gset string) (nm : string) : bool :=
  negb (bool_decide (nm ∈ used)).

Definition generateNames (r : Renamer) : Renamer :=
  setNames (List.filter (unused (usedVariableNames r)) candidates) r.

(** [getVariableName]: [shift] on the list of names. *)
Definition getVariableName (r : Renamer) : Result (string * Renamer) :=
  match variableNames r with
  | [] => Err NameExhaustion
  | nm :: rest => Ok (nm, setNames rest r)
  end.

(** Modelled from the spec: [Variable.rename] of variable.ts, which sets the
    variable's name and writes it into every declaration and reference
    site. *)
Definition rename (v : VarId) (newName : string) (r : Renamer) : Renamer :=
  let x := getVariable r v in
  setPatched
    (fun m => foldr (fun site m => <[site := newName]> m) m
                    (declarations x ++ references x))
    (setHeap (alter (fun x => mkVariable newName (kind x) (declarations x)
                                (references x)) v) r).

(** [for (const [name, variable] of scope.variables)]. *)
Fixpoint renameTable (t : list (string * VarId)) (r : Renamer) : Result Renamer :=
  match t with
  | [] => Ok r
  | (nm, v) :: t' =>
      let* r1 := if shouldRename nm
                 then let* p := getVariableName r in
                      Ok (rename v (fst p) (snd p))
                 else Ok r in
      renameTable t' r1
  end.

(** [renameVariables]: the scope's own table, then its children in order.
    The recursion follows the owned child scopes; [fuel] bounds its depth,
    which is below the number of scopes. *)
Fixpoint renameVariables (fuel : nat) (s : ScopeId) (r : Renamer)
    : Result Renamer :=
  match fuel with
  | 0 => Ok r
  | S fuel' =>
      let* r1 := renameTable (variables (getScope r s)) r in
      (fix each (cs : list ScopeId) (r : Renamer) : Result Renamer :=
         match cs with
         | [] => Ok r
         | c :: cs' => let* r2 := renameVariables fuel' c r in each cs' r2
         end) (children (getScope r1 s)) r1
  end.

(** [execute]. *)
Definition execute (ast : Node) : Result Renamer :=
  let* r1 := collectDeclarations ast new_VariableRenamer in
  let* r2 := collectReferences ast r1 in
  let r3 := generateNames r2 in
  renameVariables (length (scopes r3)) globalScope r3.

(** The tree after the pass: every node whose name was written by
    [Variable.rename] carries the written name. *)
Fixpoint patch (m : gmap NodeId string) (k : NodeId) (n : Node) : Node :=
  let fix kids (k : NodeId) (l : list Node) : list Node :=
    match l with [] => [] | c :: l' => patch m k c :: kids (k + size c) l' end in
  let nameAt (k : NodeId) (nm : string) := default nm (m !! k) in
  match n with
  | Script ss => Script (kids (S k) ss)
  | BindingIdentifier nm => BindingIdentifier (nameAt k nm)
  | IdentifierExpression nm => IdentifierExpression (nameAt k nm)
  | FunctionDeclaration nm ps b =>
      FunctionDeclaration (nameAt (S k) nm) (kids (S (S k)) ps)
                          (kids (S (S k) + sizes ps) b)
  | FunctionExpression nm ps b =>
      match nm with
      | Some x => FunctionExpression (Some (nameAt (S k) x)) (kids (S (S k)) ps)
                                     (kids (S (S k) + sizes ps) b)
      | None => FunctionExpression None (kids (S k) ps) (kids (S k + sizes ps) b)
      end
  | ArrowExpression ps b =>
      ArrowExpression (kids (S k) ps) (kids (S k + sizes ps) b)
  | CatchClause bd b =>
      match bd with
      | Some c => CatchClause (Some (patch m (S k) c)) (kids (S k + size c) b)
      | None => CatchClause None (kids (S k) b)
      end
  | ForStatement ps => ForStatement (kids (S k) ps)
  | BlockStatement ss => BlockStatement (kids (S k) ss)
  | VariableDeclaration kd ds => VariableDeclaration kd (kids (S k) ds)
  | VariableDeclarator bd i =>
      VariableDeclarator (patch m (S k) bd)
        match i with Some c => Some (patch m (S k + size bd) c) | None => None end
  | OtherNode cs => OtherNode (kids (S k) cs)
  end.

Definition result (ast : Node) : Result Node :=
  let* r := execute ast in Ok (patch (patched r) 0 ast).

Definition isBindingIdentifier (n : Node) : bool :=
  match n with BindingIdentifier _ => true | _ => false end.


(** The order of issuance: shorter names first, alphabetical among names of
    one length. *)
Definition shortlex (a b : string) : Prop :=
  String.length a < String.length b
  \/ (String.length a = String.length b /\ String.ltb a b = true).

Definition shortlexb (a b : string) : bool :=
  Nat.ltb (String.length a) (String.length b)
  || (Nat.eqb (String.length a) (String.length b) && String.ltb a b).

Fixpoint sortedb (l : list string) : bool :=
  match l with
  | a :: (b :: _) as l' => shortlexb a b && sortedb l'
  | _ => true
  end.

(** The shape of the scope tree: the scopes without their tables. *)
Definition shape (x : Scope) : Scope :=
  mkScope (node x) (type x) (parent x) (children x) [].

Definition shapes (r : Renamer) : list Scope := shape <$> scopes r.

(** What the callbacks of [collectReferences] do to the cursor, as a
    function of the shape of the scope tree. *)
Definition cursorStep (F : list Scope) (e : Event) (c : ScopeId)
    : option ScopeId :=
  let at_ s := default emptyScope (F !! s) in
  match e with
  | Enter k n =>
      if isScopeNode n
      then List.find (fun c' => Nat.eqb (node (at_ c')) k) (children (at_ c))
      else Some c
  | Leave k _ =>
      match parent (at_ c) with
      | Some p => if Nat.eqb k (node (at_ c)) then Some p else Some c
      | None => Some c
      end
  end.

Fixpoint cursorRun (F : list Scope) (es : list Event) (c : ScopeId)
    : option ScopeId :=
  match es with
  | [] => Some c
  | e :: es' =>
      match cursorStep F e c with
      | Some c' => cursorRun F es' c'
      | None => None
      end
  end.

(** A step that leaves the cursor and the shape of the scope tree alone and
    only adds reserved names. *)
Definition keeps (r r' : Renamer) : Prop :=
  scope r' = scope r /\ shapes r' = shapes r
  /\ usedVariableNames r ⊆ usedVariableNames r'.

(** The shape of the scope tree after [new Scope(k, ty, c)]. *)
Definition addChild (s : ScopeId) (x : Scope) : Scope :=
  mkScope (node x) (type x) (parent x) (children x ++ [s]) (variables x).

Definition openShape (k : NodeId) (ty : ScopeType) (c : ScopeId)
    (F : list Scope) : list Scope :=
  alter (addChild (length F)) c F ++ [mkScope k ty (Some c) [] []].

(** A step that opens a scope for node [k] under the cursor and moves the
    cursor to it. *)
Definition opens (k : NodeId) (ty : ScopeType) (r r' : Renamer) : Prop :=
  scope r' = length (scopes r)
  /\ shapes r' = openShape k ty (scope r) (shapes r)
  /\ usedVariableNames r ⊆ usedVariableNames r'.

(** Invariants of the scope tree during the first walk, stated on its
    shape [F].  [childrenBelow F k]: every registered child is an allocated
    scope whose node was entered before node [k].  [cursorBelow F c k]: the
    cursor is an allocated scope that is the root or belongs to a node
    entered before [k].  [extends F G]: [G] has all scopes of [F], with the
    same node and parent and possibly more children at the end. *)
Definition scopeAt (F : list Scope) (s : ScopeId) : Scope :=
  default emptyScope (F !! s).

Definition childrenBelow (F : list Scope) (k : NodeId) : Prop :=
  forall s x c, F !! s = Some x -> c ∈ children x ->
    c < length F /\ node (scopeAt F c) < k.

Definition cursorBelow (F : list Scope) (c : ScopeId) (k : NodeId) : Prop :=
  c < length F /\ (node (scopeAt F c) < k \/ parent (scopeAt F c) = None).

Definition extends (F G : list Scope) : Prop :=
  forall s x, F !! s = Some x ->
    exists y, G !! s = Some y /\ node y = node x /\ parent y = parent x
              /\ children x `prefix_of` children y.

(** What the first walk over the callbacks [es], covering the nodes from
    [k] up to [k'], guarantees: the cursor is back where it started, the
    scope tree has only grown, and on every later shape of the tree the
    cursor of the second walk makes the same round trip. *)
Definition walkOk (es : list Event) (k k' : NodeId) : Prop :=
  forall r r',
    cursorBelow (shapes r) (scope r) k -> childrenBelow (shapes r) k ->
    run declStep es r = Ok r' ->
    scope r' = scope r
    /\ childrenBelow (shapes r') k'
    /\ extends (shapes r) (shapes r')
    /\ forall G, extends (shapes r') G ->
         cursorRun G es (scope r) = Some (scope r).

(** The heap only grows during the walks: variables are appended, and an
    existing variable keeps its name and kind and only gains sites. *)
Definition heapGrows (r r' : Renamer) : Prop :=
  forall v x, heap r !! v = Some x ->
    exists y, heap r' !! v = Some y /\ name y = name x /\ kind y = kind x
              /\ declarations x `prefix_of` declarations y
              /\ references x `prefix_of` references y.

(** The order in which [renameVariables] visits the scopes: a scope, then
    its children from first to last, each followed by its own subtree. *)
Fixpoint visitOrder (fuel : nat) (F : list Scope) (s : ScopeId) : list ScopeId :=
  match fuel with
  | 0 => []
  | S fuel' =>
      s :: flat_map (visitOrder fuel' F) (children (default emptyScope (F !! s)))
  end.

(** All table entries of the scopes of [l], in order. *)
Definition entries (r : Renamer) (l : list ScopeId) : list (string * VarId) :=
  flat_map (fun s => variables (getScope r s)) l.

(** What the first walk over [es] guarantees about the visiting order:
    scopes other than the cursor are left alone, the cursor only gains
    children, and visiting these new children, on any later tree that has
    kept the scopes created by [es], goes through exactly the scopes
    created by [es], in the order of their creation. *)
Definition agreesOn (F G : list Scope) (lo hi : nat) : Prop :=
  forall s, lo <= s < hi -> G !! s = F !! s.

Definition orderOk (es : list Event) (k : NodeId) : Prop :=
  forall r r',
    cursorBelow (shapes r) (scope r) k -> childrenBelow (shapes r) k ->
    run declStep es r = Ok r' ->
    let F := shapes r in
    let F' := shapes r' in
    length F <= length F'
    /\ (forall s, s < length F -> s <> scope r -> F' !! s = F !! s)
    /\ exists kids,
         children (scopeAt F' (scope r)) = children (scopeAt F (scope r)) ++ kids
         /\ forall G fuel,
              agreesOn F' G (length F) (length F') ->
              length F' - length F <= fuel ->
              flat_map (visitOrder fuel G) kids
              = seq (length F) (length F' - length F).

(** The table entries whose variable the renaming walk renames. *)
Definition eligible (t : list (string * VarId)) : list (string * VarId) :=
  List.filter (fun e => shouldRename (fst e)) t.

(** All table entries, scope by scope in order of creation. *)
Definition allEntries (r : Renamer) : list (string * VarId) :=
  entries r (seq 0 (length (scopes r))).




(** The sites a callback may record: the binding identifiers that
    [collectDeclarations] pushes as declaration sites when it enters a node,
    and the identifier use that [collectReferences] pushes as a reference
    site. *)
Fixpoint paramSites (id : NodeId) (ps : list Node) : list NodeId :=
  match ps with
  | [] => []
  | p :: ps' =>
      (if isBindingIdentifier p then [id] else []) ++ paramSites (id + size p) ps'
  end.

Fixpoint declaratorSites (id : NodeId) (ds : list Node) : list NodeId :=
  match ds with
  | VariableDeclarator (BindingIdentifier _) _ as d :: ds' =>
      S id :: declaratorSites (id + size d) ds'
  | _ => []
  end.

Definition declSites (k : NodeId) (n : Node) : list NodeId :=
  match n with
  | FunctionDeclaration _ ps _ => S k :: paramSites (S (S k)) ps
  | FunctionExpression (Some _) ps _ => S k :: paramSites (S (S k)) ps
  | FunctionExpression None ps _ => paramSites (S k) ps
  | ArrowExpression ps _ => paramSites (S k) ps
  | CatchClause (Some (BindingIdentifier _)) _ => [S k]
  | VariableDeclaration _ ds => declaratorSites (S k) ds
  | _ => []
  end.

Definition refSites (k : NodeId) (n : Node) : list NodeId :=
  match n with IdentifierExpression _ => [k] | _ => [] end.

Definition eventDeclSites (e : Event) : list NodeId :=
  match e with Enter k n => declSites k n | Leave _ _ => [] end.

Definition eventRefSites (e : Event) : list NodeId :=
  match e with Enter k n => refSites k n | Leave _ _ => [] end.

Definition eventSites (e : Event) : list NodeId :=
  eventDeclSites e ++ eventRefSites e.

Definition nodeSites (k : NodeId) (n : Node) : list NodeId :=
  flat_map eventSites (events k n).
Definition listSites (k : NodeId) (l : list Node) : list NodeId :=
  flat_map eventSites (eventsList k l).

(** [Map.set] on the table of a scope. *)
Definition setTable (nm : string) (v : VarId) (x : Scope) : Scope :=
  mkScope (node x) (type x) (parent x) (children x)
          (tableSet nm v (variables x)).

(** All table entries of the scope tree, and the sites recorded for a
    variable. *)
Definition tableEntries (r : Renamer) : list (string * VarId) :=
  flat_map variables (scopes r).

Definition varSites (x : Variable_) : list NodeId :=
  declarations x ++ references x.

Definition sitesOf (r : Renamer) (v : VarId) : list NodeId :=
  varSites (getVariable r v).

(** The invariant of the two walks.  Every variable is registered in at
    most one table entry, under its name; two registered variables share no
    site; the sites of registered variables are among [S]; keys are unique
    within a table; the cursor, the parent links and the children are
    allocated scopes. *)
Record WF (r : Renamer) (S : list NodeId) : Prop := mkWF {
  wf_nodup : NoDup (snd <$> tableEntries r);
  wf_valid : forall k v, (k, v) ∈ tableEntries r ->
               exists x, heap r !! v = Some x /\ name x = k;
  wf_disj : forall k1 v k2 w x,
              (k1, v) ∈ tableEntries r -> (k2, w) ∈ tableEntries r ->
              x ∈ sitesOf r v -> x ∈ sitesOf r w -> v = w;
  wf_sites : forall k v x, (k, v) ∈ tableEntries r -> x ∈ sitesOf r v -> x ∈ S;
  wf_keys : forall s x, scopes r !! s = Some x -> NoDup (fst <$> variables x);
  wf_cursor : scope r < length (scopes r);
  wf_parent : forall s x p, scopes r !! s = Some x -> parent x = Some p ->
                p < length (scopes r);
  wf_children : forall s x c, scopes r !! s = Some x -> c ∈ children x ->
                  c < length (scopes r) }.

(** Every registered name that is not eligible for renaming is reserved,
    except [arguments]. *)
Definition usedOk (r : Renamer) : Prop :=
  forall k v, (k, v) ∈ tableEntries r -> shouldRename k = false ->
    k ∈ usedVariableNames r \/ k = "arguments".


(** The sites recorded by the case shared by the three function kinds. *)
Definition functionSites (k : NodeId) (n : Node) : list NodeId :=
  match n with
  | FunctionDeclaration _ ps _ => paramSites (S (S k)) ps
  | FunctionExpression (Some _) ps _ => S k :: paramSites (S (S k)) ps
  | FunctionExpression None ps _ => paramSites (S k) ps
  | ArrowExpression ps _ => paramSites (S k) ps
  | _ => []
  end.

(** The names the renaming walk hands out: the entries with an eligible
    key, in order, paired with the generated names, in order. *)
Fixpoint assign (t : list (string * VarId)) (names : list string)
    : list (VarId * string) :=
  match t with
  | [] => []
  | (k, v) :: t' =>
      if shouldRename k
      then match names with
           | nm :: rest => (v, nm) :: assign t' rest
           | [] => []
           end
      else assign t' names
  end.

(** The scope type the declaration walk gives to the scope of a node, and
    the scope-introducing nodes of a traversal in the order of their
    [enter] callbacks. *)
Definition scopeTypeOf (n : Node) : ScopeType :=
  match n with
  | FunctionDeclaration _ _ _ | FunctionExpression _ _ _ | ArrowExpression _ _ =>
      Function
  | _ => Other
  end.

Definition scopeNodes (es : list Event) : list (NodeId * ScopeType) :=
  flat_map (fun e => match e with
                     | Enter k n => if isScopeNode n then [(k, scopeTypeOf n)] else []
                     | Leave _ _ => []
                     end) es.

(** The letters of [ALPHABET]. *)
Definition isLetter (c : ascii) : bool :=
  bool_decide (c ∈ list_ascii_of_string ALPHABET).

(** ** The walks as sequences of elementary operations

    Each callback of the two walks is a sequence of elementary operations
    on the renamer: declaring a name in the scope the walk is in, opening a
    scope, adding [arguments], one turn of the declarator loop, leaving a
    node, entering the scope of a node, and resolving a use. *)
Inductive Op :=
| ODeclare (nm : string) (kd : VariableType) (site : NodeId)
| OOpen (k : NodeId) (ty : ScopeType)
| OArguments
| ODeclarator (kd : VariableType) (nm : string) (site : NodeId)
| OLeave (k : NodeId)
| OFind (k : NodeId)
| OUse (nm : string) (k : NodeId).

Definition opStep (o : Op) (r : Renamer) : Result Renamer :=
  match o with
  | ODeclare nm kd site => declare (scope r) nm kd site r
  | OOpen k ty =>
      let '(s, r1) := new_Scope k ty (scope r) r in Ok (setScope s r1)
  | OArguments =>
      let '(v, r5) := new_Variable "arguments" var r in
      addVariable (scope r5) v r5
  | ODeclarator kd nm site =>
      let declarationScope := getDeclarationScope r (scope r) kd in
      match tableGet nm (variables (getScope r declarationScope)) with
      | Some v =>
          if isBlockScoped (getVariable r v) || blockScopedTypes kd
          then Err (DuplicateDeclaration (name (getVariable r v)))
          else Ok (pushDeclaration v site r)
      | None =>
          let '(v, r1) := new_Variable nm kd r in
          let* r2 := addVariable (scope r1) v r1 in
          Ok (pushDeclaration v site (addName nm r2))
      end
  | OLeave k => Ok (leave k r)
  | OFind k =>
      match findChild r k with
      | Some s => Ok (setScope s r)
      | None => Err ScopeAssociationFailure
      end
  | OUse nm k =>
      match lookupVariable r (scope r) nm with
      | Some v => Ok (pushReference v k r)
      | None =>
          let '(v, r1) := new_Variable nm var r in
          Ok (pushReference v k (addName nm r1))
      end
  end.

Fixpoint runOps (os : list Op) (r : Renamer) : Result Renamer :=
  match os with
  | [] => Ok r
  | o :: os' => let* r1 := opStep o r in runOps os' r1
  end.

Fixpoint paramOps (id : NodeId) (ps : list Node) : list Op :=
  match ps with
  | [] => []
  | p :: ps' =>
      match p with BindingIdentifier nm => [ODeclare nm var id] | _ => [] end
      ++ paramOps (id + size p) ps'
  end.

Fixpoint declaratorOps (kd : VariableType) (id : NodeId) (ds : list Node)
    : list Op :=
  match ds with
  | VariableDeclarator (BindingIdentifier nm) _ as d :: ds' =>
      ODeclarator kd nm (S id) :: declaratorOps kd (id + size d) ds'
  | _ => []
  end.

Definition declOps (e : Event) : list Op :=
  match e with
  | Enter k n =>
      match n with
      | FunctionDeclaration nm ps _ =>
          ODeclare nm var (S k) :: OOpen k Function
          :: paramOps (S (S k)) ps ++ [OArguments]
      | FunctionExpression (Some nm) ps _ =>
          OOpen k Function :: ODeclare nm var (S k)
          :: paramOps (S (S k)) ps ++ [OArguments]
      | FunctionExpression None ps _ =>
          OOpen k Function :: paramOps (S k) ps ++ [OArguments]
      | ArrowExpression ps _ => OOpen k Function :: paramOps (S k) ps
      | CatchClause (Some (BindingIdentifier nm)) _ =>
          [ODeclare nm let_ (S k); OOpen k Other]
      | CatchClause _ _ | ForStatement _ | BlockStatement _ => [OOpen k Other]
      | VariableDeclaration kd ds => declaratorOps kd (S k) ds
      | _ => []
      end
  | Leave k _ => [OLeave k]
  end.

Definition refOps (e : Event) : list Op :=
  match e with
  | Enter k n =>
      if isScopeNode n then [OFind k]
      else match n with IdentifierExpression nm => [OUse nm k] | _ => [] end
  | Leave k _ => [OLeave k]
  end.

Definition opSites (o : Op) : list NodeId :=
  match o with
  | ODeclare _ _ site | ODeclarator _ _ site => [site]
  | OUse _ k => [k]
  | _ => []
  end.

(** The operations of the walks over the tree in which the names of [m]
    have been written. *)
Definition patchOp (m : gmap NodeId string) (o : Op) : Op :=
  match o with
  | ODeclare nm kd site => ODeclare (default nm (m !! site)) kd site
  | ODeclarator kd nm site => ODeclarator kd (default nm (m !! site)) site
  | OUse nm k => OUse (default nm (m !! k)) k
  | _ => o
  end.

Definition patchEvent (m : gmap NodeId string) (e : Event) : Event :=
  match e with
  | Enter k n => Enter k (patch m k n)
  | Leave k n => Leave k (patch m k n)
  end.

Definition patchList (m : gmap NodeId string) : NodeId -> list Node -> list Node :=
  fix go (k : NodeId) (l : list Node) : list Node :=
    match l with
    | [] => []
    | c :: l' => patch m k c :: go (k + size c) l'
    end.

(** ** Comparing the walks over a tree and over the renamed tree

    [regSite r x]: node [x] is recorded by a registered variable.
    [grows r fin]: every table entry, every recorded site and every used
    name of [r] is still there in [fin].  [extra r s k v]: variable [v],
    registered under the eligible name [k] in scope [s] by the walk over
    the renamed tree only; the walk over the original tree has [k] in the
    table of [s] for another variable.  [Sim K r r']: the state [r'] of the
    walk over the renamed tree against the state [r] of the walk over the
    original tree, [K] being the final name of each variable: the same
    scope tree, cursor and variables with the same sites, and the same
    table entries under their final names, up to extra entries. *)
Definition regSite (r : Renamer) (x : NodeId) : Prop :=
  exists k v, (k, v) ∈ tableEntries r /\ x ∈ sitesOf r v.

Definition grows (r fin : Renamer) : Prop :=
  (forall s k v, (k, v) ∈ variables (getScope r s) ->
                 (k, v) ∈ variables (getScope fin s))
  /\ (forall v x, x ∈ sitesOf r v -> x ∈ sitesOf fin v)
  /\ usedVariableNames r ⊆ usedVariableNames fin.

Definition extra (r : Renamer) (s : ScopeId) (k : string) (v : VarId) : Prop :=
  shouldRename k = true
  /\ is_Some (tableGet k (variables (getScope r s)))
  /\ kind (getVariable r v) = var
  /\ v < length (heap r)
  /\ (forall s2 k2, (k2, v) ∉ variables (getScope r s2))
  /\ references (getVariable r v) = [].

Definition sameSites (x y : Variable_) : Prop :=
  kind y = kind x /\ declarations y = declarations x
  /\ references y = references x.

Record Sim (K : VarId -> string) (r r' : Renamer) : Prop := mkSim {
  sim_shapes : shapes r' = shapes r;
  sim_scope : scope r' = scope r;
  sim_len : length (heap r') = length (heap r);
  sim_heap : forall v, sameSites (getVariable r v) (getVariable r' v);
  sim_fwd : forall s k v, (k, v) ∈ variables (getScope r s) ->
              (K v, v) ∈ variables (getScope r' s);
  sim_bwd : forall s k' v, (k', v) ∈ variables (getScope r' s) ->
              (exists k, (k, v) ∈ variables (getScope r s) /\ k' = K v)
              \/ extra r s k' v;
  sim_keys : forall s, NoDup (fst <$> variables (getScope r' s)) }.

(** [heapStep r r1 z]: the heap of [r1] is the heap of [r] with one more
    variable [z], the other variables keeping their kind and sites. *)
Definition heapStep (r r1 : Renamer) (z : Variable_) : Prop :=
  length (heap r1) = S (length (heap r))
  /\ getVariable r1 (length (heap r)) = z
  /\ forall w, w <> length (heap r) -> sameSites (getVariable r w) (getVariable r1 w).

(** [resolvesTo r x s ds]: in the state [r] left by the two walks, the use
    [x] is recorded as a reference of a variable registered in scope [s]
    whose declaration sites are [ds]. *)
Definition resolvesTo (r : Renamer) (x : NodeId) (s : ScopeId)
    (ds : list NodeId) : bool :=
  existsb (fun e => bool_decide (x ∈ references (getVariable r (snd e)))
                    && bool_decide (declarations (getVariable r (snd e)) = ds))
          (variables (getScope r s)).

(** ** The names at the recorded sites

    [opNames o]: the node an operation records, with the name the node
    carries.  [identifiers es]: the identifier nodes of a traversal, each
    with its name.  [prov r r1 A]: every site recorded in [r1] was recorded
    in [r] by the same variable, whose name has not changed, or is a node
    of [A] that carries the name of the variable. *)
Definition opNames (o : Op) : list (NodeId * string) :=
  match o with
  | ODeclare nm _ site | ODeclarator _ nm site => [(site, nm)]
  | OUse nm k => [(k, nm)]
  | _ => []
  end.

Definition identifiers (es : list Event) : list (NodeId * string) :=
  flat_map (fun e => match e with
                     | Enter k (BindingIdentifier nm)
                     | Enter k (IdentifierExpression nm) => [(k, nm)]
                     | _ => []
                     end) es.

Definition prov (r r1 : Renamer) (A : list (NodeId * string)) : Prop :=
  forall w x, x ∈ sitesOf r1 w ->
    (x ∈ sitesOf r w /\ name (getVariable r1 w) = name (getVariable r w))
    \/ (x, name (getVariable r1 w)) ∈ A.

(** * Properties *)

(** ** Declaration collection: variable declarations *)

Lemma declareDeclarators_break k id ds1 bd ini ds2 r :
  isBindingIdentifier bd = false ->
  declareDeclarators k id (ds1 ++ VariableDeclarator bd ini :: ds2) r
  = declareDeclarators k id ds1 r.
Proof.
  intros Hbd. revert id r.
  induction ds1 as [|d ds1 IH]; intros id r; simpl.
  - destruct bd; try reflexivity. discriminate.
  - destruct d as [| | | | | | | | | |b i|]; try reflexivity.
    destruct b; try reflexivity.
    match goal with |- context [tableGet ?a ?t] => destruct (tableGet a t) end.
    + match goal with |- context [?a || ?b] => destruct (a || b) end;
        simpl; [reflexivity|apply IH].
    + unfold new_Variable.
      match goal with |- context [addVariable ?a ?b ?c] =>
        destruct (addVariable a b c) end; simpl; [apply IH|reflexivity].
Qed.

(** C10: when a declarator of a variable-declaration statement binds a
    destructuring pattern, the statement is processed as if it ended just
    before that declarator: the renamer state after entering the statement
    (scopes, variables and reserved names) is the one obtained from the
    preceding declarators alone, so no later declarator is declared or
    has its name reserved. *)
Theorem destructuring_stops_statement k kd ds1 bd ini ds2 r :
  isBindingIdentifier bd = false ->
  declEnter k (VariableDeclaration kd (ds1 ++ VariableDeclarator bd ini :: ds2)) r
  = declEnter k (VariableDeclaration kd ds1) r.
Proof. intros Hbd. simpl. now apply declareDeclarators_break. Qed.

Lemma destructuring_stops_statement_witness :
  let pat := OtherNode [BindingIdentifier "p"] in
  let later := VariableDeclarator (BindingIdentifier "y") None in
  isBindingIdentifier pat = false /\
  declEnter 1 (VariableDeclaration var
                 ([VariableDeclarator (BindingIdentifier "x") None]
                  ++ VariableDeclarator pat None :: [later]))
            new_VariableRenamer
  = declEnter 1 (VariableDeclaration var
                   [VariableDeclarator (BindingIdentifier "x") None])
              new_VariableRenamer.
Proof.
  split; [reflexivity|].
  apply (destructuring_stops_statement 1 var
           [VariableDeclarator (BindingIdentifier "x") None]
           (OtherNode [BindingIdentifier "p"]) None
           [VariableDeclarator (BindingIdentifier "y") None]
           new_VariableRenamer).
  reflexivity.
Defined.





(** [let x; let x] in one block: the second statement throws. *)
Example let_twice_in_block :
  execute (Script [BlockStatement
    [VariableDeclaration let_ [VariableDeclarator (BindingIdentifier "x") None];
     VariableDeclaration let_ [VariableDeclarator (BindingIdentifier "x") None]]])
  = Err (DuplicateDeclaration "x").
Proof. vm_compute. reflexivity. Qed.

(** [function f() { var x; var x; }]: one variable with both sites. *)
Example var_twice_in_function :
  (let* r := execute (Script [FunctionDeclaration "f" []
      [VariableDeclaration var [VariableDeclarator (BindingIdentifier "x") None];
       VariableDeclaration var [VariableDeclarator (BindingIdentifier "x") None]]]) in
   Ok (variables (getScope r 1), getVariable r 2))
  = Ok ([("arguments", 1); ("x", 2)], mkVariable "x" var [5; 8] []).
Proof. vm_compute. reflexivity. Qed.

(** ** Declaration collection: where bindings land *)


(** C5: on [try {} catch (e) {}] the catch binding is in the table of the
    scope enclosing the clause (here the Global scope) and the scope created
    for the clause has an empty table. *)
Theorem catch_binding_lands_in_enclosing_scope :
  let ast := Script [OtherNode [OtherNode [];
                                CatchClause (Some (BindingIdentifier "e")) []]] in
  exists r, collectDeclarations ast new_VariableRenamer = Ok r
    /\ node (getScope r 1) = 3
    /\ parent (getScope r 1) = Some globalScope
    /\ variables (getScope r 1) = []
    /\ variables (getScope r globalScope) = [("e", 0)]
    /\ getVariable r 0 = mkVariable "e" let_ [4] [].
Proof. eexists. split; [vm_compute; reflexivity|]. repeat split. Qed.

(** Two catch clauses in a row that name their binding alike make the pass
    throw, because both bindings go to the enclosing scope. *)
Example sibling_catch_clauses_throw :
  execute (Script
    [OtherNode [OtherNode []; CatchClause (Some (BindingIdentifier "e")) []];
     OtherNode [OtherNode []; CatchClause (Some (BindingIdentifier "e")) []]])
  = Err (DuplicateDeclaration "e").
Proof. vm_compute. reflexivity. Qed.

(** ** Reference resolution: implicit globals *)

(** C3, as stated, fails on [x; x;]: after both walks the Global table has
    no entry for [x], and the two uses are recorded on two different
    variables. *)
Lemma implicit_global_not_registered :
  let ast := Script [OtherNode [IdentifierExpression "x"];
                     OtherNode [IdentifierExpression "x"]] in
  exists r,
    (let* r1 := collectDeclarations ast new_VariableRenamer in
     collectReferences ast r1) = Ok r
    /\ tableGet "x" (variables (getScope r globalScope)) = None
    /\ heap r = [mkVariable "x" var [] [2]; mkVariable "x" var [] [4]].
Proof. eexists. split; [vm_compute; reflexivity|]. repeat split. Qed.

(** C3, amended: an identifier use that [lookupVariable] does not resolve
    allocates a fresh var-kind variable holding that use as its only
    reference; no scope table changes, so the variable is registered nowhere
    and a later unresolved use of the name allocates another one; the name
    is added to the reserved names unless it is eligible for renaming. *)
Theorem unresolved_use_allocates_fresh_variable k nm r :
  lookupVariable r (scope r) nm = None ->
  exists r', refEnter k (IdentifierExpression nm) r = Ok r'
    /\ scopes r' = scopes r
    /\ scope r' = scope r
    /\ heap r' = heap r ++ [mkVariable nm var [] [k]]
    /\ lookupVariable r' (scope r') nm = None
    /\ usedVariableNames r'
       = (if shouldRename nm then usedVariableNames r
          else {[nm]} ∪ usedVariableNames r).
Proof.
  intros Hl. unfold refEnter. simpl. rewrite Hl. simpl.
  eexists. split; [reflexivity|].
  assert (Hs : scopes (addName nm (setHeap
             (fun h => h ++ [mkVariable nm var [] []]) r)) = scopes r)
    by (unfold addName; destruct (shouldRename nm); reflexivity).
  assert (Hc : scope (addName nm (setHeap
             (fun h => h ++ [mkVariable nm var [] []]) r)) = scope r)
    by (unfold addName; destruct (shouldRename nm); reflexivity).
  repeat split; simpl.
  - exact Hs.
  - exact Hc.
  - unfold addName. destruct (shouldRename nm); simpl;
      rewrite alter_app_r_alt by lia; rewrite Nat.sub_diag; reflexivity.
  - unfold lookupVariable in *. simpl. rewrite Hs, Hc. exact Hl.
  - unfold addName. destruct (shouldRename nm); reflexivity.
Qed.

Lemma unresolved_use_allocates_fresh_variable_witness :
  lookupVariable new_VariableRenamer globalScope "x" = None /\
  exists r', refEnter 2 (IdentifierExpression "x") new_VariableRenamer = Ok r'
    /\ scopes r' = scopes new_VariableRenamer
    /\ heap r' = [mkVariable "x" var [] [2]].
Proof.
  split; [reflexivity|].
  destruct (unresolved_use_allocates_fresh_variable 2 "x" new_VariableRenamer)
    as (r' & H1 & H2 & _ & H3 & _); [reflexivity|].
  exists r'. repeat split; assumption.
Defined.

(** ** Name generation *)

Lemma string_compare_lt_trans a b c :
  String.compare a b = Lt -> String.compare b c = Lt -> String.compare a c = Lt.
Proof.
  revert b c. induction a as [|x a IH]; intros [|y b] [|z c]; simpl;
    try congruence.
  unfold Ascii.compare.
  destruct (N.compare_spec (N_of_ascii x) (N_of_ascii y)) as [Hxy|Hxy|Hxy];
    try discriminate;
  destruct (N.compare_spec (N_of_ascii y) (N_of_ascii z)) as [Hyz|Hyz|Hyz];
    try discriminate; intros H1 H2.
  - rewrite Hxy, Hyz, N.compare_refl. eauto.
  - rewrite Hxy, (proj2 (N.compare_lt_iff _ _) Hyz). reflexivity.
  - rewrite <- Hyz, (proj2 (N.compare_lt_iff _ _) Hxy). reflexivity.
  - assert (Hxz : (N_of_ascii x < N_of_ascii z)%N) by lia.
    rewrite (proj2 (N.compare_lt_iff _ _) Hxz). reflexivity.
Qed.

Lemma string_compare_refl a : String.compare a a = Eq.
Proof.
  induction a as [|x a IH]; simpl; [reflexivity|].
  unfold Ascii.compare. now rewrite N.compare_refl.
Qed.

Lemma string_ltb_lt a b : String.ltb a b = true <-> String.compare a b = Lt.
Proof. unfold String.ltb. destruct (String.compare a b); split; congruence. Qed.

#[local] Instance shortlex_trans : Transitive shortlex.
Proof.
  intros a b c [H1|[H1 L1]] [H2|[H2 L2]]; unfold shortlex.
  - left; lia.
  - left; lia.
  - left; lia.
  - right. split; [congruence|].
    apply string_ltb_lt. apply string_ltb_lt in L1, L2.
    eapply string_compare_lt_trans; eassumption.
Qed.

Lemma shortlex_irrefl a : ~ shortlex a a.
Proof.
  intros [H|[_ H]]; [lia|].
  apply string_ltb_lt in H. rewrite string_compare_refl in H. discriminate.
Qed.

Lemma shortlexb_spec a b : shortlexb a b = true -> shortlex a b.
Proof.
  unfold shortlexb, shortlex. intros H.
  apply orb_true_iff in H as [H|H].
  - left. now apply Nat.ltb_lt.
  - apply andb_true_iff in H as [H1 H2]. right. split; [|exact H2].
    now apply Nat.eqb_eq.
Qed.

Lemma sortedb_spec l : sortedb l = true -> StronglySorted shortlex l.
Proof.
  intros H. apply Sorted_StronglySorted; [apply shortlex_trans|].
  induction l as [|a l IH]; [constructor|].
  destruct l as [|b l]; [repeat constructor|].
  simpl in H. apply andb_true_iff in H as [H1 H2].
  constructor; [apply IH; exact H2|].
  constructor. apply shortlexb_spec. exact H1.
Qed.

Lemma candidates_sorted : StronglySorted shortlex candidates.
Proof. apply sortedb_spec. vm_compute. reflexivity. Qed.

(** ** Frame lemmas: what the operations leave unchanged *)

Lemma keeps_refl r : keeps r r.
Proof. split; [|split]; [reflexivity..|set_solver]. Qed.

Lemma keeps_trans r1 r2 r3 : keeps r1 r2 -> keeps r2 r3 -> keeps r1 r3.
Proof.
  intros (A1 & A2 & A3) (B1 & B2 & B3). repeat split; try congruence.
  set_solver.
Qed.

Lemma shapes_alter_variables (f : Scope -> Scope) (s : nat) (ss : list Scope) :
  (forall x, shape (f x) = shape x) ->
  shape <$> alter f s ss = shape <$> ss.
Proof.
  intros Hf. revert s. induction ss as [|x ss IH]; intros [|s]; simpl;
    try reflexivity.
  - f_equal. apply Hf.
  - f_equal. apply IH.
Qed.

Lemma keeps_setHeap f r : keeps r (setHeap f r).
Proof. split; [|split]; [reflexivity..|simpl; set_solver]. Qed.

Lemma keeps_addName nm r : keeps r (addName nm r).
Proof.
  unfold addName. destruct (shouldRename nm); [apply keeps_refl|].
  split; [|split]; [reflexivity..|simpl; set_solver].
Qed.

Lemma keeps_addVariable s v r r' : addVariable s v r = Ok r' -> keeps r r'.
Proof.
  unfold addVariable. intros H.
  destruct (tableGet _ _).
  - destruct (_ || _); [discriminate|]. injection H as <-. apply keeps_setHeap.
  - injection H as <-. split; [|split]; [reflexivity| |simpl; set_solver].
    unfold shapes. simpl. now apply shapes_alter_variables.
Qed.

Lemma keeps_declare s nm k site r r' : declare s nm k site r = Ok r' -> keeps r r'.
Proof.
  unfold declare, new_Variable. intros H.
  destruct (addVariable _ _ _) as [r3|] eqn:E; [|discriminate].
  injection H as <-. apply keeps_addVariable in E.
  eapply keeps_trans; [|apply keeps_addName].
  eapply keeps_trans; [|exact E].
  unfold pushDeclaration. eapply keeps_trans; apply keeps_setHeap.
Qed.

Lemma keeps_declareParams id ps r r' :
  declareParams id ps r = Ok r' -> keeps r r'.
Proof.
  revert id r. induction ps as [|p ps IH]; intros id r H; simpl in H.
  - injection H as <-. apply keeps_refl.
  - destruct p; simpl in H; try (now apply IH in H).
    destruct (declare _ _ _ _ _) as [r1|] eqn:E; [|discriminate].
    simpl in H. apply keeps_declare in E. apply IH in H.
    eapply keeps_trans; eassumption.
Qed.

Lemma keeps_declareDeclarators k id ds r r' :
  declareDeclarators k id ds r = Ok r' -> keeps r r'.
Proof.
  revert id r. induction ds as [|d ds IH]; intros id r H; simpl in H.
  - injection H as <-. apply keeps_refl.
  - destruct d as [| | | | | | | | | |b i|];
      try (injection H as <-; apply keeps_refl).
    destruct b; try (injection H as <-; apply keeps_refl).
    destruct (tableGet _ _).
    + destruct (_ || _); [discriminate|]. simpl in H. apply IH in H.
      eapply keeps_trans; [|exact H]. apply keeps_setHeap.
    + unfold new_Variable in H.
      destruct (addVariable _ _ _) as [r2|] eqn:E; [|discriminate].
      simpl in H. apply IH in H. apply keeps_addVariable in E.
      eapply keeps_trans; [|exact H].
      eapply keeps_trans; [|apply keeps_setHeap].
      eapply keeps_trans; [|apply keeps_addName].
      eapply keeps_trans; [|exact E]. apply keeps_setHeap.
Qed.

Ltac case_node n :=
  destruct n as [?ss|?nm|?nm|?nm ?ps ?b|?nm ?ps ?b|?ps ?b|?bd ?b|?ps|?ss
                |?kd ?ds|?bd ?i|?cs].

Lemma keeps_opens k ty r1 r2 r3 : keeps r1 r2 -> opens k ty r2 r3 -> opens k ty r1 r3.
Proof.
  intros (A1 & A2 & A3) (B1 & B2 & B3). unfold opens.
  assert (length (scopes r2) = length (scopes r1)) as Hl.
  { unfold shapes in A2. apply (f_equal length) in A2.
    now rewrite !length_fmap in A2. }
  split; [congruence|]. split; [|set_solver].
  now rewrite B2, A1, A2.
Qed.

Lemma opens_keeps k ty r1 r2 r3 : opens k ty r1 r2 -> keeps r2 r3 -> opens k ty r1 r3.
Proof.
  intros (A1 & A2 & A3) (B1 & B2 & B3). unfold opens.
  split; [congruence|]. split; [congruence|set_solver].
Qed.

Lemma opens_new_Scope k ty r :
  opens k ty r (setScope (fst (new_Scope k ty (scope r) r))
                         (snd (new_Scope k ty (scope r) r))).
Proof.
  split; [reflexivity|]. split; [|simpl; set_solver].
  unfold shapes, openShape. simpl. rewrite fmap_app, length_fmap. f_equal.
  generalize (scope r) as c. generalize (length (scopes r)) as s.
  induction (scopes r) as [|x ss IH]; intros s [|c]; simpl; try reflexivity.
  f_equal. apply IH.
Qed.

Lemma opens_enterBlock k r : opens k Other r (enterBlock k r).
Proof. apply (opens_new_Scope k Other r). Qed.

Lemma opens_enterFunction k n r r' :
  enterFunction k n r = Ok r' -> opens k Function r r'.
Proof.
  unfold enterFunction. intros H.
  pose proof (opens_new_Scope k Function r) as Ho.
  destruct (new_Scope k Function (scope r) r) as [s r1] eqn:En. simpl in Ho.
  set (r2 := setScope s r1) in *.
  assert (exists r3, keeps r2 r3 /\
    (let* r4 := match n with
             | FunctionDeclaration _ ps _ => declareParams (S (S k)) ps r3
             | FunctionExpression (Some _) ps _ => declareParams (S (S k)) ps r3
             | FunctionExpression None ps _ => declareParams (S k) ps r3
             | ArrowExpression ps _ => declareParams (S k) ps r3
             | _ => Ok r3
             end in
     match n with
     | ArrowExpression _ _ => Ok r4
     | _ => let '(v, r5) := new_Variable "arguments" var r4 in
            addVariable (scope r5) v r5
     end) = Ok r') as (r3 & K3 & H3).
  { case_node n; try (exists r2; split; [apply keeps_refl|exact H]).
    destruct nm as [nm|]; [|exists r2; split; [apply keeps_refl|exact H]].
    destruct (declare s nm var (S k) r2) as [r3|] eqn:E; [|discriminate].
    exists r3. split; [eapply keeps_declare; exact E|exact H]. }
  clear H.
  assert (exists r4, keeps r3 r4 /\
     match n with
     | ArrowExpression _ _ => Ok r4
     | _ => let '(v, r5) := new_Variable "arguments" var r4 in
            addVariable (scope r5) v r5
     end = Ok r') as (r4 & K4 & H4).
  { case_node n; try (exists r3; split; [apply keeps_refl|exact H3]).
    - destruct (declareParams _ _ r3) as [r4|] eqn:E; [|discriminate].
      exists r4. split; [eapply keeps_declareParams; exact E|exact H3].
    - destruct nm;
      (destruct (declareParams _ _ r3) as [r4|] eqn:E; [|discriminate];
       exists r4; split; [eapply keeps_declareParams; exact E|exact H3]).
    - destruct (declareParams _ _ r3) as [r4|] eqn:E; [|discriminate].
      exists r4. split; [eapply keeps_declareParams; exact E|exact H3]. }
  clear H3.
  assert (keeps r4 r') as K5.
  { case_node n; try (unfold new_Variable in H4; apply keeps_addVariable in H4;
      eapply keeps_trans; [apply keeps_setHeap|exact H4]).
    injection H4 as <-. apply keeps_refl. }
  eapply opens_keeps; [exact Ho|].
  eapply keeps_trans; [exact K3|]. eapply keeps_trans; eassumption.
Qed.

Lemma declEnter_keeps k n r r' :
  isScopeNode n = false -> declEnter k n r = Ok r' -> keeps r r'.
Proof.
  intros Hn H. case_node n; try discriminate; simpl in H;
    try (injection H as <-; apply keeps_refl).
  eapply keeps_declareDeclarators; exact H.
Qed.

Lemma declEnter_opens k n r r' :
  isScopeNode n = true -> declEnter k n r = Ok r' ->
  exists ty, opens k ty r r'.
Proof.
  intros Hn H. case_node n; try discriminate; simpl in H.
  - destruct (declare _ _ _ _ _) as [r1|] eqn:E; [|discriminate]. simpl in H.
    exists Function. eapply keeps_opens; [eapply keeps_declare; exact E|].
    eapply opens_enterFunction; exact H.
  - exists Function. eapply opens_enterFunction; exact H.
  - exists Function. eapply opens_enterFunction; exact H.
  - exists Other.
    assert (exists r1, keeps r r1 /\ r' = enterBlock k r1) as (r1 & K & ->).
    { destruct bd as [bd|];
        [|exists r; split; [apply keeps_refl|simpl in H; congruence]].
      case_node bd;
        try (exists r; split; [apply keeps_refl|simpl in H; congruence]).
      destruct (declare _ _ _ _ _) as [r1|] eqn:E; [|discriminate].
      exists r1. split; [eapply keeps_declare; exact E|simpl in H; congruence]. }
    eapply keeps_opens; [exact K|apply opens_enterBlock].
  - exists Other. injection H as <-. apply opens_enterBlock.
  - exists Other. injection H as <-. apply opens_enterBlock.
Qed.

Lemma leave_frame k r :
  shapes (leave k r) = shapes r
  /\ usedVariableNames (leave k r) = usedVariableNames r
  /\ heap (leave k r) = heap r /\ scopes (leave k r) = scopes r.
Proof.
  unfold leave. destruct (parent _); [destruct (Nat.eqb _ _)|]; repeat split.
Qed.


Lemma refEnter_keeps k n r :
  isScopeNode n = false -> exists r', refEnter k n r = Ok r' /\ keeps r r'.
Proof.
  intros Hn. unfold refEnter. rewrite Hn.
  case_node n; try (exists r; split; [reflexivity|apply keeps_refl]).
  destruct (lookupVariable _ _ _).
  - eexists. split; [reflexivity|apply keeps_setHeap].
  - unfold new_Variable. eexists. split; [reflexivity|].
    eapply keeps_trans; [apply keeps_setHeap|].
    eapply keeps_trans; [apply keeps_addName|apply keeps_setHeap].
Qed.



(** ** The traversal as a list of callbacks *)

Lemma sizes_app l1 l2 : sizes (l1 ++ l2) = sizes l1 + sizes l2.
Proof.
  induction l1 as [|c l1 IH]; simpl; [reflexivity|]. rewrite IH. lia.
Qed.

Ltac case_opt :=
  match goal with o : option _ |- _ => destruct o end.

Lemma size_eq n :
  size n = S match n with
    | Script ss => sizes ss
    | BindingIdentifier _ | IdentifierExpression _ => 0
    | FunctionDeclaration _ ps b => 1 + sizes ps + sizes b
    | FunctionExpression nm ps b =>
        match nm with Some _ => 1 | None => 0 end + sizes ps + sizes b
    | ArrowExpression ps b => sizes ps + sizes b
    | CatchClause bd b =>
        match bd with Some c => size c | None => 0 end + sizes b
    | ForStatement ps => sizes ps
    | BlockStatement ss => sizes ss
    | VariableDeclaration _ ds => sizes ds
    | VariableDeclarator bd i =>
        size bd + match i with Some c => size c | None => 0 end
    | OtherNode cs => sizes cs
    end.
Proof. destruct n; reflexivity. Qed.

Lemma size_childNodes n : size n = S (sizes (childNodes n)).
Proof.
  rewrite size_eq.
  case_node n; repeat case_opt;
    cbn [childNodes opt_list fmap option_fmap option_map];
    rewrite ?sizes_app; simpl; rewrite ?sizes_app; lia.
Qed.

Lemma eventsList_app k l1 l2 :
  eventsList k (l1 ++ l2) = eventsList k l1 ++ eventsList (k + sizes l1) l2.
Proof.
  revert k. induction l1 as [|c l1 IH]; intros k; simpl.
  - now rewrite Nat.add_0_r.
  - rewrite IH, Nat.add_assoc, app_assoc. reflexivity.
Qed.

Lemma events_eq k n :
  events k n
  = Enter k n ::
    match n with
    | Script ss => eventsList (S k) ss
    | BindingIdentifier _ | IdentifierExpression _ => []
    | FunctionDeclaration nm ps b =>
        events (S k) (BindingIdentifier nm) ++ eventsList (S (S k)) ps
        ++ eventsList (S (S k) + sizes ps) b
    | FunctionExpression nm ps b =>
        match nm with
        | Some x => events (S k) (BindingIdentifier x) ++ eventsList (S (S k)) ps
                    ++ eventsList (S (S k) + sizes ps) b
        | None => eventsList (S k) ps ++ eventsList (S k + sizes ps) b
        end
    | ArrowExpression ps b => eventsList (S k) ps ++ eventsList (S k + sizes ps) b
    | CatchClause bd b =>
        match bd with
        | Some c => events (S k) c ++ eventsList (S k + size c) b
        | None => eventsList (S k) b
        end
    | ForStatement ps => eventsList (S k) ps
    | BlockStatement ss => eventsList (S k) ss
    | VariableDeclaration _ ds => eventsList (S k) ds
    | VariableDeclarator bd i =>
        events (S k) bd ++
        match i with Some c => events (S k + size bd) c | None => [] end
    | OtherNode cs => eventsList (S k) cs
    end ++ [Leave k n].
Proof. destruct n; reflexivity. Qed.

Lemma events_childNodes k n :
  events k n = Enter k n :: eventsList (S k) (childNodes n) ++ [Leave k n].
Proof.
  rewrite events_eq.
  case_node n; repeat case_opt;
    cbn [childNodes opt_list fmap option_fmap option_map];
    rewrite ?eventsList_app; cbn [eventsList app size];
    rewrite ?app_nil_r, ?Nat.add_0_r, <- ?app_assoc; try reflexivity.
  all: simpl; rewrite ?eventsList_app; simpl; rewrite <- ?app_assoc;
    rewrite ?Nat.add_1_r, ?Nat.add_0_r; try reflexivity.
Qed.

(** Induction on trees through [childNodes]. *)
Lemma Node_childNodes_ind (P : Node -> Prop) :
  (forall n, Forall P (childNodes n) -> P n) -> forall n, P n.
Proof.
  intros H.
  assert (Hm : forall m n, size n <= m -> P n).
  { induction m as [|m IH]; intros n Hn.
    - rewrite size_childNodes in Hn. lia.
    - apply H. rewrite size_childNodes in Hn.
      assert (Hc : sizes (childNodes n) <= m) by lia. clear Hn.
      induction (childNodes n) as [|c l IHl]; constructor; simpl in Hc.
      + apply IH. lia.
      + apply IHl. lia. }
  intros n. apply (Hm (size n)). lia.
Qed.

Lemma run_app step l1 l2 r :
  run step (l1 ++ l2) r = (let* r1 := run step l1 r in run step l2 r1).
Proof.
  revert r. induction l1 as [|e l1 IH]; intros r; simpl; [reflexivity|].
  destruct (step e r); simpl; [apply IH|reflexivity].
Qed.

Lemma cursorRun_app F l1 l2 c :
  cursorRun F (l1 ++ l2) c
  = match cursorRun F l1 c with
    | Some c' => cursorRun F l2 c'
    | None => None
    end.
Proof.
  revert c. induction l1 as [|e l1 IH]; intros c; simpl; [reflexivity|].
  destruct (cursorStep F e c); [apply IH|reflexivity].
Qed.

(** ** The scope tree built by the first walk *)

Lemma extends_refl F : extends F F.
Proof. intros s x H. exists x. repeat split; auto. Qed.

Lemma extends_trans F G H : extends F G -> extends G H -> extends F H.
Proof.
  intros A B s x Hx. destruct (A s x Hx) as (y & Hy & N1 & P1 & C1).
  destruct (B s y Hy) as (z & Hz & N2 & P2 & C2).
  exists z. repeat split; try congruence. etrans; eassumption.
Qed.

Lemma extends_length F G : extends F G -> length F <= length G.
Proof.
  intros H. destruct F as [|x F] using rev_ind; [simpl; lia|].
  destruct (H (length F) x) as (y & Hy & _).
  { rewrite lookup_app_r by lia. now rewrite Nat.sub_diag. }
  apply lookup_lt_Some in Hy. rewrite length_app. simpl. lia.
Qed.

Lemma extends_scopeAt F G s :
  extends F G -> s < length F ->
  node (scopeAt G s) = node (scopeAt F s)
  /\ parent (scopeAt G s) = parent (scopeAt F s)
  /\ children (scopeAt F s) `prefix_of` children (scopeAt G s).
Proof.
  intros H Hs. destruct (lookup_lt_is_Some_2 F s Hs) as [x Hx].
  destruct (H s x Hx) as (y & Hy & ? & ? & ?).
  unfold scopeAt. rewrite Hx, Hy. simpl. auto.
Qed.

Lemma childrenBelow_mono F k k' :
  k <= k' -> childrenBelow F k -> childrenBelow F k'.
Proof. intros Hk H s x c Hx Hc. destruct (H s x c Hx Hc). split; lia. Qed.

Lemma cursorBelow_mono F G c k k' :
  k <= k' -> extends F G -> cursorBelow F c k -> cursorBelow G c k'.
Proof.
  intros Hk He [Hc H]. pose proof (extends_length _ _ He).
  destruct (extends_scopeAt F G c He Hc) as (E1 & E2 & _).
  split; [lia|]. rewrite E1, E2. destruct H; [left; lia|now right].
Qed.

Lemma getScope_shapes r s :
  node (getScope r s) = node (scopeAt (shapes r) s)
  /\ parent (getScope r s) = parent (scopeAt (shapes r) s)
  /\ children (getScope r s) = children (scopeAt (shapes r) s).
Proof.
  unfold getScope, scopeAt, shapes. rewrite list_lookup_fmap.
  destruct (scopes r !! s); repeat split.
Qed.

Lemma length_shapes r : length (shapes r) = length (scopes r).
Proof. apply length_fmap. Qed.

(** The shape after opening a scope. *)
Lemma openShape_lookup_new k ty c F :
  openShape k ty c F !! length F = Some (mkScope k ty (Some c) [] []).
Proof.
  unfold openShape. rewrite lookup_app_r by (rewrite length_alter; lia).
  now rewrite length_alter, Nat.sub_diag.
Qed.

Lemma openShape_lookup_old k ty c F s x :
  F !! s = Some x ->
  openShape k ty c F !! s
  = Some (if decide (s = c) then addChild (length F) x else x).
Proof.
  intros Hx. unfold openShape.
  rewrite lookup_app_l by (rewrite length_alter; eapply lookup_lt_Some, Hx).
  destruct (decide (s = c)) as [->|Hne].
  - rewrite list_lookup_alter_eq, Hx. reflexivity.
  - rewrite list_lookup_alter_ne by congruence. exact Hx.
Qed.

Lemma openShape_length k ty c F : length (openShape k ty c F) = S (length F).
Proof. unfold openShape. rewrite length_app, length_alter. simpl. lia. Qed.

Lemma extends_openShape k ty c F : extends F (openShape k ty c F).
Proof.
  intros s x Hx. rewrite (openShape_lookup_old _ _ _ _ _ _ Hx).
  eexists. split; [reflexivity|].
  destruct (decide (s = c)); simpl; repeat split; auto.
  now apply prefix_app_r.
Qed.

Lemma childrenBelow_openShape k ty c F :
  c < length F -> childrenBelow F k ->
  childrenBelow (openShape k ty c F) (S k).
Proof.
  intros Hc H s x c' Hx Hc'. rewrite openShape_length.
  assert (Hold : forall d, d < length F ->
            node (scopeAt (openShape k ty c F) d) = node (scopeAt F d)).
  { intros d Hd. now destruct (extends_scopeAt _ _ d (extends_openShape k ty c F) Hd). }
  destruct (decide (s < length F)) as [Hs|Hs].
  - destruct (lookup_lt_is_Some_2 F s Hs) as [y Hy].
    rewrite (openShape_lookup_old _ _ _ _ _ _ Hy) in Hx.
    injection Hx as <-.
    assert (c' ∈ children y \/ c' = length F) as [Hin| ->].
    { destruct (decide (s = c)); [|now left]. simpl in Hc'.
      apply elem_of_app in Hc' as [?|Hn]; [now left|right].
      now apply list_elem_of_singleton in Hn. }
    + destruct (H s y c' Hy Hin) as [L N]. rewrite Hold by exact L.
      split; lia.
    + split; [lia|]. unfold scopeAt. rewrite openShape_lookup_new. simpl. lia.
  - assert (s = length F) as ->.
    { apply lookup_lt_Some in Hx. rewrite openShape_length in Hx. lia. }
    rewrite openShape_lookup_new in Hx. injection Hx as <-. simpl in Hc'.
    now apply elem_of_nil in Hc'.
Qed.

Lemma find_first {A} (p : A -> bool) (old rest : list A) (s : A) :
  (forall x, x ∈ old -> p x = false) -> p s = true ->
  List.find p (old ++ s :: rest) = Some s.
Proof.
  intros Ho Hs. induction old as [|x old IH]; simpl.
  - now rewrite Hs.
  - rewrite Ho by constructor. apply IH. intros y Hy. apply Ho. now constructor.
Qed.

Lemma cursorStep_enter_opened k ty n r r1 G :
  isScopeNode n = true ->
  cursorBelow (shapes r) (scope r) k -> childrenBelow (shapes r) k ->
  opens k ty r r1 -> extends (shapes r1) G ->
  cursorStep G (Enter k n) (scope r) = Some (scope r1).
Proof.
  intros Hn [Hc _] Hb (Hs & Hsh & _) He. simpl. rewrite Hn.
  set (F := shapes r) in *. set (c := scope r) in *.
  assert (HF : extends F (shapes r1)) by (rewrite Hsh; apply extends_openShape).
  assert (HFG : extends F G) by (eapply extends_trans; eassumption).
  assert (Hlen : length (shapes r1) = S (length F))
    by (rewrite Hsh; apply openShape_length).
  destruct (lookup_lt_is_Some_2 F c Hc) as [x Hx].
  destruct (extends_scopeAt (shapes r1) G c He) as (_ & _ & [rest Hp]); [lia|].
  fold (scopeAt G c). rewrite Hp.
  assert (Hch : children (scopeAt (shapes r1) c) = children x ++ [length F]).
  { unfold scopeAt. rewrite Hsh, (openShape_lookup_old _ _ _ _ _ _ Hx).
    destruct (decide (c = c)); [reflexivity|congruence]. }
  rewrite Hch, <- app_assoc. simpl.
  rewrite Hs, <- length_shapes. fold F.
  apply find_first.
  - intros d Hd. destruct (Hb c x d Hx Hd) as [L N].
    fold (scopeAt G d).
    destruct (extends_scopeAt F G d HFG L) as (-> & _). apply Nat.eqb_neq. lia.
  - fold (scopeAt G (length F)).
    destruct (extends_scopeAt (shapes r1) G (length F) He) as (-> & _); [lia|].
    unfold scopeAt. rewrite Hsh, openShape_lookup_new. simpl. apply Nat.eqb_refl.
Qed.

Lemma leave_stays k r :
  cursorBelow (shapes r) (scope r) k -> leave k r = r.
Proof.
  intros [_ H]. unfold leave.
  destruct (getScope_shapes r (scope r)) as (-> & -> & _).
  destruct H as [H|H]; [|now rewrite H].
  destruct (parent _); [|reflexivity].
  assert (Nat.eqb k (node (scopeAt (shapes r) (scope r))) = false) as ->
    by (apply Nat.eqb_neq; lia).
  reflexivity.
Qed.

Lemma cursorStep_leave_stays G k n c :
  cursorBelow G c k -> cursorStep G (Leave k n) c = Some c.
Proof.
  intros [_ H]. simpl. fold (scopeAt G c).
  destruct H as [H|H]; [|now rewrite H].
  destruct (parent _); [|reflexivity].
  assert (Nat.eqb k (node (scopeAt G c)) = false) as ->
    by (apply Nat.eqb_neq; lia).
  reflexivity.
Qed.

Lemma leave_pops k r c :
  node (scopeAt (shapes r) (scope r)) = k ->
  parent (scopeAt (shapes r) (scope r)) = Some c ->
  leave k r = setScope c r.
Proof.
  intros Hn Hp. unfold leave.
  destruct (getScope_shapes r (scope r)) as (-> & -> & _).
  now rewrite Hp, Hn, Nat.eqb_refl.
Qed.

Lemma cursorStep_leave_pops G k n s c :
  node (scopeAt G s) = k -> parent (scopeAt G s) = Some c ->
  cursorStep G (Leave k n) s = Some c.
Proof.
  intros Hn Hp. simpl. fold (scopeAt G s). now rewrite Hp, Hn, Nat.eqb_refl.
Qed.

Lemma walkOk_nil k : walkOk [] k k.
Proof.
  intros r r' Hc Hb H. injection H as <-.
  split; [reflexivity|]. split; [exact Hb|]. split; [apply extends_refl|].
  intros G _. reflexivity.
Qed.

Lemma walkOk_app es1 es2 k1 k2 k3 :
  k1 <= k2 -> walkOk es1 k1 k2 -> walkOk es2 k2 k3 -> walkOk (es1 ++ es2) k1 k3.
Proof.
  intros Hk W1 W2 r r' Hc Hb H. rewrite run_app in H.
  destruct (run declStep es1 r) as [r1|] eqn:E1; [|discriminate]. simpl in H.
  destruct (W1 r r1 Hc Hb E1) as (S1 & B1 & X1 & C1).
  assert (Hc1 : cursorBelow (shapes r1) (scope r1) k2).
  { rewrite S1. eapply cursorBelow_mono; [exact Hk|exact X1|exact Hc]. }
  destruct (W2 r1 r' Hc1 B1 H) as (S2 & B2 & X2 & C2).
  split; [congruence|]. split; [exact B2|].
  split; [eapply extends_trans; eassumption|].
  intros G HG. rewrite cursorRun_app.
  rewrite C1 by (eapply extends_trans; eassumption).
  rewrite <- S1. now apply C2.
Qed.

Lemma walkOk_list l :
  Forall (fun n => forall k, walkOk (events k n) k (k + size n)) l ->
  forall k, walkOk (eventsList k l) k (k + sizes l).
Proof.
  induction 1 as [|c l Hc Hl IH]; intros k; simpl.
  - rewrite Nat.add_0_r. apply walkOk_nil.
  - eapply walkOk_app; [|apply Hc|]; [lia|].
    rewrite Nat.add_assoc. apply IH.
Qed.

Lemma walkOk_node n : forall k, walkOk (events k n) k (k + size n).
Proof.
  induction n as [n IH] using Node_childNodes_ind. intros k.
  pose proof (walkOk_list _ IH (S k)) as Wl.
  rewrite events_childNodes, size_childNodes.
  replace (k + S (sizes (childNodes n))) with (S k + sizes (childNodes n)) by lia.
  set (es := eventsList (S k) (childNodes n)) in *.
  set (k' := S k + sizes (childNodes n)) in *.
  intros r r' Hc Hb H.
  change (Enter k n :: es ++ [Leave k n]) with ([Enter k n] ++ es ++ [Leave k n]) in *.
  rewrite run_app in H. simpl in H.
  destruct (declEnter k n r) as [r1|] eqn:E1; [|discriminate]. simpl in H.
  rewrite run_app in H.
  destruct (run declStep es r1) as [r2|] eqn:E2; [|discriminate]. simpl in H.
  injection H as <-.
  destruct (isScopeNode n) eqn:Hn.
  - (* the node opens a scope *)
    destruct (declEnter_opens k n r r1 Hn E1) as (ty & Ho).
    pose proof Ho as (Hs & Hsh & _).
    assert (Hc' : scope r < length (shapes r)) by apply Hc.
    assert (X1 : extends (shapes r) (shapes r1))
      by (rewrite Hsh; apply extends_openShape).
    assert (Hnew : shapes r1 !! scope r1
                   = Some (mkScope k ty (Some (scope r)) [] [])).
    { rewrite Hs, Hsh, <- length_shapes. apply openShape_lookup_new. }
    assert (Hc1 : cursorBelow (shapes r1) (scope r1) (S k)).
    { split; [eapply lookup_lt_Some; exact Hnew|].
      left. unfold scopeAt. rewrite Hnew. simpl. lia. }
    assert (Hb1 : childrenBelow (shapes r1) (S k))
      by (rewrite Hsh; now apply childrenBelow_openShape).
    destruct (Wl r1 r2 Hc1 Hb1 E2) as (S2 & B2 & X2 & C2).
    assert (Hl1 : scope r1 < length (shapes r1)) by apply Hc1.
    destruct (extends_scopeAt _ _ _ X2 Hl1) as (N2 & P2 & _).
    unfold scopeAt at 2 in N2. unfold scopeAt at 2 in P2.
    rewrite Hnew in N2, P2. simpl in N2, P2.
    rewrite (leave_pops k r2 (scope r)) by (rewrite S2; assumption).
    split; [reflexivity|]. split; [exact B2|].
    split; [eapply extends_trans; eassumption|].
    intros G HG. simpl in HG. change (shapes (setScope (scope r) r2))
      with (shapes r2) in HG.
    assert (HG1 : extends (shapes r1) G) by (eapply extends_trans; eassumption).
    rewrite cursorRun_app. cbn [cursorRun].
    rewrite (cursorStep_enter_opened k ty n r r1 G Hn Hc Hb Ho HG1).
    rewrite cursorRun_app, C2 by exact HG. cbn [cursorRun].
    destruct (extends_scopeAt _ _ _ HG1 Hl1) as (N3 & P3 & _).
    unfold scopeAt at 2 in N3. unfold scopeAt at 2 in P3.
    rewrite Hnew in N3, P3. simpl in N3, P3.
    now rewrite (cursorStep_leave_pops G k n (scope r1) (scope r)).
  - (* the node opens no scope *)
    destruct (declEnter_keeps k n r r1 Hn E1) as (Hs & Hsh & _).
    assert (Hc1 : cursorBelow (shapes r1) (scope r1) (S k)).
    { rewrite Hs, Hsh. eapply cursorBelow_mono; [|apply extends_refl|exact Hc]. lia. }
    assert (Hb1 : childrenBelow (shapes r1) (S k)).
    { rewrite Hsh. eapply childrenBelow_mono; [|exact Hb]. lia. }
    destruct (Wl r1 r2 Hc1 Hb1 E2) as (S2 & B2 & X2 & C2).
    rewrite Hsh in X2.
    assert (Hc2 : cursorBelow (shapes r2) (scope r2) k).
    { rewrite S2, Hs. eapply cursorBelow_mono; [|exact X2|exact Hc]. lia. }
    rewrite (leave_stays k r2 Hc2).
    split; [congruence|]. split; [exact B2|]. split; [exact X2|].
    intros G HG. rewrite cursorRun_app.
    assert (cursorRun G [Enter k n] (scope r) = Some (scope r)) as ->
      by (simpl; now rewrite Hn).
    rewrite cursorRun_app. rewrite <- Hs, C2 by exact HG. cbn [cursorRun].
    rewrite Hs. rewrite cursorStep_leave_stays; [reflexivity|].
    eapply cursorBelow_mono; [|eapply extends_trans; [exact X2|exact HG]|exact Hc].
    lia.
Qed.

(** ** The second walk finds every scope *)

Lemma find_ext_fun {A} (p q : A -> bool) l :
  (forall x, p x = q x) -> List.find p l = List.find q l.
Proof.
  intros H. induction l as [|x l IH]; simpl; [reflexivity|].
  now rewrite H, IH.
Qed.

Lemma refStep_cursorStep e r c' :
  cursorStep (shapes r) e (scope r) = Some c' ->
  exists r', refStep e r = Ok r' /\ shapes r' = shapes r /\ scope r' = c'.
Proof.
  destruct e as [k n|k n]; simpl.
  - destruct (isScopeNode n) eqn:Hn.
    + intros H. unfold refEnter. rewrite Hn.
      assert (findChild r k = Some c') as ->.
      { unfold findChild. rewrite <- H.
        destruct (getScope_shapes r (scope r)) as (_ & _ & ->).
        apply find_ext_fun. intros x.
        now destruct (getScope_shapes r x) as (-> & _). }
      eexists. repeat split.
    + intros [= <-]. destruct (refEnter_keeps k n r Hn) as (r' & E & S1 & S2 & _).
      exists r'. auto.
  - intros H. eexists. split; [reflexivity|].
    destruct (leave_frame k r) as (Hsh & _). split; [exact Hsh|].
    unfold leave. fold (scopeAt (shapes r) (scope r)) in H.
    destruct (getScope_shapes r (scope r)) as (-> & -> & _).
    destruct (parent _); [destruct (Nat.eqb _ _)|]; now injection H as <-.
Qed.

Lemma refRun_cursorRun es r c' :
  cursorRun (shapes r) es (scope r) = Some c' ->
  exists r', run refStep es r = Ok r' /\ shapes r' = shapes r /\ scope r' = c'.
Proof.
  revert r. induction es as [|e es IH]; intros r; simpl.
  - intros [= <-]. exists r. auto.
  - destruct (cursorStep (shapes r) e (scope r)) as [c1|] eqn:E; [|discriminate].
    intros H. destruct (refStep_cursorStep e r c1 E) as (r1 & E1 & S1 & C1).
    rewrite E1. simpl.
    destruct (IH r1) as (r' & E' & S' & C'); [now rewrite S1, C1|].
    exists r'. split; [exact E'|]. split; congruence.
Qed.

Lemma refStep_scopes e r r' : refStep e r = Ok r' -> scopes r' = scopes r.
Proof.
  destruct e as [k n|k n]; simpl.
  - unfold refEnter. destruct (isScopeNode n).
    + destruct (findChild r k); [|discriminate]. now intros [= <-].
    + case_node n; try (now intros [= <-]).
      destruct (lookupVariable _ _ _); [now intros [= <-]|].
      unfold new_Variable, addName. destruct (shouldRename nm); now intros [= <-].
  - intros [= <-]. now destruct (leave_frame k r) as (_ & _ & _ & ->).
Qed.

Lemma refRun_scopes es r r' : run refStep es r = Ok r' -> scopes r' = scopes r.
Proof.
  revert r. induction es as [|e es IH]; intros r; simpl.
  - now intros [= <-].
  - destruct (refStep e r) as [r1|] eqn:E; [|discriminate]. simpl.
    intros H. apply IH in H. apply refStep_scopes in E. congruence.
Qed.

Lemma walk_from_root ast r r1 :
  scopes r = [mkScope 0 Global None [] []] ->
  collectDeclarations ast r = Ok r1 ->
  scope r1 = globalScope
  /\ cursorRun (shapes r1) (events 0 ast) globalScope = Some globalScope.
Proof.
  intros Hr H. unfold collectDeclarations in H.
  assert (Hsh : shapes (setScope globalScope r) = [mkScope 0 Global None [] []])
    by (unfold shapes; simpl; now rewrite Hr).
  destruct (walkOk_node ast 0 (setScope globalScope r) r1) as (S1 & _ & _ & C1).
  - rewrite Hsh. split; [unfold globalScope; simpl; lia|]. now right.
  - rewrite Hsh. intros [|s] x c Hx Hc; [|discriminate].
    injection Hx as <-. now apply elem_of_nil in Hc.
  - exact H.
  - split; [exact S1|]. apply C1, extends_refl.
Qed.

Lemma collectReferences_total ast r r1 :
  scopes r = [mkScope 0 Global None [] []] ->
  collectDeclarations ast r = Ok r1 ->
  exists r2, collectReferences ast r1 = Ok r2
             /\ scopes r2 = scopes r1 /\ scope r2 = globalScope.
Proof.
  intros Hr H.
  destruct (walk_from_root ast r r1 Hr H) as (S1 & C1).
  unfold collectReferences.
  destruct (refRun_cursorRun (events 0 ast) (setScope globalScope r1) globalScope)
    as (r2 & E2 & Hsh & Hc); [exact C1|].
  exists r2. split; [exact E2|]. split; [|exact Hc].
  now apply refRun_scopes in E2.
Qed.

(** C8: when declaration collection has completed on a tree, the
    reference-resolution walk over the same tree completes: at every
    scope-creating node it finds the child scope built for that node, so it
    never raises ScopeAssociationFailure (nor anything else), and it returns
    the cursor to the Global scope. *)
Theorem collectReferences_finds_every_scope ast r1 :
  collectDeclarations ast new_VariableRenamer = Ok r1 ->
  exists r2, collectReferences ast r1 = Ok r2
             /\ scopes r2 = scopes r1 /\ scope r2 = globalScope.
Proof. apply collectReferences_total. reflexivity. Qed.

Lemma collectReferences_finds_every_scope_witness :
  let ast := Script
    [FunctionDeclaration "f" [BindingIdentifier "p"]
       [BlockStatement [OtherNode [IdentifierExpression "p"]];
        OtherNode [OtherNode [];
                   CatchClause (Some (BindingIdentifier "e"))
                     [ForStatement [OtherNode [ArrowExpression [] []]]]]]] in
  let r1 := match collectDeclarations ast new_VariableRenamer with
            | Ok r => r | Err _ => new_VariableRenamer end in
  collectDeclarations ast new_VariableRenamer = Ok r1
  /\ length (scopes r1) = 6
  /\ exists r2, collectReferences ast r1 = Ok r2 /\ scope r2 = globalScope.
Proof.
  intros ast r1.
  assert (H1 : collectDeclarations ast new_VariableRenamer = Ok r1)
    by (vm_compute; reflexivity).
  split; [exact H1|]. split; [vm_compute; reflexivity|].
  destruct (collectReferences_finds_every_scope ast r1 H1) as (r2 & E & _ & C).
  exists r2. split; assumption.
Defined.

(** ** Name generation: the issued names *)

Lemma StronglySorted_filter_shortlex (f : string -> bool) l :
  StronglySorted shortlex l -> StronglySorted shortlex (List.filter f l).
Proof.
  induction 1 as [|a l Hl IH Ha]; simpl; [constructor|].
  destruct (f a); [|exact IH].
  constructor; [exact IH|].
  apply List.Forall_forall. intros x Hx. apply List.filter_In in Hx as [Hx _].
  rewrite List.Forall_forall in Ha. now apply Ha.
Qed.


Lemma StronglySorted_shortlex_NoDup l :
  StronglySorted shortlex l -> NoDup l.
Proof.
  induction 1 as [|a l Hl IH Ha]; constructor; [|exact IH].
  intros Hin. rewrite Forall_forall in Ha.
  exact (shortlex_irrefl a (Ha a Hin)).
Qed.




Lemma generateNames_unused r x :
  x ∈ variableNames (generateNames r) -> x ∉ usedVariableNames r.
Proof.
  unfold generateNames, setNames; cbn [variableNames].
  intros H. apply list_elem_of_In, List.filter_In in H as [_ H].
  unfold unused in H. apply negb_true_iff, bool_decide_eq_false in H. exact H.
Qed.





(** ** Frame lemmas: the heap and the tables *)

Lemma heapGrows_refl r : heapGrows r r.
Proof. intros v x H. exists x. repeat split; auto. Qed.

Lemma heapGrows_trans r1 r2 r3 :
  heapGrows r1 r2 -> heapGrows r2 r3 -> heapGrows r1 r3.
Proof.
  intros A B v x Hx. destruct (A v x Hx) as (y & Hy & ? & ? & ? & ?).
  destruct (B v y Hy) as (z & Hz & ? & ? & ? & ?).
  exists z. repeat split; try congruence; etrans; eassumption.
Qed.

Lemma heapGrows_same r r' : heap r' = heap r -> heapGrows r r'.
Proof. intros E v x H. exists x. rewrite E. repeat split; auto. Qed.

Lemma heapGrows_append x r : heapGrows r (setHeap (fun h => h ++ [x]) r).
Proof.
  intros v y H. exists y. simpl. split; [now apply lookup_app_l_Some|].
  repeat split; auto.
Qed.

Lemma heapGrows_alter (f : Variable_ -> Variable_) (e : nat) r :
  (forall x, name (f x) = name x /\ kind (f x) = kind x
             /\ declarations x `prefix_of` declarations (f x)
             /\ references x `prefix_of` references (f x)) ->
  heapGrows r (setHeap (alter f e) r).
Proof.
  intros Hf v x H. simpl. destruct (decide (e = v)) as [->|Hne].
  - exists (f x). rewrite list_lookup_alter_eq, H. split; [reflexivity|apply Hf].
  - exists x. rewrite list_lookup_alter_ne by exact Hne.
    repeat split; auto.
Qed.

Lemma heapGrows_pushDeclaration v site r : heapGrows r (pushDeclaration v site r).
Proof.
  apply heapGrows_alter. intros x. simpl. repeat split; auto.
  now apply prefix_app_r.
Qed.

Lemma heapGrows_pushReference v site r : heapGrows r (pushReference v site r).
Proof.
  apply heapGrows_alter. intros x. simpl. repeat split; auto.
  now apply prefix_app_r.
Qed.

Lemma heap_addName nm r : heap (addName nm r) = heap r.
Proof. unfold addName. now destruct (shouldRename nm). Qed.

Lemma scopes_addName nm r : scopes (addName nm r) = scopes r.
Proof. unfold addName. now destruct (shouldRename nm). Qed.

Lemma scope_addName nm r : scope (addName nm r) = scope r.
Proof. unfold addName. now destruct (shouldRename nm). Qed.

Lemma heapGrows_addVariable s v r r' :
  addVariable s v r = Ok r' -> heapGrows r r'.
Proof.
  unfold addVariable. destruct (tableGet _ _).
  - destruct (_ || _); [discriminate|]. intros [= <-].
    apply heapGrows_alter. intros x. simpl. repeat split; auto.
    now apply prefix_app_r.
  - intros [= <-]. now apply heapGrows_same.
Qed.

Lemma heapGrows_declare s nm k site r r' :
  declare s nm k site r = Ok r' -> heapGrows r r'.
Proof.
  unfold declare, new_Variable. intros H.
  destruct (addVariable _ _ _) as [r3|] eqn:E; [|discriminate].
  injection H as <-. apply heapGrows_addVariable in E.
  eapply heapGrows_trans; [|apply heapGrows_same, heap_addName].
  eapply heapGrows_trans; [|exact E].
  eapply heapGrows_trans; [apply heapGrows_append|].
  apply heapGrows_pushDeclaration.
Qed.

Lemma heapGrows_declareParams id ps r r' :
  declareParams id ps r = Ok r' -> heapGrows r r'.
Proof.
  revert id r. induction ps as [|p ps IH]; intros id r H; simpl in H.
  - injection H as <-. apply heapGrows_refl.
  - case_node p; simpl in H; try (now apply IH in H).
    destruct (declare _ _ _ _ _) as [r1|] eqn:E; [|discriminate].
    simpl in H. apply heapGrows_declare in E. apply IH in H.
    eapply heapGrows_trans; eassumption.
Qed.


Lemma getScope_alter_ne (f : Scope -> Scope) s c r :
  s <> c -> getScope (setScopes (alter f s) r) c = getScope r c.
Proof.
  intros H. unfold getScope. simpl. now rewrite list_lookup_alter_ne.
Qed.

Lemma table_addVariable s v c r r' :
  addVariable s v r = Ok r' -> s <> c ->
  variables (getScope r' c) = variables (getScope r c).
Proof.
  unfold addVariable. destruct (tableGet _ _).
  - destruct (_ || _); [discriminate|]. now intros [= <-].
  - intros [= <-] Hne. now rewrite getScope_alter_ne.
Qed.

Lemma table_declare s nm k site c r r' :
  declare s nm k site r = Ok r' -> s <> c ->
  variables (getScope r' c) = variables (getScope r c).
Proof.
  unfold declare, new_Variable. intros H Hne.
  destruct (addVariable _ _ _) as [r3|] eqn:E; [|discriminate].
  injection H as <-. apply (table_addVariable _ _ c) in E; [|exact Hne].
  unfold getScope in *. now rewrite scopes_addName.
Qed.

Lemma table_declareParams id ps c r r' :
  declareParams id ps r = Ok r' -> scope r <> c ->
  variables (getScope r' c) = variables (getScope r c).
Proof.
  revert id r. induction ps as [|p ps IH]; intros id r H Hne; simpl in H.
  - now injection H as <-.
  - assert (exists r1, declareParams (id + size p) ps r1 = Ok r'
              /\ scope r1 = scope r
              /\ variables (getScope r1 c) = variables (getScope r c))
      as (r1 & H1 & S1 & T1).
    { case_node p; simpl in H;
        try (exists r; split; [exact H|split; reflexivity]).
      destruct (declare _ _ _ _ _) as [r1|] eqn:E; [|discriminate].
      exists r1. split; [exact H|].
      split; [apply (keeps_declare _ _ _ _ _ _ E)|].
      eapply table_declare; eassumption. }
    rewrite <- T1. eapply IH; [exact H1|congruence].
Qed.

Lemma table_new_Scope k ty c r :
  c < length (scopes r) ->
  variables (getScope (snd (new_Scope k ty (scope r) r)) c)
  = variables (getScope r c).
Proof.
  intros Hc. unfold getScope. simpl.
  rewrite lookup_app_l by now rewrite length_alter.
  destruct (decide (scope r = c)) as [->|Hne].
  - rewrite list_lookup_alter_eq. now destruct (scopes r !! c).
  - now rewrite list_lookup_alter_ne.
Qed.

Lemma table_enterFunction k n r r' :
  enterFunction k n r = Ok r' -> scope r < length (scopes r) ->
  variables (getScope r' (scope r)) = variables (getScope r (scope r)).
Proof.
  intros H Hc. unfold enterFunction in H.
  pose proof (table_new_Scope k Function (scope r) r Hc) as T1.
  destruct (new_Scope k Function (scope r) r) as [s r1] eqn:En.
  assert (Hs : s = length (scopes r)) by (unfold new_Scope in En; congruence).
  simpl in T1. set (c := scope r) in *.
  set (r2 := setScope s r1) in *.
  assert (T2 : variables (getScope r2 c) = variables (getScope r c)) by exact T1.
  assert (Hne : s <> c) by lia.
  match type of H with context [bind ?m _] => destruct m as [r3|] eqn:E3 end;
    [|discriminate].
  assert (T3 : variables (getScope r3 c) = variables (getScope r2 c)
               /\ scope r3 = s).
  { case_node n; try (injection E3 as <-; split; reflexivity).
    destruct nm; [|injection E3 as <-; split; reflexivity].
    split; [eapply table_declare; eassumption|].
    apply (keeps_declare _ _ _ _ _ _ E3). }
  destruct T3 as [T3 S3]. simpl in H.
  match type of H with context [bind ?m _] => destruct m as [r4|] eqn:E4 end;
    [|discriminate].
  assert (T4 : variables (getScope r4 c) = variables (getScope r3 c)
               /\ scope r4 = s).
  { case_node n; try (injection E4 as <-; split; [reflexivity|exact S3]);
      try (split; [eapply table_declareParams; [exact E4|congruence]
                  |rewrite <- S3; apply (keeps_declareParams _ _ _ _ E4)]).
    destruct nm;
      (split; [eapply table_declareParams; [exact E4|congruence]
              |rewrite <- S3; apply (keeps_declareParams _ _ _ _ E4)]). }
  destruct T4 as [T4 S4]. simpl in H.
  assert (T5 : variables (getScope r' c) = variables (getScope r4 c)).
  { case_node n; try (unfold new_Variable in H;
      apply (table_addVariable _ _ c) in H; [exact H|simpl; congruence]).
    now injection H as <-. }
  congruence.
Qed.

Lemma tableGet_tableSet nm v t :
  tableGet nm t = None -> tableGet nm (tableSet nm v t) = Some v.
Proof.
  induction t as [|[k w] t IH]; simpl.
  - now rewrite String.eqb_refl.
  - destruct (String.eqb k nm) eqn:E; [discriminate|]. simpl. now rewrite E.
Qed.

Lemma declare_binds c nm site r r1 :
  declare c nm var site r = Ok r1 -> c < length (scopes r) ->
  (forall v, tableGet nm (variables (getScope r c)) = Some v ->
             v < length (heap r)) ->
  exists v x, tableGet nm (variables (getScope r1 c)) = Some v
              /\ heap r1 !! v = Some x /\ kind x = var
              /\ site ∈ declarations x.
Proof.
  unfold declare, new_Variable. intros H Hc Hv.
  set (n := length (heap r)) in *.
  set (r2 := pushDeclaration n site
               (setHeap (fun h => h ++ [mkVariable nm var [] []]) r)) in *.
  assert (Hnew : heap r2 !! n = Some (mkVariable nm var [site] [])).
  { unfold r2, pushDeclaration. simpl. rewrite list_lookup_alter_eq.
    rewrite lookup_app_r by (unfold n; lia).
    unfold n. now rewrite Nat.sub_diag. }
  assert (Hold : forall e, e < n -> heap r2 !! e = heap r !! e).
  { intros e He. unfold r2, pushDeclaration. simpl.
    rewrite list_lookup_alter_ne by lia. now apply lookup_app_l. }
  assert (Hsc : scopes r2 = scopes r) by reflexivity.
  clearbody r2.
  assert (Hgn : getVariable r2 n = mkVariable nm var [site] [])
    by (unfold getVariable; now rewrite Hnew).
  assert (Hgs : getScope r2 c = getScope r c)
    by (unfold getScope; now rewrite Hsc).
  destruct (addVariable c n r2) as [r3|] eqn:E; [|discriminate].
  injection H as <-.
  unfold getScope. rewrite scopes_addName, heap_addName.
  unfold addVariable in E. rewrite Hgn, Hgs in E.
  cbn [name declarations] in E.
  change (isBlockScoped (mkVariable nm var [site] [])) with false in E.
  destruct (tableGet nm (variables (getScope r c))) as [e|] eqn:Et.
  - destruct (isBlockScoped (getVariable r2 e) || false) eqn:Eb; [discriminate|].
    injection E as <-. cbn [scopes heap setHeap].
    pose proof (Hv e eq_refl) as He.
    destruct (lookup_lt_is_Some_2 (heap r) e He) as [x Hx].
    unfold getVariable in Eb. rewrite (Hold e He), Hx in Eb. simpl in Eb.
    rewrite Hsc. fold (getScope r c). rewrite Et.
    eexists e, _. split; [reflexivity|].
    rewrite list_lookup_alter_eq, (Hold e He), Hx. simpl.
    split; [reflexivity|]. simpl.
    split; [|apply elem_of_app; right; constructor].
    unfold isBlockScoped in Eb. rewrite orb_false_r in Eb.
    now destruct (kind x).
  - injection E as <-. cbn [scopes heap setScopes].
    destruct (lookup_lt_is_Some_2 (scopes r) c Hc) as [y Hy].
    rewrite Hsc, list_lookup_alter_eq, Hy. simpl.
    exists n, (mkVariable nm var [site] []).
    split; [|split; [exact Hnew|split; [reflexivity|constructor]]].
    apply tableGet_tableSet. unfold getScope in Et. now rewrite Hy in Et.
Qed.




(** ** Running the pass twice *)

Lemma generated_names_not_eligible r nm :
  nm ∈ variableNames (generateNames r) -> shouldRename nm = false.
Proof.
  unfold generateNames, setNames; cbn [variableNames]. intros H.
  apply list_elem_of_In, List.filter_In in H as [H _].
  assert (Hall : forallb (fun x => negb (shouldRename x)) candidates = true)
    by (vm_compute; reflexivity).
  rewrite forallb_forall in Hall. apply Hall in H.
  now apply negb_true_iff in H.
Qed.


(** ** The order of the renaming walk *)

Lemma run_bind_inv step es1 es2 r r' :
  run step (es1 ++ es2) r = Ok r' ->
  exists r1, run step es1 r = Ok r1 /\ run step es2 r1 = Ok r'.
Proof.
  rewrite run_app. destruct (run step es1 r) as [r1|]; [|discriminate].
  simpl. eauto.
Qed.

Lemma orderOk_nil k : orderOk [] k.
Proof.
  intros r r' _ _ [= <-]. simpl. split; [lia|]. split; [auto|].
  exists []. split; [now rewrite app_nil_r|].
  intros G fuel _ _. now rewrite Nat.sub_diag.
Qed.

Lemma orderOk_app es1 es2 k1 k2 :
  k1 <= k2 -> walkOk es1 k1 k2 -> orderOk es1 k1 -> orderOk es2 k2 ->
  orderOk (es1 ++ es2) k1.
Proof.
  intros Hk W1 O1 O2 r r' Hc Hb H.
  destruct (run_bind_inv _ _ _ _ _ H) as (r1 & E1 & E2).
  destruct (W1 r r1 Hc Hb E1) as (S1 & B1 & X1 & _).
  assert (Hc1 : cursorBelow (shapes r1) (scope r1) k2).
  { rewrite S1. eapply cursorBelow_mono; [exact Hk|exact X1|exact Hc]. }
  destruct (O1 r r1 Hc Hb E1) as (L1 & Fr1 & kids1 & C1 & D1).
  destruct (O2 r1 r' Hc1 B1 E2) as (L2 & Fr2 & kids2 & C2 & D2).
  rewrite S1 in *. cbv zeta.
  set (F := shapes r) in *. set (F1 := shapes r1) in *.
  set (F2 := shapes r') in *. set (c := scope r) in *.
  assert (HcF : c < length F) by apply Hc.
  split; [lia|]. split.
  - intros s Hs Hne. rewrite Fr2 by lia. now apply Fr1.
  - exists (kids1 ++ kids2). split; [rewrite C2, C1; now rewrite app_assoc|].
    intros G fuel HG Hf. rewrite flat_map_app.
    rewrite D1, D2.
    + replace (seq (length F1) (length F2 - length F1))
        with (seq (length F + (length F1 - length F)) (length F2 - length F1))
        by (f_equal; lia).
      rewrite <- seq_app. f_equal. lia.
    + intros s Hs. apply HG. lia.
    + lia.
    + intros s Hs. rewrite HG by lia. apply Fr2; lia.
    + lia.
Qed.

Lemma orderOk_list l :
  Forall (fun n => forall k, orderOk (events k n) k) l ->
  forall k, orderOk (eventsList k l) k.
Proof.
  induction 1 as [|c l Hc Hl IH]; intros k; simpl.
  - apply orderOk_nil.
  - eapply (orderOk_app _ _ k (k + size c)); [lia|apply walkOk_node|apply Hc|apply IH].
Qed.

Lemma walkOk_eventsList l k : walkOk (eventsList k l) k (k + sizes l).
Proof.
  apply walkOk_list. apply Forall_forall. intros n _. apply walkOk_node.
Qed.

Lemma orderOk_node n : forall k, orderOk (events k n) k.
Proof.
  induction n as [n IH] using Node_childNodes_ind. intros k.
  pose proof (orderOk_list _ IH (S k)) as Ol.
  pose proof (walkOk_eventsList (childNodes n) (S k)) as Wl.
  rewrite events_childNodes.
  set (es := eventsList (S k) (childNodes n)) in *.
  intros r r' Hc Hb H.
  change (Enter k n :: es ++ [Leave k n]) with ([Enter k n] ++ es ++ [Leave k n]) in H.
  destruct (run_bind_inv _ _ _ _ _ H) as (r1 & E1 & H').
  destruct (run_bind_inv _ _ _ _ _ H') as (r2 & E2 & E3). clear H H'.
  simpl in E1. destruct (declEnter k n r) as [r1'|] eqn:E1'; [|discriminate].
  injection E1 as ->. simpl in E3. injection E3 as <-.
  destruct (leave_frame k r2) as (-> & _). cbv zeta.
  destruct (isScopeNode n) eqn:Hn.
  - destruct (declEnter_opens k n r r1 Hn E1') as (ty & Ho).
    pose proof Ho as (Hs & Hsh & _).
    set (F := shapes r) in *. set (c := scope r) in *.
    assert (HcF : c < length F) by apply Hc.
    assert (HL : scope r1 = length F) by (rewrite Hs; symmetry; apply length_shapes).
    assert (Hnew : shapes r1 !! length F = Some (mkScope k ty (Some c) [] []))
      by (rewrite Hsh; apply openShape_lookup_new).
    assert (Hlen1 : length (shapes r1) = S (length F))
      by (rewrite Hsh; apply openShape_length).
    assert (Hc1 : cursorBelow (shapes r1) (scope r1) (S k)).
    { rewrite HL. split; [lia|]. left. unfold scopeAt. rewrite Hnew. simpl. lia. }
    assert (Hb1 : childrenBelow (shapes r1) (S k))
      by (rewrite Hsh; now apply childrenBelow_openShape).
    destruct (Ol r1 r2 Hc1 Hb1 E2) as (L2 & Fr2 & kids & C2 & D2).
    rewrite HL, Hlen1 in *.
    assert (Hcc : shapes r2 !! c = Some (addChild (length F) (scopeAt F c))).
    { rewrite Fr2 by lia.
      destruct (lookup_lt_is_Some_2 F c HcF) as [x Hx].
      rewrite Hsh, (openShape_lookup_old _ _ _ _ _ _ Hx).
      unfold scopeAt. rewrite Hx. simpl.
      destruct (decide (c = c)); [reflexivity|congruence]. }
    split; [lia|]. split.
    + intros s Hs' Hne. rewrite Fr2 by lia.
      destruct (lookup_lt_is_Some_2 F s Hs') as [x Hx].
      rewrite Hsh, (openShape_lookup_old _ _ _ _ _ _ Hx).
      destruct (decide (s = c)); [congruence|now rewrite Hx].
    + exists [length F]. split; [unfold scopeAt at 1; now rewrite Hcc|].
      intros G fuel HG Hf. destruct fuel as [|fuel]; [lia|].
      simpl. rewrite app_nil_r.
      rewrite (HG (length F)) by lia. fold (scopeAt (shapes r2) (length F)).
      rewrite C2. unfold scopeAt at 1. rewrite Hnew. simpl.
      rewrite D2; [|intros s Hs'; apply HG; lia|lia].
      replace (length (shapes r2) - length F)
        with (S (length (shapes r2) - S (length F))) by lia.
      reflexivity.
  - destruct (declEnter_keeps k n r r1 Hn E1') as (Hs & Hsh & _).
    assert (Hc1 : cursorBelow (shapes r1) (scope r1) (S k)).
    { rewrite Hs, Hsh. eapply cursorBelow_mono; [|apply extends_refl|exact Hc]. lia. }
    assert (Hb1 : childrenBelow (shapes r1) (S k)).
    { rewrite Hsh. eapply childrenBelow_mono; [|exact Hb]. lia. }
    destruct (Ol r1 r2 Hc1 Hb1 E2) as (L2 & Fr2 & kids & C2 & D2).
    rewrite Hs, Hsh in *. split; [exact L2|]. split; [exact Fr2|].
    exists kids. split; [exact C2|exact D2].
Qed.

Lemma visitOrder_root ast r r1 :
  scopes r = [mkScope 0 Global None [] []] ->
  collectDeclarations ast r = Ok r1 ->
  visitOrder (length (scopes r1)) (shapes r1) globalScope
  = seq 0 (length (scopes r1)).
Proof.
  intros Hr H. unfold collectDeclarations in H.
  assert (Hsh : shapes (setScope globalScope r) = [mkScope 0 Global None [] []])
    by (unfold shapes; simpl; now rewrite Hr).
  destruct (orderOk_node ast 0 (setScope globalScope r) r1) as (L & _ & kids & C & D).
  - rewrite Hsh. split; [unfold globalScope; simpl; lia|]. now right.
  - rewrite Hsh. intros [|s] x c Hx Hc; [|discriminate].
    injection Hx as <-. now apply elem_of_nil in Hc.
  - exact H.
  - rewrite Hsh in *. unfold globalScope in *. cbn [scope setScope] in C.
    unfold scopeAt in C. cbn [length lookup list_lookup default from_option
      children app id] in L, C, D.
    rewrite <- length_shapes.
    destruct (length (shapes r1)) as [|m] eqn:Hm; [lia|].
    cbn [visitOrder]. rewrite C.
    rewrite D; [|intros s _; reflexivity|lia].
    replace (S m - 1) with m by lia. reflexivity.
Qed.

Lemma rename_scopes v nm r : scopes (rename v nm r) = scopes r.
Proof. reflexivity. Qed.

Lemma renameTable_scopes t r r' : renameTable t r = Ok r' -> scopes r' = scopes r.
Proof.
  revert r. induction t as [|[nm v] t IH]; intros r; simpl.
  - now intros [= <-].
  - destruct (shouldRename nm).
    + unfold getVariableName. destruct (variableNames r); [discriminate|].
      simpl. intros H. now apply IH in H.
    + simpl. apply IH.
Qed.

Lemma renameTable_app t1 t2 r :
  renameTable (t1 ++ t2) r = (let* r1 := renameTable t1 r in renameTable t2 r1).
Proof.
  revert r. induction t1 as [|[nm v] t1 IH]; intros r; simpl; [reflexivity|].
  destruct (shouldRename nm).
  - destruct (getVariableName r); simpl; [apply IH|reflexivity].
  - simpl. apply IH.
Qed.

Lemma entries_scopes r r' l : scopes r' = scopes r -> entries r' l = entries r l.
Proof. intros H. unfold entries, getScope. now rewrite H. Qed.

Lemma renameVariables_order fuel s r :
  renameVariables fuel s r
  = renameTable (entries r (visitOrder fuel (shapes r) s)) r.
Proof.
  revert s r. induction fuel as [|fuel IH]; intros s r; [reflexivity|].
  cbn [renameVariables visitOrder]. unfold entries at 1. cbn [flat_map].
  rewrite renameTable_app.
  destruct (renameTable (variables (getScope r s)) r) as [r1|] eqn:E1;
    [|reflexivity].
  cbn [bind]. pose proof (renameTable_scopes _ _ _ E1) as Hs.
  fold (scopeAt (shapes r) s).
  destruct (getScope_shapes r s) as (_ & _ & <-).
  replace (getScope r1 s) with (getScope r s) by (unfold getScope; now rewrite Hs).
  fold (entries r (flat_map (visitOrder fuel (shapes r)) (children (getScope r s)))).
  rewrite <- (entries_scopes r r1) by exact Hs.
  replace (shapes r) with (shapes r1) by (unfold shapes; now rewrite Hs).
  generalize (children (getScope r s)) as cs. clear E1 Hs r.
  intros cs. revert r1. induction cs as [|c cs IHc]; intros r1; [reflexivity|].
  cbn [flat_map]. unfold entries. rewrite flat_map_app.
  fold (entries r1 (visitOrder fuel (shapes r1) c)).
  rewrite renameTable_app, IH.
  destruct (renameTable (entries r1 (visitOrder fuel (shapes r1) c)) r1)
    as [r2|] eqn:E2; [|reflexivity].
  cbn [bind]. pose proof (renameTable_scopes _ _ _ E2) as Hs.
  rewrite IHc. unfold entries, getScope, shapes. now rewrite Hs.
Qed.

(** ** The renaming walk *)

Lemma renameTable_ok t r :
  length (eligible t) <= length (variableNames r) ->
  exists r', renameTable t r = Ok r'
             /\ variableNames r' = drop (length (eligible t)) (variableNames r).
Proof.
  revert r. induction t as [|[nm v] t IH]; intros r H; simpl in *.
  - exists r. split; [reflexivity|]. now rewrite drop_0.
  - destruct (shouldRename nm); simpl in *.
    + unfold getVariableName. destruct (variableNames r) as [|x l] eqn:E;
        simpl in H; [lia|]. simpl.
      destruct (IH (rename v x (setNames l r))) as (r' & E' & N'); [simpl; lia|].
      exists r'. split; [exact E'|exact N'].
    + apply IH. exact H.
Qed.

Lemma renameTable_exhausts t r :
  length (variableNames r) < length (eligible t) ->
  renameTable t r = Err NameExhaustion.
Proof.
  revert r. induction t as [|[nm v] t IH]; intros r H; simpl in *; [lia|].
  destruct (shouldRename nm); simpl in *.
  - unfold getVariableName. destruct (variableNames r) as [|x l] eqn:E;
      [reflexivity|]. simpl in *. apply IH. simpl. lia.
  - apply IH. exact H.
Qed.

Lemma renameVariables_all ast r1 r2 r3 :
  collectDeclarations ast new_VariableRenamer = Ok r1 ->
  scopes r2 = scopes r1 -> scopes r3 = scopes r2 ->
  renameVariables (length (scopes r3)) globalScope r3
  = renameTable (allEntries r3) r3.
Proof.
  intros H1 H2 H3. rewrite renameVariables_order. unfold allEntries.
  replace (shapes r3) with (shapes r1) by (unfold shapes; congruence).
  replace (length (scopes r3)) with (length (scopes r1)) by congruence.
  now rewrite (visitOrder_root ast new_VariableRenamer r1 eq_refl H1).
Qed.

Lemma execute_unfold ast r1 r2 :
  collectDeclarations ast new_VariableRenamer = Ok r1 ->
  collectReferences ast r1 = Ok r2 ->
  execute ast = renameTable (allEntries (generateNames r2)) (generateNames r2).
Proof.
  intros H1 H2. unfold execute. rewrite H1. cbn [bind]. rewrite H2. cbn [bind].
  destruct (collectReferences_total ast new_VariableRenamer r1 eq_refl H1) as (r2' & E & Hs & _).
  rewrite H2 in E. injection E as <-.
  now apply (renameVariables_all ast r1 r2).
Qed.

Lemma addVariable_error s v r e :
  addVariable s v r = Err e -> exists nm, e = DuplicateDeclaration nm.
Proof.
  unfold addVariable. destruct (tableGet _ _); [|discriminate].
  destruct (_ || _); [|discriminate]. intros [= <-]. eauto.
Qed.

Lemma declare_error s nm k site r e :
  declare s nm k site r = Err e -> exists x, e = DuplicateDeclaration x.
Proof.
  unfold declare, new_Variable.
  destruct (addVariable _ _ _) eqn:E; [discriminate|].
  intros [= <-]. eapply addVariable_error, E.
Qed.

Lemma declareParams_error id ps r e :
  declareParams id ps r = Err e -> exists x, e = DuplicateDeclaration x.
Proof.
  revert id r. induction ps as [|p ps IH]; intros id r; simpl; [discriminate|].
  case_node p; simpl; try apply IH.
  destruct (declare _ _ _ _ _) eqn:E; simpl; [apply IH|].
  intros [= <-]. eapply declare_error, E.
Qed.

Lemma declareDeclarators_error k id ds r e :
  declareDeclarators k id ds r = Err e -> exists x, e = DuplicateDeclaration x.
Proof.
  revert id r. induction ds as [|d ds IH]; intros id r; simpl; [discriminate|].
  case_node d; try discriminate. case_node bd; try discriminate.
  destruct (tableGet _ _).
  - destruct (_ || _); simpl; [intros [= <-]; eauto|apply IH].
  - unfold new_Variable. destruct (addVariable _ _ _) eqn:E; simpl; [apply IH|].
    intros [= <-]. eapply addVariable_error, E.
Qed.

Lemma enterFunction_error k n r e :
  enterFunction k n r = Err e -> exists x, e = DuplicateDeclaration x.
Proof.
  unfold enterFunction, new_Scope.
  match goal with |- context [setScope ?s ?r0] => generalize (setScope s r0) end.
  intros r2 H.
  match type of H with context [bind ?m _] => destruct m as [r3|] eqn:E3 end.
  - simpl in H.
    match type of H with context [bind ?m _] => destruct m as [r4|] eqn:E4 end.
    + simpl in H. case_node n; try discriminate;
        unfold new_Variable in H; eapply addVariable_error, H.
    + injection H as <-.
      case_node n; try discriminate; try (eapply declareParams_error, E4).
      destruct nm; eapply declareParams_error, E4.
  - injection H as <-. case_node n; try discriminate.
    destruct nm; [|discriminate]. eapply declare_error, E3.
Qed.

Lemma declStep_error ev r e :
  declStep ev r = Err e -> exists x, e = DuplicateDeclaration x.
Proof.
  destruct ev as [k n|k n]; simpl; [|discriminate].
  case_node n; simpl; try discriminate.
  - destruct (declare _ _ _ _ _) eqn:E; simpl.
    + apply enterFunction_error.
    + intros [= <-]. eapply declare_error, E.
  - apply enterFunction_error.
  - apply enterFunction_error.
  - destruct bd as [bd|]; [|discriminate]. case_node bd; try discriminate.
    destruct (declare _ _ _ _ _) eqn:E; simpl; [discriminate|].
    intros [= <-]. eapply declare_error, E.
  - apply declareDeclarators_error.
Qed.

Lemma collectDeclarations_error ast r e :
  collectDeclarations ast r = Err e -> exists x, e = DuplicateDeclaration x.
Proof.
  unfold collectDeclarations. generalize (setScope globalScope r).
  induction (events 0 ast) as [|ev es IH]; intros r0; simpl; [discriminate|].
  destruct (declStep ev r0) eqn:E; simpl; [apply IH|].
  intros [= <-]. eapply declStep_error, E.
Qed.


Lemma execute_outcome ast :
  (forall e, collectDeclarations ast new_VariableRenamer = Err e ->
     execute ast = Err e /\ exists nm, e = DuplicateDeclaration nm)
  /\ (forall r1, collectDeclarations ast new_VariableRenamer = Ok r1 ->
        exists r2, collectReferences ast r1 = Ok r2
          /\ (length (eligible (allEntries r2))
              <= length (variableNames (generateNames r2)) ->
              exists R, execute ast = Ok R)
          /\ (length (variableNames (generateNames r2))
              < length (eligible (allEntries r2)) ->
              execute ast = Err NameExhaustion)).
Proof.
  split.
  - intros e H. split; [unfold execute; now rewrite H|].
    eapply collectDeclarations_error, H.
  - intros r1 H1.
    destruct (collectReferences_total ast new_VariableRenamer r1 eq_refl H1)
      as (r2 & H2 & _).
    exists r2. split; [exact H2|].
    rewrite (execute_unfold ast r1 r2 H1 H2).
    change (allEntries (generateNames r2)) with (allEntries r2).
    split; intros Hn.
    + destruct (renameTable_ok (allEntries r2) (generateNames r2) Hn) as (R & E & _).
      eauto.
    + now apply renameTable_exhausts.
Qed.

(** ** Sites are recorded once *)

Lemma paramSites_range id ps x :
  x ∈ paramSites id ps -> id <= x < id + sizes ps.
Proof.
  revert id. induction ps as [|p ps IH]; intros id; simpl.
  - intros H. now apply elem_of_nil in H.
  - pose proof (size_childNodes p) as Hp. intros H.
    apply elem_of_app in H as [H|H].
    + destruct (isBindingIdentifier p); [|now apply elem_of_nil in H].
      apply list_elem_of_singleton in H. lia.
    + apply IH in H. lia.
Qed.

Lemma declaratorSites_range id ds x :
  x ∈ declaratorSites id ds -> id < x < id + sizes ds.
Proof.
  revert id. induction ds as [|d ds IH]; intros id; simpl.
  - intros H. now apply elem_of_nil in H.
  - case_node d; try (intros H; now apply elem_of_nil in H).
    case_node bd; try (intros H; now apply elem_of_nil in H).
    set (d := VariableDeclarator (BindingIdentifier nm) i).
    assert (Hd : 2 <= size d) by (unfold d; rewrite size_eq; simpl; lia).
    intros H. apply elem_of_cons in H as [->|H]; [lia|].
    apply IH in H. lia.
Qed.

Lemma declSites_range k n x : x ∈ declSites k n -> k < x < k + size n.
Proof.
  rewrite size_eq.
  case_node n; simpl; try (intros H; now apply elem_of_nil in H).
  - intros H. apply elem_of_cons in H as [->|H]; [lia|].
    apply paramSites_range in H. lia.
  - destruct nm; intros H.
    + apply elem_of_cons in H as [->|H]; [lia|].
      apply paramSites_range in H. lia.
    + apply paramSites_range in H. lia.
  - intros H. apply paramSites_range in H. lia.
  - destruct bd as [bd|]; [|intros H; now apply elem_of_nil in H].
    case_node bd; try (intros H; now apply elem_of_nil in H).
    intros H. apply list_elem_of_singleton in H. simpl. lia.
  - intros H. apply declaratorSites_range in H. lia.
Qed.

Lemma eventSites_range n : forall k x,
  x ∈ flat_map eventSites (events k n) -> k <= x < k + size n.
Proof.
  induction n as [n IH] using Node_childNodes_ind. intros k x.
  rewrite events_childNodes, size_childNodes. cbn [flat_map].
  rewrite flat_map_app. simpl. rewrite app_nil_r.
  intros H. apply elem_of_app in H as [H|H].
  - unfold eventSites in H. simpl in H. apply elem_of_app in H as [H|H].
    + apply declSites_range in H. rewrite size_childNodes in H. lia.
    + unfold refSites in H. case_node n; try (now apply elem_of_nil in H).
      apply list_elem_of_singleton in H. lia.
  - assert (S k <= x < S k + sizes (childNodes n)); [|lia].
    revert H. generalize (S k). induction IH as [|c l Hc Hl IHl]; intros j H.
    + now apply elem_of_nil in H.
    + simpl in H. rewrite flat_map_app in H. apply elem_of_app in H as [H|H].
      * apply Hc in H. simpl. lia.
      * apply IHl in H. simpl. pose proof (size_childNodes c). lia.
Qed.

Lemma eventsListSites_range l k x :
  x ∈ flat_map eventSites (eventsList k l) -> k <= x < k + sizes l.
Proof.
  revert k. induction l as [|c l IH]; intros k H; simpl in *.
  - now apply elem_of_nil in H.
  - rewrite flat_map_app in H. apply elem_of_app in H as [H|H].
    + apply eventSites_range in H. lia.
    + apply IH in H. pose proof (size_childNodes c). lia.
Qed.

Lemma paramSites_NoDup id ps : NoDup (paramSites id ps).
Proof.
  revert id. induction ps as [|p ps IH]; intros id; simpl; [constructor|].
  pose proof (size_childNodes p) as Hp.
  destruct (isBindingIdentifier p); simpl; [|apply IH].
  constructor; [|apply IH]. intros H. apply paramSites_range in H. lia.
Qed.

Lemma declaratorSites_NoDup id ds : NoDup (declaratorSites id ds).
Proof.
  revert id. induction ds as [|d ds IH]; intros id; simpl; [constructor|].
  case_node d; try constructor. case_node bd; try constructor; [|apply IH].
  intros H. apply declaratorSites_range in H.
  rewrite size_eq in H. simpl in H. lia.
Qed.

Lemma listSites_cons k c l :
  listSites k (c :: l) = nodeSites k c ++ listSites (k + size c) l.
Proof. unfold listSites, nodeSites. simpl. now rewrite flat_map_app. Qed.

Lemma listSites_app k l1 l2 :
  listSites k (l1 ++ l2) = listSites k l1 ++ listSites (k + sizes l1) l2.
Proof. unfold listSites. now rewrite eventsList_app, flat_map_app. Qed.

Lemma nodeSites_eq k n :
  nodeSites k n
  = declSites k n ++ refSites k n ++ listSites (S k) (childNodes n).
Proof.
  unfold nodeSites, listSites. rewrite events_childNodes. cbn [flat_map].
  rewrite flat_map_app. simpl. rewrite app_nil_r. unfold eventSites. simpl.
  now rewrite app_assoc.
Qed.

Lemma nodeSites_range k n x : x ∈ nodeSites k n -> k <= x < k + size n.
Proof. apply eventSites_range. Qed.

Lemma listSites_range k l x : x ∈ listSites k l -> k <= x < k + sizes l.
Proof. apply eventsListSites_range. Qed.

Lemma leafSites k nm : nodeSites k (BindingIdentifier nm) = [].
Proof. reflexivity. Qed.

Lemma paramSites_fresh id ps x :
  x ∈ paramSites id ps -> x ∉ listSites id ps.
Proof.
  revert id. induction ps as [|p ps IH]; intros id.
  - intros H. now apply elem_of_nil in H.
  - pose proof (size_childNodes p) as Hp. rewrite listSites_cons.
    cbn [paramSites]. intros H Hin. apply elem_of_app in H as [H|H].
    + destruct p; try (now apply elem_of_nil in H). simpl in H.
      apply list_elem_of_singleton in H. subst x.
      rewrite leafSites in Hin. simpl in Hin.
      apply listSites_range in Hin. simpl in Hin. lia.
    + apply elem_of_app in Hin as [Hin|Hin].
      * apply nodeSites_range in Hin. apply paramSites_range in H. lia.
      * exact (IH _ H Hin).
Qed.

Lemma declaratorSites_fresh id ds x :
  x ∈ declaratorSites id ds -> x ∉ listSites id ds.
Proof.
  revert id. induction ds as [|d ds IH]; intros id.
  - intros H. now apply elem_of_nil in H.
  - cbn [declaratorSites].
    case_node d; try (intros H; now apply elem_of_nil in H).
    case_node bd; try (intros H; now apply elem_of_nil in H).
    set (d := VariableDeclarator (BindingIdentifier nm) i).
    assert (Hd : size d = 2 + match i with Some c => size c | None => 0 end)
      by (unfold d; rewrite size_eq; reflexivity).
    rewrite listSites_cons. intros H Hin.
    apply elem_of_cons in H as [->|H].
    + apply elem_of_app in Hin as [Hin|Hin].
      * unfold d in Hin. rewrite nodeSites_eq in Hin.
        cbn [declSites refSites childNodes app] in Hin.
        rewrite listSites_cons, leafSites in Hin. cbn [app] in Hin.
        apply listSites_range in Hin. simpl in Hin. lia.
      * apply listSites_range in Hin. lia.
    + apply elem_of_app in Hin as [Hin|Hin].
      * apply nodeSites_range in Hin. apply declaratorSites_range in H. lia.
      * exact (IH _ H Hin).
Qed.

Lemma declSites_fresh k n x :
  x ∈ declSites k n -> x ∉ listSites (S k) (childNodes n).
Proof.
  case_node n; cbn [declSites childNodes];
    try (intros H; now apply elem_of_nil in H).
  - rewrite listSites_cons, leafSites, listSites_app. cbn [app size].
    intros H Hin. apply elem_of_cons in H as [->|H].
    + apply elem_of_app in Hin as [Hin|Hin]; apply listSites_range in Hin; lia.
    + replace (S k + 1) with (S (S k)) in Hin by lia.
      apply elem_of_app in Hin as [Hin|Hin].
      * exact (paramSites_fresh _ _ _ H Hin).
      * apply listSites_range in Hin. apply paramSites_range in H. lia.
  - destruct nm as [nm|]; cbn [opt_list fmap option_fmap option_map app].
    + rewrite listSites_cons, leafSites, listSites_app. cbn [app size].
      intros H Hin. apply elem_of_cons in H as [->|H].
      * apply elem_of_app in Hin as [Hin|Hin]; apply listSites_range in Hin; lia.
      * replace (S k + 1) with (S (S k)) in Hin by lia.
        apply elem_of_app in Hin as [Hin|Hin].
        -- exact (paramSites_fresh _ _ _ H Hin).
        -- apply listSites_range in Hin. apply paramSites_range in H. lia.
    + rewrite listSites_app.
      intros H Hin. apply elem_of_app in Hin as [Hin|Hin].
      * exact (paramSites_fresh _ _ _ H Hin).
      * apply listSites_range in Hin. apply paramSites_range in H. lia.
  - rewrite listSites_app.
    intros H Hin. apply elem_of_app in Hin as [Hin|Hin].
    + exact (paramSites_fresh _ _ _ H Hin).
    + apply listSites_range in Hin. apply paramSites_range in H. lia.
  - destruct bd as [bd|]; [|intros H; now apply elem_of_nil in H].
    case_node bd; try (intros H; now apply elem_of_nil in H).
    cbn [opt_list app]. rewrite listSites_cons, leafSites. cbn [app size].
    intros H Hin. apply list_elem_of_singleton in H. subst x.
    apply listSites_range in Hin. lia.
  - apply declaratorSites_fresh.
Qed.

Lemma listSites_NoDup l :
  Forall (fun n => forall k, NoDup (nodeSites k n)) l ->
  forall k, NoDup (listSites k l).
Proof.
  induction 1 as [|c l Hc Hl IH]; intros k.
  - constructor.
  - rewrite listSites_cons. apply NoDup_app. split; [apply Hc|].
    split; [|apply IH]. intros x Hx Hin.
    apply nodeSites_range in Hx. apply listSites_range in Hin. lia.
Qed.

Lemma declSites_NoDup k n : NoDup (declSites k n).
Proof.
  assert (Hp : forall ps, NoDup (S k :: paramSites (S (S k)) ps)).
  { intros ps. constructor; [|apply paramSites_NoDup].
    intros H. apply paramSites_range in H. lia. }
  case_node n; cbn [declSites]; try (now constructor); try apply Hp;
    try apply paramSites_NoDup; try apply declaratorSites_NoDup.
  - destruct nm; [apply Hp|apply paramSites_NoDup].
  - destruct bd as [bd|]; [|constructor].
    case_node bd; try constructor; [apply not_elem_of_nil|constructor].
Qed.

Lemma nodeSites_NoDup n : forall k, NoDup (nodeSites k n).
Proof.
  induction n as [n IH] using Node_childNodes_ind. intros k.
  rewrite nodeSites_eq. apply NoDup_app. split; [|split].
  - apply declSites_NoDup.
  - intros x Hx Hin. apply elem_of_app in Hin as [Hin|Hin].
    + case_node n; try (now apply elem_of_nil in Hin).
      now apply elem_of_nil in Hx.
    + exact (declSites_fresh _ _ _ Hx Hin).
  - apply NoDup_app. split; [|split].
    + case_node n; cbn [refSites]; try constructor;
        [apply not_elem_of_nil|constructor].
    + intros x Hx Hin. case_node n; try (now apply elem_of_nil in Hx).
      now apply elem_of_nil in Hin.
    + now apply listSites_NoDup.
Qed.

(** ** The invariant of the walks *)

Lemma WF_mono r S S' : WF r S -> S ⊆ S' -> WF r S'.
Proof.
  intros [] HS. constructor; auto. intros k v x Hk Hx. apply HS. eauto.
Qed.

(** Registered variables gain sites that are new. *)
Lemma WF_gain r r' S D :
  WF r S ->
  scopes r' = scopes r -> scope r' = scope r ->
  (forall k v y, (k, v) ∈ tableEntries r -> heap r !! v = Some y ->
     exists y', heap r' !! v = Some y' /\ name y' = name y
       /\ forall x, x ∈ varSites y' -> x ∈ varSites y \/ x ∈ D) ->
  (forall k1 v k2 w x, (k1, v) ∈ tableEntries r -> (k2, w) ∈ tableEntries r ->
     x ∈ D -> x ∈ sitesOf r' v -> x ∈ sitesOf r' w -> v = w) ->
  (forall x, x ∈ D -> x ∉ S) ->
  WF r' (D ++ S).
Proof.
  intros [Hn Hv Hd Hs Hk Hc Hp Hch] Es Ec Hh Hnew HD.
  assert (Et : tableEntries r' = tableEntries r)
    by (unfold tableEntries; now rewrite Es).
  assert (Hsite : forall k v x, (k, v) ∈ tableEntries r -> x ∈ sitesOf r' v ->
                    x ∈ sitesOf r v \/ x ∈ D).
  { intros k v x Hin Hx. destruct (Hv k v Hin) as (y & Hy & _).
    destruct (Hh k v y Hin Hy) as (y' & Hy' & _ & Hx').
    unfold sitesOf, getVariable in *. rewrite Hy' in Hx. rewrite Hy. simpl in *.
    now apply Hx'. }
  constructor; rewrite ?Et, ?Es, ?Ec; auto.
  - intros k v Hin. destruct (Hv k v Hin) as (y & Hy & Ny).
    destruct (Hh k v y Hin Hy) as (y' & Hy' & Ny' & _).
    exists y'. split; [exact Hy'|congruence].
  - intros k1 v k2 w x H1 H2 X1 X2.
    destruct (Hsite _ _ _ H1 X1) as [O1|N1];
      destruct (Hsite _ _ _ H2 X2) as [O2|N2].
    + exact (Hd _ _ _ _ _ H1 H2 O1 O2).
    + exfalso. exact (HD _ N2 (Hs _ _ _ H1 O1)).
    + exfalso. exact (HD _ N1 (Hs _ _ _ H2 O2)).
    + exact (Hnew _ _ _ _ _ H1 H2 N1 X1 X2).
  - intros k v x Hin Hx. apply elem_of_app.
    destruct (Hsite _ _ _ Hin Hx) as [O|N]; [right|now left].
    exact (Hs _ _ _ Hin O).
Qed.

(** Changes to variables that are in no table. *)
Lemma WF_ext r r' S :
  WF r S ->
  scopes r' = scopes r -> scope r' = scope r ->
  (forall k v, (k, v) ∈ tableEntries r -> heap r' !! v = heap r !! v) ->
  WF r' S.
Proof.
  intros W Es Ec Hh. apply (WF_mono r' ([] ++ S)); [|intros x Hx; exact Hx].
  apply (WF_gain r r' S []); auto.
  - intros k v y Hin Hy. exists y. rewrite (Hh k v Hin). auto.
  - intros k1 v k2 w x _ _ Hx. now apply elem_of_nil in Hx.
  - intros x Hx. now apply elem_of_nil in Hx.
Qed.

Lemma tableGet_None nm t : tableGet nm t = None <-> nm ∉ (fst <$> t).
Proof.
  induction t as [|[k w] t IH]; simpl.
  - split; [intros _; apply not_elem_of_nil|reflexivity].
  - destruct (String.eqb_spec k nm) as [->|Hne].
    + split; [discriminate|]. intros H. exfalso. apply H. constructor.
    + rewrite IH. simpl. rewrite not_elem_of_cons.
      split; [intros H; split; [congruence|exact H]|tauto].
Qed.

Lemma tableGet_Some_elem nm v t : tableGet nm t = Some v -> (nm, v) ∈ t.
Proof.
  induction t as [|[k w] t IH]; simpl; [discriminate|].
  destruct (String.eqb_spec k nm) as [->|Hne].
  - intros [= ->]. constructor.
  - intros H. right. now apply IH.
Qed.

Lemma tableGet_elem nm v t :
  NoDup (fst <$> t) -> (nm, v) ∈ t -> tableGet nm t = Some v.
Proof.
  induction t as [|[k w] t IH]; simpl; intros Hn Hin.
  - now apply elem_of_nil in Hin.
  - apply NoDup_cons in Hn as [Hk Hn].
    apply elem_of_cons in Hin as [[= -> ->]|Hin].
    + now rewrite String.eqb_refl.
    + destruct (String.eqb_spec k nm) as [->|Hne]; [|now apply IH].
      exfalso. apply Hk. apply list_elem_of_fmap. exists (nm, v). auto.
Qed.

Lemma tableSet_fresh nm v t :
  tableGet nm t = None -> tableSet nm v t = t ++ [(nm, v)].
Proof.
  induction t as [|[k w] t IH]; simpl; [reflexivity|].
  destruct (String.eqb k nm); [discriminate|]. intros H. now rewrite IH.
Qed.

Lemma tableEntries_alter (f : Scope -> Scope) (s : nat) r x ex :
  scopes r !! s = Some x -> variables (f x) = variables x ++ ex ->
  tableEntries (setScopes (alter f s) r) ≡ₚ ex ++ tableEntries r.
Proof.
  unfold tableEntries. simpl. generalize (scopes r). intros ss. revert s.
  induction ss as [|y ss IH]; intros [|s] Hx Hf; simpl in *; try discriminate.
  - injection Hx as ->. rewrite Hf. solve_Permutation.
  - rewrite (IH s Hx Hf). solve_Permutation.
Qed.

(** A variable that is in no table is registered under its name. *)
Lemma WF_insert r S s nm v y D :
  WF r S -> s < length (scopes r) ->
  tableGet nm (variables (getScope r s)) = None ->
  heap r !! v = Some y -> name y = nm ->
  v ∉ (snd <$> tableEntries r) ->
  (forall x, x ∈ varSites y -> x ∈ D) -> (forall x, x ∈ D -> x ∉ S) ->
  WF (setScopes (alter (setTable nm v) s) r) (D ++ S).
Proof.
  intros [Hn Hv Hd Hs Hk Hc Hp Hch] Hlt Hg Hy Hname Hfresh HyD HD.
  destruct (lookup_lt_is_Some_2 _ _ Hlt) as [x0 Hx0].
  assert (Hg' : tableGet nm (variables x0) = None)
    by (unfold getScope in Hg; now rewrite Hx0 in Hg).
  set (r' := setScopes (alter (setTable nm v) s) r).
  assert (Ep : tableEntries r' ≡ₚ [(nm, v)] ++ tableEntries r).
  { apply (tableEntries_alter _ _ _ x0); [exact Hx0|].
    simpl. now apply tableSet_fresh. }
  simpl in Ep.
  assert (Hin : forall k w, (k, w) ∈ tableEntries r' ->
                  (k, w) = (nm, v) \/ (k, w) ∈ tableEntries r).
  { intros k w H. rewrite Ep in H. now apply elem_of_cons in H. }
  assert (Hsv : forall x, x ∈ sitesOf r' v -> x ∈ D).
  { intros x. unfold sitesOf, getVariable. simpl. rewrite Hy. apply HyD. }
  constructor.
  - rewrite Ep. simpl. now constructor.
  - intros k w H. destruct (Hin k w H) as [[= -> ->]|Ho]; [eauto|now apply Hv].
  - intros k1 w1 k2 w2 x H1 H2 X1 X2.
    destruct (Hin _ _ H1) as [[= -> ->]|O1];
      destruct (Hin _ _ H2) as [[= -> ->]|O2]; auto.
    + exfalso. exact (HD _ (Hsv _ X1) (Hs _ _ _ O2 X2)).
    + exfalso. exact (HD _ (Hsv _ X2) (Hs _ _ _ O1 X1)).
    + exact (Hd _ _ _ _ _ O1 O2 X1 X2).
  - intros k w x H X. apply elem_of_app.
    destruct (Hin _ _ H) as [[= -> ->]|O]; [left; now apply Hsv|right].
    exact (Hs _ _ _ O X).
  - intros s' x H. simpl in H. destruct (decide (s = s')) as [<-|Hne].
    + rewrite list_lookup_alter_eq, Hx0 in H. injection H as <-. simpl.
      rewrite (tableSet_fresh _ _ _ Hg'), fmap_app. simpl.
      apply NoDup_app. split; [now apply (Hk s)|]. split; [|apply NoDup_singleton].
      intros k Hk1 Hk2. apply list_elem_of_singleton in Hk2. subst k.
      now apply tableGet_None in Hg'.
    + rewrite list_lookup_alter_ne in H by exact Hne. now apply (Hk s').
  - simpl. now rewrite length_alter.
  - intros s' x p H Hpar. simpl in *. rewrite length_alter.
    destruct (decide (s = s')) as [<-|Hne].
    + rewrite list_lookup_alter_eq, Hx0 in H. injection H as <-.
      now apply (Hp s x0).
    + rewrite list_lookup_alter_ne in H by exact Hne. now apply (Hp s' x).
  - intros s' x c H Hin'. simpl in *. rewrite length_alter.
    destruct (decide (s = s')) as [<-|Hne].
    + rewrite list_lookup_alter_eq, Hx0 in H. injection H as <-.
      now apply (Hch s x0).
    + rewrite list_lookup_alter_ne in H by exact Hne. now apply (Hch s' x).
Qed.

Lemma tableGet_registered r s nm v :
  tableGet nm (variables (getScope r s)) = Some v -> (nm, v) ∈ tableEntries r.
Proof.
  unfold getScope, tableEntries. intros H.
  destruct (scopes r !! s) as [x|] eqn:Ex; [|discriminate].
  apply list_elem_of_In, in_flat_map. exists x. split.
  - apply list_elem_of_In. eapply list_elem_of_lookup_2, Ex.
  - apply list_elem_of_In. now apply tableGet_Some_elem.
Qed.

Lemma registered_lt r S k v :
  WF r S -> (k, v) ∈ tableEntries r -> v < length (heap r).
Proof.
  intros W H. destruct (wf_valid _ _ W k v H) as (x & Hx & _).
  eapply lookup_lt_Some, Hx.
Qed.

Lemma registered_snd r k v :
  (k, v) ∈ tableEntries r -> v ∈ (snd <$> tableEntries r).
Proof. intros H. apply list_elem_of_fmap. exists (k, v). auto. Qed.

Lemma WF_addVariable r r' S s v y D :
  WF r S -> addVariable s v r = Ok r' -> s < length (scopes r) ->
  heap r !! v = Some y -> v ∉ (snd <$> tableEntries r) ->
  (forall x, x ∈ varSites y -> x ∈ D) -> (forall x, x ∈ D -> x ∉ S) ->
  WF r' (D ++ S)
  /\ scope r' = scope r /\ length (scopes r') = length (scopes r)
  /\ usedVariableNames r' = usedVariableNames r
  /\ (forall k w, (k, w) ∈ tableEntries r' ->
        (k, w) = (name y, v) \/ (k, w) ∈ tableEntries r).
Proof.
  intros W H Hs Hy Hfresh HyD HD. unfold addVariable in H.
  assert (Hgv : getVariable r v = y) by (unfold getVariable; now rewrite Hy).
  rewrite Hgv in H.
  destruct (tableGet (name y) (variables (getScope r s))) as [e|] eqn:Eg.
  - destruct (_ || _); [discriminate|]. injection H as <-.
    pose proof (tableGet_registered _ _ _ _ Eg) as He.
    split; [|repeat split; auto].
    apply (WF_gain r _ S D W); try reflexivity; [| |exact HD].
    + intros k w z Hin Hz. simpl. destruct (decide (e = w)) as [->|Hne].
      * rewrite list_lookup_alter_eq, Hz. simpl. eexists. split; [reflexivity|].
        split; [reflexivity|]. unfold varSites. simpl. intros x Hx.
        rewrite !elem_of_app in Hx. rewrite elem_of_app.
        destruct Hx as [[Hx|Hx]|Hx]; auto.
        right. apply HyD. unfold varSites. apply elem_of_app. now left.
      * rewrite list_lookup_alter_ne by exact Hne. exists z. auto.
    + assert (Hold : forall k w x, (k, w) ∈ tableEntries r -> x ∈ D ->
                x ∈ sitesOf (setHeap (alter (fun x0 =>
                  mkVariable (name x0) (kind x0)
                    (declarations x0 ++ declarations y) (references x0)) e) r) w ->
                w = e).
      { intros k w x Hin Hx Hsx. destruct (decide (e = w)) as [->|Hne]; [reflexivity|].
        exfalso. apply (HD x Hx). apply (wf_sites _ _ W k w x Hin).
        unfold sitesOf, getVariable in *. simpl in Hsx.
        now rewrite list_lookup_alter_ne in Hsx by exact Hne. }
      intros k1 v1 k2 w1 x H1 H2 Hx X1 X2.
      rewrite (Hold _ _ _ H1 Hx X1), (Hold _ _ _ H2 Hx X2). reflexivity.
  - injection H as <-.
    split; [now apply (WF_insert r S s (name y) v y D)|].
    split; [reflexivity|]. split; [simpl; now rewrite length_alter|].
    split; [reflexivity|].
    destruct (lookup_lt_is_Some_2 _ _ Hs) as [x0 Hx0].
    intros k w Hin.
    rewrite (tableEntries_alter (setTable (name y) v) s r x0 [(name y, v)]) in Hin.
    + now apply elem_of_cons in Hin.
    + exact Hx0.
    + simpl. apply tableSet_fresh. unfold getScope in Eg. now rewrite Hx0 in Eg.
Qed.

Lemma WF_addName nm r S : WF r S -> WF (addName nm r) S.
Proof.
  intros W. apply (WF_ext r _ S W).
  - apply scopes_addName.
  - apply scope_addName.
  - intros k v _. now rewrite heap_addName.
Qed.

Lemma tableEntries_addName nm r : tableEntries (addName nm r) = tableEntries r.
Proof. unfold tableEntries. now rewrite scopes_addName. Qed.

Lemma used_addName nm r :
  usedVariableNames r ⊆ usedVariableNames (addName nm r)
  /\ (shouldRename nm = false -> nm ∈ usedVariableNames (addName nm r)).
Proof.
  unfold addName. destruct (shouldRename nm); simpl; split;
    try discriminate; set_solver.
Qed.

Lemma usedOk_step r r' nm v :
  usedOk r ->
  (forall k w, (k, w) ∈ tableEntries r' ->
     (k, w) = (nm, v) \/ (k, w) ∈ tableEntries r) ->
  usedVariableNames r ⊆ usedVariableNames r' ->
  (shouldRename nm = false -> nm ∈ usedVariableNames r' \/ nm = "arguments") ->
  usedOk r'.
Proof.
  intros U He Hu Hn k w Hin Hk.
  destruct (He k w Hin) as [[= -> ->]|Ho]; [now apply Hn|].
  destruct (U k w Ho Hk) as [H|H]; [left; now apply Hu|now right].
Qed.

(** The state after [new Variable] and one [push]. *)
Lemma WF_fresh_variable r S y :
  WF r S ->
  let r2 := setHeap (fun h => h ++ [y]) r in
  WF r2 S /\ heap r2 !! length (heap r) = Some y
  /\ length (heap r) ∉ (snd <$> tableEntries r2).
Proof.
  intros W r2. split; [|split].
  - apply (WF_ext r r2 S W); try reflexivity.
    intros k v Hin. simpl. apply lookup_app_l. eapply registered_lt; eassumption.
  - simpl. rewrite lookup_app_r by lia. now rewrite Nat.sub_diag.
  - intros Hin. apply list_elem_of_fmap in Hin as ([k v] & Hv & Hin).
    simpl in Hv. subst v. change (tableEntries r2) with (tableEntries r) in Hin.
    pose proof (registered_lt _ _ _ _ W Hin). lia.
Qed.

Lemma WF_declare r r' S s nm k x :
  WF r S -> usedOk r -> declare s nm k x r = Ok r' ->
  s < length (scopes r) -> x ∉ S ->
  WF r' (x :: S) /\ usedOk r'
  /\ scope r' = scope r /\ length (scopes r') = length (scopes r).
Proof.
  intros W U H Hs Hx. unfold declare, new_Variable in H.
  set (n := length (heap r)) in *.
  set (r2 := pushDeclaration n x
               (setHeap (fun h => h ++ [mkVariable nm k [] []]) r)) in *.
  assert (E2 : r2 = setHeap (fun h => h ++ [mkVariable nm k [x] []]) r).
  { unfold r2, pushDeclaration, setHeap. simpl. f_equal.
    rewrite alter_app_r_alt by (unfold n; lia).
    unfold n. now rewrite Nat.sub_diag. }
  destruct (WF_fresh_variable r S (mkVariable nm k [x] []) W) as (W2 & H2 & F2).
  rewrite <- E2 in W2, H2, F2. fold n in H2, F2. clearbody r2.
  destruct (addVariable s n r2) as [r3|] eqn:E; [|discriminate].
  injection H as <-.
  assert (Hs2 : s < length (scopes r2)) by (rewrite E2; exact Hs).
  destruct (WF_addVariable r2 r3 S s n _ [x] W2 E Hs2 H2 F2)
    as (W3 & C3 & L3 & U3 & E3).
  { unfold varSites. simpl. intros y Hy. exact Hy. }
  { intros y Hy. apply list_elem_of_singleton in Hy. now subst y. }
  split; [now apply WF_addName|].
  split; [|split; [rewrite scope_addName, C3, E2; reflexivity
                  |rewrite scopes_addName, L3, E2; reflexivity]].
  destruct (used_addName nm r3) as (Hu1 & Hu2).
  apply (usedOk_step r _ nm n U).
  - rewrite tableEntries_addName. intros k' w Hin.
    destruct (E3 k' w Hin) as [Heq|Hold]; [now left|right].
    now rewrite E2 in Hold.
  - rewrite U3, E2 in Hu1. exact Hu1.
  - intros Hn. left. now apply Hu2.
Qed.

Lemma WF_declareParams ps : forall id r r' S,
  WF r S -> usedOk r -> declareParams id ps r = Ok r' ->
  (forall x, x ∈ paramSites id ps -> x ∉ S) ->
  WF r' (paramSites id ps ++ S) /\ usedOk r'
  /\ scope r' = scope r /\ length (scopes r') = length (scopes r).
Proof.
  induction ps as [|p ps IH]; intros id r r' S W U H HS; simpl in H.
  - injection H as <-. auto.
  - pose proof (size_childNodes p) as Hp.
    destruct (isBindingIdentifier p) eqn:Ep.
    + destruct p; try discriminate. simpl in H.
      destruct (declare _ _ _ _ _) as [r1|] eqn:E1; [|discriminate]. simpl in H.
      destruct (WF_declare _ _ S _ _ _ _ W U E1 (wf_cursor _ _ W))
        as (W1 & U1 & C1 & L1).
      { apply HS. simpl. constructor. }
      destruct (IH _ _ _ _ W1 U1 H) as (W' & U' & C' & L').
      { intros x Hx. apply not_elem_of_cons. split.
        - apply paramSites_range in Hx. simpl in Hx. lia.
        - apply HS. simpl. now right. }
      split; [|split; [exact U'|split; congruence]].
      eapply WF_mono; [exact W'|]. simpl. intros x Hx.
      rewrite !elem_of_app, !elem_of_cons in *. rewrite elem_of_app. tauto.
    + assert (H' : declareParams (id + size p) ps r = Ok r')
        by (destruct p; try discriminate; exact H).
      cbn [paramSites]. rewrite Ep. simpl. apply IH; auto.
      intros x Hx. apply HS. simpl. rewrite Ep. exact Hx.
Qed.

Lemma flat_map_variables_alter (f : Scope -> Scope) (c : nat) ss :
  (forall x, variables (f x) = variables x) ->
  flat_map variables (alter f c ss) = flat_map variables ss.
Proof.
  intros Hf. revert c. induction ss as [|x ss IH]; intros [|c]; simpl;
    try reflexivity.
  - now rewrite Hf.
  - f_equal. apply IH.
Qed.

Lemma tableEntries_new_Scope k ty r :
  tableEntries (snd (new_Scope k ty (scope r) r)) = tableEntries r.
Proof.
  unfold tableEntries. simpl. rewrite flat_map_app. simpl. rewrite app_nil_r.
  now apply flat_map_variables_alter.
Qed.

Lemma WF_new_Scope k ty r X :
  WF r X ->
  WF (setScope (fst (new_Scope k ty (scope r) r))
               (snd (new_Scope k ty (scope r) r))) X.
Proof.
  intros W. pose proof (tableEntries_new_Scope k ty r) as Et.
  destruct W as [Hn Hv Hd Hs Hk Hc Hp Hch].
  set (r1 := setScope _ _).
  assert (Et1 : tableEntries r1 = tableEntries r) by exact Et.
  assert (Hl : length (scopes r1) = S (length (scopes r))).
  { unfold r1. simpl. rewrite length_app, length_alter. simpl. lia. }
  assert (Hlook : forall s x, scopes r1 !! s = Some x ->
            (s < length (scopes r) /\ exists y, scopes r !! s = Some y
               /\ variables x = variables y /\ parent x = parent y
               /\ forall c, c ∈ children x -> c ∈ children y \/ c = length (scopes r))
            \/ (s = length (scopes r) /\ x = mkScope k ty (Some (scope r)) [] [])).
  { intros s x H. pose proof (lookup_lt_Some _ _ _ H) as Hlt'.
    rewrite Hl in Hlt'. unfold r1 in H. simpl in H.
    destruct (decide (s < length (scopes r))) as [Hlt|Hge].
    - left. split; [exact Hlt|].
      rewrite lookup_app_l in H by now rewrite length_alter.
      destruct (lookup_lt_is_Some_2 _ _ Hlt) as [y Hy]. exists y.
      split; [exact Hy|]. destruct (decide (scope r = s)) as [<-|Hne].
      + rewrite list_lookup_alter_eq, Hy in H. injection H as <-. simpl.
        repeat split. intros c Hin. apply elem_of_app in Hin as [?|Hin]; [now left|].
        right. now apply list_elem_of_singleton in Hin.
      + rewrite list_lookup_alter_ne in H by exact Hne.
        rewrite Hy in H. injection H as <-. auto.
    - right.
      assert (s = length (scopes r)) as -> by lia. split; [reflexivity|].
      rewrite lookup_app_r in H by (rewrite length_alter; lia).
      rewrite length_alter, Nat.sub_diag in H. now injection H as <-. }
  constructor; rewrite ?Et1; auto.
  - intros s x H. destruct (Hlook s x H) as [(_ & y & Hy & -> & _)|(_ & ->)].
    + now apply (Hk s).
    + constructor.
  - rewrite Hl. unfold r1. simpl. lia.
  - intros s x p H Hpar. rewrite Hl.
    destruct (Hlook s x H) as [(_ & y & Hy & _ & Ep & _)|(_ & ->)].
    + rewrite Ep in Hpar. pose proof (Hp s y p Hy Hpar). lia.
    + simpl in Hpar. injection Hpar as <-. lia.
  - intros s x c H Hin. rewrite Hl.
    destruct (Hlook s x H) as [(_ & y & Hy & _ & _ & Ec)|(_ & ->)].
    + destruct (Ec c Hin) as [Ho| ->]; [|lia]. pose proof (Hch s y c Hy Ho). lia.
    + now apply elem_of_nil in Hin.
Qed.

Lemma WF_leave k r S : WF r S -> WF (leave k r) S.
Proof.
  intros W. unfold leave, getScope.
  destruct (lookup_lt_is_Some_2 _ _ (wf_cursor _ _ W)) as [x Hx]. rewrite Hx. simpl.
  destruct (parent x) as [p|] eqn:Ep; [|exact W].
  destruct (Nat.eqb _ _); [|exact W].
  pose proof (wf_parent _ _ W _ _ _ Hx Ep) as Hp.
  destruct W. constructor; auto.
Qed.

Lemma usedOk_same r r' :
  usedOk r -> tableEntries r' = tableEntries r ->
  usedVariableNames r' = usedVariableNames r -> usedOk r'.
Proof. intros U Et Eu k v. rewrite Et, Eu. apply U. Qed.

Lemma WF_alter_sites (f : Variable_ -> Variable_) v x r X :
  WF r X -> x ∉ X ->
  (forall z, name (f z) = name z) ->
  (forall z y, y ∈ varSites (f z) -> y ∈ varSites z \/ y = x) ->
  WF (setHeap (alter f v) r) (x :: X).
Proof.
  intros W Hx Hn Hs. apply (WF_gain r _ X [x] W); try reflexivity.
  - intros k w z Hin Hz. simpl. destruct (decide (v = w)) as [->|Hne].
    + rewrite list_lookup_alter_eq, Hz. simpl. eexists. split; [reflexivity|].
      split; [apply Hn|]. intros y Hy. destruct (Hs z y Hy) as [?| ->]; [now left|].
      right. constructor.
    + rewrite list_lookup_alter_ne by exact Hne. exists z. auto.
  - assert (Hold : forall k w y, (k, w) ∈ tableEntries r -> y ∈ [x] ->
                y ∈ sitesOf (setHeap (alter f v) r) w -> w = v).
    { intros k w y Hin Hy Hsy. apply list_elem_of_singleton in Hy. subst y.
      destruct (decide (v = w)) as [->|Hne]; [reflexivity|].
      exfalso. apply Hx. apply (wf_sites _ _ W k w x Hin).
      unfold sitesOf, getVariable in *. simpl in Hsy.
      now rewrite list_lookup_alter_ne in Hsy by exact Hne. }
    intros k1 v1 k2 w1 y H1 H2 Hy X1 X2.
    rewrite (Hold _ _ _ H1 Hy X1), (Hold _ _ _ H2 Hy X2). reflexivity.
  - intros y Hy. apply list_elem_of_singleton in Hy. now subst y.
Qed.

Lemma WF_pushDeclaration v x r X :
  WF r X -> x ∉ X -> WF (pushDeclaration v x r) (x :: X).
Proof.
  intros W Hx. apply WF_alter_sites; auto. intros z y. unfold varSites. simpl.
  rewrite !elem_of_app, list_elem_of_singleton. tauto.
Qed.

Lemma WF_pushReference v x r X :
  WF r X -> x ∉ X -> WF (pushReference v x r) (x :: X).
Proof.
  intros W Hx. apply WF_alter_sites; auto. intros z y. unfold varSites. simpl.
  rewrite !elem_of_app, list_elem_of_singleton. tauto.
Qed.

Lemma WF_declareDeclarators kd ds : forall id r r' X,
  WF r X -> usedOk r -> declareDeclarators kd id ds r = Ok r' ->
  (forall x, x ∈ declaratorSites id ds -> x ∉ X) ->
  WF r' (declaratorSites id ds ++ X) /\ usedOk r'
  /\ scope r' = scope r /\ length (scopes r') = length (scopes r).
Proof.
  induction ds as [|d ds IH]; intros id r r' X W U H HX.
  - simpl in H. injection H as <-. auto.
  - assert (Hnp : forall r0, declaratorSites id (d :: ds) = [] ->
              declareDeclarators kd id (d :: ds) r0 = Ok r0).
    { intros r0. simpl. case_node d; try reflexivity.
      case_node bd; try reflexivity. discriminate. }
    destruct (declaratorSites id (d :: ds)) as [|x0 l0] eqn:Ed.
    { rewrite Hnp in H by reflexivity. injection H as <-. auto. }
    clear Hnp. simpl in H, Ed.
    case_node d; try discriminate. case_node bd; try discriminate.
    set (d := VariableDeclarator (BindingIdentifier nm) i) in *.
    assert (Hd : 2 <= size d) by (unfold d; rewrite size_eq; simpl; lia).
    injection Ed as <- <-.
    assert (Hfresh : S id ∉ X) by (apply HX; constructor).
    assert (exists r1, declareDeclarators kd (id + size d) ds r1 = Ok r'
              /\ WF r1 (S id :: X) /\ usedOk r1 /\ scope r1 = scope r
              /\ length (scopes r1) = length (scopes r))
      as (r1 & H1 & W1 & U1 & C1 & L1).
    { destruct (tableGet nm _) as [v|] eqn:Eg.
      - destruct (_ || _); [discriminate|]. simpl in H.
        eexists. split; [exact H|]. split; [now apply WF_pushDeclaration|].
        split; [|split; reflexivity]. eapply usedOk_same; [exact U| |]; reflexivity.
      - unfold new_Variable in H.
        destruct (addVariable _ _ _) as [r2|] eqn:E2; [|discriminate].
        simpl in H. eexists. split; [exact H|].
        destruct (WF_fresh_variable r X (mkVariable nm kd [] []) W)
          as (W0 & H0 & F0).
        destruct (WF_addVariable _ _ X _ _ _ [] W0 E2 (wf_cursor _ _ W0) H0 F0)
          as (W2 & C2 & L2 & U2 & E2').
        { intros y Hy. exact Hy. }
        { intros y Hy. now apply elem_of_nil in Hy. }
        simpl in W2. destruct (used_addName nm r2) as (Hu1 & Hu2).
        split; [apply WF_pushDeclaration; [now apply WF_addName|exact Hfresh]|].
        split; [|split; [simpl; rewrite scope_addName; exact C2
                        |simpl; rewrite scopes_addName; exact L2]].
        apply (usedOk_step r _ nm (length (heap r)) U).
        + change (tableEntries (pushDeclaration (length (heap r)) (S id)
                     (addName nm r2))) with (tableEntries (addName nm r2)).
          rewrite tableEntries_addName. exact E2'.
        + simpl. rewrite U2 in Hu1. exact Hu1.
        + intros Hn. left. now apply Hu2. }
    destruct (IH _ _ _ _ W1 U1 H1) as (W' & U' & C' & L').
    { intros x Hx. apply not_elem_of_cons. split.
      - apply declaratorSites_range in Hx. lia.
      - apply HX. now right. }
    split; [|split; [exact U'|split; congruence]].
    eapply WF_mono; [exact W'|]. intros x Hx.
    rewrite elem_of_app, elem_of_cons in Hx. simpl.
    rewrite elem_of_cons, elem_of_app. tauto.
Qed.

Lemma WF_arguments r r' X :
  WF r X -> usedOk r ->
  (let '(v, r5) := new_Variable "arguments" var r in addVariable (scope r5) v r5)
  = Ok r' ->
  WF r' X /\ usedOk r'.
Proof.
  unfold new_Variable. intros W U H.
  destruct (WF_fresh_variable r X (mkVariable "arguments" var [] []) W)
    as (W0 & H0 & F0).
  destruct (WF_addVariable _ _ X _ _ _ [] W0 H (wf_cursor _ _ W0) H0 F0)
    as (W2 & C2 & L2 & U2 & E2).
  { intros y Hy. exact Hy. }
  { intros y Hy. now apply elem_of_nil in Hy. }
  split; [exact W2|].
  apply (usedOk_step r _ "arguments" (length (heap r)) U); [exact E2| |now right].
  rewrite U2. reflexivity.
Qed.

Lemma WF_enterFunction k n r r' X :
  WF r X -> usedOk r -> enterFunction k n r = Ok r' ->
  (forall x, x ∈ functionSites k n -> x ∉ X) ->
  WF r' (functionSites k n ++ X) /\ usedOk r'.
Proof.
  intros W U H HX. unfold enterFunction in H.
  pose proof (WF_new_Scope k Function r X W) as W2.
  pose proof (tableEntries_new_Scope k Function r) as Et.
  destruct (new_Scope k Function (scope r) r) as [s r1] eqn:En.
  simpl in W2, Et. set (r2 := setScope s r1) in *.
  assert (U2 : usedOk r2).
  { apply (usedOk_same r); [exact U|exact Et|].
    unfold r2. unfold new_Scope in En. injection En as <- <-. reflexivity. }
  assert (Hs : s = scope r2) by reflexivity.
  clearbody r2. clear En Et.
  match type of H with context [bind ?m _] => destruct m as [r3|] eqn:E3 end;
    [|discriminate].
  cbn [bind] in H.
  match type of H with context [bind ?m _] => destruct m as [r4|] eqn:E4 end;
    [|discriminate].
  cbn [bind] in H.
  assert (Hstage : forall Y r3 r4 ps start,
            WF r3 (Y ++ X) -> usedOk r3 ->
            declareParams start ps r3 = Ok r4 ->
            (forall x, x ∈ paramSites start ps -> x ∉ Y ++ X) ->
            WF r4 (paramSites start ps ++ Y ++ X) /\ usedOk r4).
  { intros Y r3' r4' ps start W3 U3 E HY.
    destruct (WF_declareParams ps start r3' r4' (Y ++ X) W3 U3 E HY) as (W4 & U4 & _).
    auto. }
  assert (Hfinal : forall Z r4, WF r4 Z -> usedOk r4 ->
            match n with
            | ArrowExpression _ _ => Ok r4
            | _ => let '(v, r5) := new_Variable "arguments" var r4 in
                   addVariable (scope r5) v r5
            end = Ok r' -> WF r' Z /\ usedOk r').
  { intros Z r4' W4 U4 Hf.
    case_node n; try (eapply WF_arguments; eassumption).
    injection Hf as <-. auto. }
  case_node n; simpl in E3, E4, HX; cbn [functionSites];
    try (injection E3 as <-; injection E4 as <-;
         apply (Hfinal _ r2); assumption).
  - injection E3 as <-.
    destruct (Hstage [] r2 r4 ps (S (S k)) W2 U2 E4 HX) as (W4 & U4).
    simpl in W4. now apply (Hfinal _ r4).
  - destruct nm as [nm|].
    + destruct (WF_declare _ _ X _ _ _ _ W2 U2 E3) as (W3 & U3 & C3 & L3).
      { rewrite Hs. apply (wf_cursor _ _ W2). }
      { apply HX. constructor. }
      destruct (Hstage [S k] r3 r4 ps (S (S k)) W3 U3 E4) as (W4 & U4).
      { intros x Hx. simpl. apply not_elem_of_cons. split.
        - apply paramSites_range in Hx. lia.
        - apply HX. now right. }
      apply (Hfinal _ r4); [|exact U4|exact H].
      eapply WF_mono; [exact W4|]. intros x Hx.
      rewrite !elem_of_app, !elem_of_cons in Hx. simpl.
      rewrite elem_of_cons, elem_of_app. rewrite elem_of_nil in Hx. tauto.
    + injection E3 as <-.
      destruct (Hstage [] r2 r4 ps (S k) W2 U2 E4 HX) as (W4 & U4).
      simpl in W4. now apply (Hfinal _ r4).
  - injection E3 as <-.
    destruct (Hstage [] r2 r4 ps (S k) W2 U2 E4 HX) as (W4 & U4).
    simpl in W4. now apply (Hfinal _ r4).
Qed.

Lemma WF_setScope s r X : WF r X -> s < length (scopes r) -> WF (setScope s r) X.
Proof. intros [] Hs. constructor; auto. Qed.

Lemma WF_enterBlock k r X : WF r X -> usedOk r ->
  WF (enterBlock k r) X /\ usedOk (enterBlock k r).
Proof.
  intros W U. split; [apply (WF_new_Scope k Other r X W)|].
  apply (usedOk_same r); [exact U| |reflexivity].
  apply (tableEntries_new_Scope k Other r).
Qed.

Lemma WF_declEnter k n r r' X :
  WF r X -> usedOk r -> declEnter k n r = Ok r' ->
  (forall x, x ∈ declSites k n -> x ∉ X) ->
  WF r' (declSites k n ++ X) /\ usedOk r'.
Proof.
  intros W U H HX.
  case_node n; simpl in H; cbn [declSites] in *;
    try (injection H as <-; auto; fail).
  - destruct (declare _ _ _ _ _) as [r1|] eqn:E1; [|discriminate]. simpl in H.
    destruct (WF_declare _ _ X _ _ _ _ W U E1 (wf_cursor _ _ W))
      as (W1 & U1 & _); [apply HX; constructor|].
    destruct (WF_enterFunction _ _ _ _ _ W1 U1 H) as (W2 & U2).
    { cbn [functionSites]. intros x Hx. apply not_elem_of_cons. split.
      - apply paramSites_range in Hx. lia.
      - apply HX. now right. }
    split; [|exact U2]. cbn [functionSites] in W2.
    eapply WF_mono; [exact W2|]. intros x Hx.
    rewrite elem_of_app, elem_of_cons in Hx. simpl.
    rewrite elem_of_cons, elem_of_app. tauto.
  - apply (WF_enterFunction _ _ _ _ _ W U H). exact HX.
  - apply (WF_enterFunction _ _ _ _ _ W U H). exact HX.
  - assert (exists r1, r' = enterBlock k r1
              /\ WF r1 (match bd with
                        | Some (BindingIdentifier _) => [S k]
                        | _ => []
                        end ++ X) /\ usedOk r1) as (r1 & -> & W1 & U1).
    { destruct bd as [bd|]; [|exists r; simpl in H; split; [congruence|auto]].
      case_node bd; try (exists r; simpl in H; split; [congruence|auto]).
      destruct (declare _ _ _ _ _) as [r1|] eqn:E1; [|discriminate]. simpl in H.
      exists r1. split; [congruence|].
      destruct (WF_declare _ _ X _ _ _ _ W U E1 (wf_cursor _ _ W))
        as (W1 & U1 & _); [apply HX; constructor|]. auto. }
    now apply WF_enterBlock.
  - injection H as <-. now apply WF_enterBlock.
  - injection H as <-. now apply WF_enterBlock.
  - destruct (WF_declareDeclarators _ _ _ _ _ _ W U H HX) as (W1 & U1 & _). auto.
Qed.

Lemma WF_declRun es : forall r r' X,
  WF r X -> usedOk r -> run declStep es r = Ok r' ->
  NoDup (flat_map eventDeclSites es) ->
  (forall x, x ∈ flat_map eventDeclSites es -> x ∉ X) ->
  WF r' (flat_map eventDeclSites es ++ X) /\ usedOk r'.
Proof.
  induction es as [|e es IH]; intros r r' X W U H Hn HX; simpl in *.
  - injection H as <-. auto.
  - destruct (declStep e r) as [r1|] eqn:E1; [|discriminate]. simpl in H.
    apply NoDup_app in Hn as (Hn1 & Hn12 & Hn2).
    assert (W1 : WF r1 (eventDeclSites e ++ X) /\ usedOk r1).
    { destruct e as [k n|k n]; simpl in *.
      - apply (WF_declEnter _ _ _ _ _ W U E1). intros x Hx. apply HX.
        apply elem_of_app. now left.
      - injection E1 as <-. split; [now apply WF_leave|].
        destruct (leave_frame k r) as (_ & Eu & _ & Es).
        apply (usedOk_same r); [exact U| |exact Eu].
        unfold tableEntries. now rewrite Es. }
    destruct W1 as [W1 U1].
    destruct (IH _ _ _ W1 U1 H Hn2) as (W' & U').
    { intros x Hx Hin. apply elem_of_app in Hin as [Hin|Hin].
      - exact (Hn12 _ Hin Hx).
      - apply (HX x); [|exact Hin]. apply elem_of_app. now right. }
    split; [|exact U']. eapply WF_mono; [exact W'|]. intros x Hx.
    rewrite !elem_of_app in *. tauto.
Qed.

Lemma lookupFrom_registered fuel r s nm v :
  lookupFrom fuel (scopes r) s nm = Some v -> (nm, v) ∈ tableEntries r.
Proof.
  revert s. induction fuel as [|fuel IH]; intros s; simpl; [discriminate|].
  destruct (scopes r !! s) as [x|] eqn:Ex; [|discriminate].
  destruct (tableGet nm (variables x)) as [w|] eqn:Eg.
  - intros [= ->]. apply (tableGet_registered r s). unfold getScope.
    now rewrite Ex.
  - destruct (parent x); [apply IH|discriminate].
Qed.

Lemma WF_refEnter k n r r' X :
  WF r X -> usedOk r -> refEnter k n r = Ok r' ->
  (forall x, x ∈ refSites k n -> x ∉ X) ->
  WF r' (refSites k n ++ X) /\ usedOk r'.
Proof.
  intros W U H HX. unfold refEnter in H.
  destruct (isScopeNode n) eqn:Hn.
  - assert (refSites k n = []) as -> by (case_node n; try discriminate; reflexivity).
    destruct (findChild r k) as [s|] eqn:Ef; [|discriminate]. injection H as <-.
    split; [|exact U]. apply WF_setScope; [exact W|].
    unfold findChild in Ef. apply List.find_some in Ef as [Hin _].
    apply list_elem_of_In in Hin.
    destruct (lookup_lt_is_Some_2 _ _ (wf_cursor _ _ W)) as [x Hx].
    unfold getScope in Hin. rewrite Hx in Hin. simpl in Hin.
    exact (wf_children _ _ W _ _ _ Hx Hin).
  - case_node n; try discriminate; try (injection H as <-; auto; fail).
    cbn [refSites] in *.
    assert (Hk : k ∉ X) by (apply HX; constructor).
    destruct (lookupVariable r (scope r) nm) as [v|] eqn:El.
    + injection H as <-. split; [now apply WF_pushReference|].
      apply (usedOk_same r); [exact U| |]; reflexivity.
    + unfold new_Variable in H. injection H as <-.
      destruct (WF_fresh_variable r X (mkVariable nm var [] []) W) as (W0 & _).
      split; [apply WF_pushReference; [now apply WF_addName|exact Hk]|].
      destruct (used_addName nm (setHeap (fun h => h ++ [mkVariable nm var [] []]) r))
        as (Hu & _).
      intros k' v' Hin Hk'.
      change (tableEntries (pushReference (length (heap r)) k
                 (addName nm (setHeap (fun h => h ++ [mkVariable nm var [] []]) r))))
        with (tableEntries (addName nm
                 (setHeap (fun h => h ++ [mkVariable nm var [] []]) r))) in Hin.
      rewrite tableEntries_addName in Hin.
      destruct (U k' v' Hin Hk') as [Hl|Hr]; [left|now right].
      simpl. now apply Hu.
Qed.

Lemma WF_refRun es : forall r r' X,
  WF r X -> usedOk r -> run refStep es r = Ok r' ->
  NoDup (flat_map eventRefSites es) ->
  (forall x, x ∈ flat_map eventRefSites es -> x ∉ X) ->
  WF r' (flat_map eventRefSites es ++ X) /\ usedOk r'.
Proof.
  induction es as [|e es IH]; intros r r' X W U H Hn HX; simpl in *.
  - injection H as <-. auto.
  - destruct (refStep e r) as [r1|] eqn:E1; [|discriminate]. simpl in H.
    apply NoDup_app in Hn as (Hn1 & Hn12 & Hn2).
    assert (W1 : WF r1 (eventRefSites e ++ X) /\ usedOk r1).
    { destruct e as [k n|k n]; simpl in *.
      - apply (WF_refEnter _ _ _ _ _ W U E1). intros x Hx. apply HX.
        apply elem_of_app. now left.
      - injection E1 as <-. split; [now apply WF_leave|].
        destruct (leave_frame k r) as (_ & Eu & _ & Es).
        apply (usedOk_same r); [exact U| |exact Eu].
        unfold tableEntries. now rewrite Es. }
    destruct W1 as [W1 U1].
    destruct (IH _ _ _ W1 U1 H Hn2) as (W' & U').
    { intros x Hx Hin. apply elem_of_app in Hin as [Hin|Hin].
      - exact (Hn12 _ Hin Hx).
      - apply (HX x); [|exact Hin]. apply elem_of_app. now right. }
    split; [|exact U']. eapply WF_mono; [exact W'|]. intros x Hx.
    rewrite !elem_of_app in *. tauto.
Qed.

Lemma flat_map_split {A B} (f g : A -> list B) l :
  flat_map (fun e => f e ++ g e) l ≡ₚ flat_map f l ++ flat_map g l.
Proof.
  induction l as [|a l IH]; simpl; [reflexivity|]. rewrite IH. solve_Permutation.
Qed.

Lemma WF_new : WF new_VariableRenamer [].
Proof.
  constructor; simpl.
  - constructor.
  - intros k v H. now apply elem_of_nil in H.
  - intros k1 v k2 w x H. now apply elem_of_nil in H.
  - intros k v x H. now apply elem_of_nil in H.
  - intros [|s] x H; [|discriminate]. injection H as <-. constructor.
  - unfold globalScope. lia.
  - intros [|s] x p H; [|discriminate]. injection H as <-. discriminate.
  - intros [|s] x c H; [|discriminate]. injection H as <-. simpl.
    intros Hc. now apply elem_of_nil in Hc.
Qed.

(** The invariant holds after the two walks. *)
Lemma WF_walks ast r1 r2 :
  collectDeclarations ast new_VariableRenamer = Ok r1 ->
  collectReferences ast r1 = Ok r2 ->
  exists X, WF r2 X /\ usedOk r2.
Proof.
  intros H1 H2. unfold collectDeclarations in H1. unfold collectReferences in H2.
  pose proof (nodeSites_NoDup ast 0) as Hn. unfold nodeSites in Hn.
  unfold eventSites in Hn. rewrite flat_map_split in Hn.
  apply NoDup_app in Hn as (Hd & Hdr & Hr).
  destruct (WF_declRun _ _ _ [] (WF_setScope globalScope _ _ WF_new
              ltac:(simpl; unfold globalScope; lia)) ltac:(intros k v H; now apply elem_of_nil in H)
              H1 Hd) as (W1 & U1).
  { intros x _. apply not_elem_of_nil. }
  rewrite app_nil_r in W1.
  assert (W1' : WF (setScope globalScope r1)
                   (flat_map eventDeclSites (events 0 ast))).
  { apply WF_setScope; [exact W1|].
    pose proof (wf_cursor _ _ W1). unfold globalScope. lia. }
  destruct (WF_refRun _ _ _ _ W1' U1 H2 Hr) as (W2 & U2).
  { intros x Hx Hin. exact (Hdr _ Hin Hx). }
  eauto.
Qed.

(** ** What the renaming walk writes *)

Lemma patched_rename v nm r x :
  patched (rename v nm r) !! x
  = if bool_decide (x ∈ sitesOf r v) then Some nm else patched r !! x.
Proof.
  unfold rename, sitesOf, varSites. simpl.
  generalize (declarations (getVariable r v) ++ references (getVariable r v)).
  intros l. induction l as [|y l IH]; cbn [foldr].
  - rewrite bool_decide_eq_false_2 by apply not_elem_of_nil. reflexivity.
  - destruct (decide (y = x)) as [->|Hne].
    + rewrite lookup_insert_eq. rewrite bool_decide_eq_true_2 by constructor.
      reflexivity.
    + rewrite lookup_insert_ne by exact Hne. rewrite IH.
      destruct (decide (x ∈ l)) as [Hin|Hin].
      * rewrite !bool_decide_eq_true_2; auto. now right.
      * rewrite !bool_decide_eq_false_2; auto.
        rewrite elem_of_cons. intros [?|?]; congruence.
Qed.

Lemma getVariable_rename v nm r w :
  getVariable (rename v nm r) w
  = if decide (v = w)
    then match heap r !! v with
         | Some x => mkVariable nm (kind x) (declarations x) (references x)
         | None => emptyVariable
         end
    else getVariable r w.
Proof.
  unfold getVariable, rename. simpl. destruct (decide (v = w)) as [->|Hne].
  - rewrite list_lookup_alter_eq. now destruct (heap r !! w).
  - now rewrite list_lookup_alter_ne.
Qed.

Lemma sitesOf_rename v nm r w : sitesOf (rename v nm r) w = sitesOf r w.
Proof.
  unfold sitesOf. rewrite getVariable_rename.
  destruct (decide (v = w)) as [->|]; [|reflexivity].
  unfold getVariable. now destruct (heap r !! w).
Qed.

Lemma renameTable_frame t : forall r R,
  renameTable t r = Ok R ->
  scopes R = scopes r
  /\ (forall w, sitesOf R w = sitesOf r w)
  /\ (forall w, w ∉ (fst <$> assign t (variableNames r)) ->
        getVariable R w = getVariable r w)
  /\ (forall x, (forall v nm, (v, nm) ∈ assign t (variableNames r) ->
                   x ∉ sitesOf r v) ->
        patched R !! x = patched r !! x).
Proof.
  induction t as [|[k v] t IH]; intros r R H; cbn [renameTable] in H.
  - injection H as <-. auto.
  - cbn [assign]. destruct (shouldRename k).
    + unfold getVariableName in H. destruct (variableNames r) as [|nm rest] eqn:En;
        [discriminate|]. cbn [bind fst snd] in H.
      set (r0 := setNames rest r) in *.
      destruct (IH _ _ H) as (Hs & Hsi & Hv & Hp).
      change (variableNames (rename v nm r0)) with rest in Hv, Hp.
      split; [exact Hs|]. split; [|split].
      * intros w. rewrite Hsi, sitesOf_rename. reflexivity.
      * intros w Hw. cbn [fmap list_fmap fst] in Hw.
        apply not_elem_of_cons in Hw as [Hne Hw].
        rewrite Hv by exact Hw. rewrite getVariable_rename.
        destruct (decide (v = w)); [congruence|reflexivity].
      * intros x Hx. rewrite Hp.
        -- rewrite patched_rename. rewrite bool_decide_eq_false_2; [reflexivity|].
           apply (Hx v nm). constructor.
        -- intros v' nm' Hin. rewrite sitesOf_rename. apply (Hx v' nm').
           now right.
    + cbn [bind] in H. apply IH. exact H.
Qed.

Lemma assign_elem t : forall names v nm,
  (v, nm) ∈ assign t names ->
  (exists k, (k, v) ∈ t /\ shouldRename k = true) /\ nm ∈ names.
Proof.
  induction t as [|[k w] t IH]; intros names v nm H; simpl in H.
  - now apply elem_of_nil in H.
  - destruct (shouldRename k) eqn:Ek.
    + destruct names as [|n rest]; [now apply elem_of_nil in H|].
      apply elem_of_cons in H as [[= -> ->]|H].
      * split; [exists k; split; [constructor|exact Ek]|constructor].
      * destruct (IH _ _ _ H) as ((k' & Hin & Hk') & Hn).
        split; [exists k'; split; [now right|exact Hk']|now right].
    + destruct (IH _ _ _ H) as ((k' & Hin & Hk') & Hn).
      split; [exists k'; split; [now right|exact Hk']|exact Hn].
Qed.

Lemma assign_complete t : forall names k v,
  length (eligible t) <= length names ->
  (k, v) ∈ t -> shouldRename k = true ->
  exists nm, (v, nm) ∈ assign t names.
Proof.
  induction t as [|[k0 w] t IH]; intros names k v Hl Hin Hk; simpl in *.
  - now apply elem_of_nil in Hin.
  - destruct (shouldRename k0) eqn:Ek0; simpl in Hl.
    + destruct names as [|n rest]; [simpl in Hl; lia|]. simpl in Hl.
      apply elem_of_cons in Hin as [[= -> ->]|Hin].
      * exists n. constructor.
      * destruct (IH rest k v) as (nm & Hnm); [lia|exact Hin|exact Hk|].
        exists nm. now right.
    + apply elem_of_cons in Hin as [[= -> ->]|Hin]; [congruence|].
      now apply (IH names k v).
Qed.

Lemma assign_names_NoDup t : forall names,
  NoDup names -> NoDup (snd <$> assign t names).
Proof.
  induction t as [|[k w] t IH]; intros names Hn; simpl; [constructor|].
  destruct (shouldRename k); [|now apply IH].
  destruct names as [|n rest]; [constructor|].
  apply NoDup_cons in Hn as [Hn1 Hn2]. simpl. constructor; [|now apply IH].
  intros Hin. apply list_elem_of_fmap in Hin as ([v nm] & -> & Hin).
  apply assign_elem in Hin as [_ Hin]. exact (Hn1 Hin).
Qed.

Lemma renameTable_names t : forall r R,
  renameTable t r = Ok R -> length (eligible t) <= length (variableNames r).
Proof.
  intros r R H.
  destruct (le_lt_dec (length (eligible t)) (length (variableNames r))) as [?|Hlt];
    [assumption|].
  rewrite (renameTable_exhausts _ _ Hlt) in H. discriminate.
Qed.

Lemma renameTable_assigned t : forall r R,
  renameTable t r = Ok R -> NoDup (snd <$> t) ->
  (forall k v, (k, v) ∈ t -> is_Some (heap r !! v)) ->
  (forall k1 v k2 w x, (k1, v) ∈ t -> (k2, w) ∈ t ->
     x ∈ sitesOf r v -> x ∈ sitesOf r w -> v = w) ->
  forall v nm, (v, nm) ∈ assign t (variableNames r) ->
    name (getVariable R v) = nm
    /\ forall x, x ∈ sitesOf r v -> patched R !! x = Some nm.
Proof.
  induction t as [|[k v0] t IH]; intros r R H Hn Hval Hdis v nm Hin;
    cbn [renameTable assign] in *.
  - now apply elem_of_nil in Hin.
  - cbn [fmap list_fmap snd] in Hn. apply NoDup_cons in Hn as [Hn1 Hn2].
    assert (Hval' : forall k v, (k, v) ∈ t -> is_Some (heap r !! v))
      by (intros k' v' H'; apply (Hval k' v'); now right).
    assert (Hdis' : forall k1 v k2 w x, (k1, v) ∈ t -> (k2, w) ∈ t ->
              x ∈ sitesOf r v -> x ∈ sitesOf r w -> v = w).
    { intros k1 v1 k2 w1 x H1 H2. apply (Hdis k1 v1 k2 w1 x); now right. }
    destruct (shouldRename k) eqn:Ek.
    + unfold getVariableName in H. destruct (variableNames r) as [|n rest] eqn:En;
        [discriminate|]. cbn [bind fst snd] in H.
      set (r0 := setNames rest r) in *.
      assert (Htail : forall v' nm', (v', nm') ∈ assign t rest ->
                exists k', (k', v') ∈ t).
      { intros v' nm' H'. apply assign_elem in H' as ((k' & ? & _) & _). eauto. }
      destruct (renameTable_frame _ _ _ H) as (_ & Hsi & Hv & Hp).
      change (variableNames (rename v0 n r0)) with rest in Hv, Hp.
      apply elem_of_cons in Hin as [[= -> ->]|Hin].
      * split.
        -- rewrite Hv.
           ++ rewrite getVariable_rename.
              destruct (decide (v0 = v0)); [|congruence].
              destruct (Hval k v0) as [y Hy]; [constructor|].
              change (heap r0) with (heap r). now rewrite Hy.
           ++ intros Hin. apply list_elem_of_fmap in Hin as ([v' nm'] & Hv' & Hin).
              simpl in Hv'. subst v'. destruct (Htail _ _ Hin) as (k' & Hk').
              apply Hn1. apply list_elem_of_fmap. exists (k', v0). auto.
        -- intros x Hx. rewrite Hp.
           ++ rewrite patched_rename.
              rewrite bool_decide_eq_true_2; [reflexivity|exact Hx].
           ++ intros v' nm' Hin Hx'. rewrite sitesOf_rename in Hx'.
              destruct (Htail _ _ Hin) as (k' & Hk').
              assert (v0 = v') as <-.
              { apply (Hdis k v0 k' v' x); auto; [constructor|now right]. }
              apply Hn1. apply list_elem_of_fmap. exists (k', v0). auto.
      * destruct (IH _ _ H Hn2) with (v := v) (nm := nm) as (N & P).
        -- intros k' v' H'. destruct (Hval' k' v' H') as [y Hy].
           unfold rename. simpl. destruct (decide (v0 = v')) as [->|Hne].
           ++ rewrite list_lookup_alter_eq, Hy. eauto.
           ++ rewrite list_lookup_alter_ne by exact Hne. eauto.
        -- intros k1 v1 k2 w1 x H1 H2. rewrite !sitesOf_rename.
           apply (Hdis' k1 v1 k2 w1 x H1 H2).
        -- exact Hin.
        -- split; [exact N|]. intros x Hx. apply P. now rewrite sitesOf_rename.
    + cbn [bind] in H. apply (IH _ _ H Hn2 Hval' Hdis' v nm Hin).
Qed.

(** The two collection walks write no name. *)
Lemma addVariable_patched s v r r' :
  addVariable s v r = Ok r' -> patched r' = patched r.
Proof.
  unfold addVariable. destruct (tableGet _ _).
  - destruct (_ || _); [discriminate|]. now intros [= <-].
  - now intros [= <-].
Qed.

Lemma addName_patched nm r : patched (addName nm r) = patched r.
Proof. unfold addName. now destruct (shouldRename nm). Qed.

Lemma declare_patched s nm k site r r' :
  declare s nm k site r = Ok r' -> patched r' = patched r.
Proof.
  unfold declare, new_Variable. intros H.
  destruct (addVariable _ _ _) as [r3|] eqn:E; [|discriminate].
  injection H as <-. rewrite addName_patched.
  now rewrite (addVariable_patched _ _ _ _ E).
Qed.

Lemma declareParams_patched ps : forall id r r',
  declareParams id ps r = Ok r' -> patched r' = patched r.
Proof.
  induction ps as [|p ps IH]; intros id r r' H; simpl in H.
  - now injection H as <-.
  - destruct (match p with BindingIdentifier nm => _ | _ => _ end) as [r1|] eqn:E;
      [|discriminate]. simpl in H. rewrite (IH _ _ _ H).
    destruct p; try (now injection E as <-).
    now apply declare_patched in E.
Qed.

Lemma enterFunction_patched k n r r' :
  enterFunction k n r = Ok r' -> patched r' = patched r.
Proof.
  unfold enterFunction, new_Scope. intros H.
  set (r2 := setScope _ _) in H.
  assert (E2 : patched r2 = patched r) by reflexivity. clearbody r2.
  destruct (match n with FunctionExpression (Some nm) _ _ => _ | _ => Ok r2 end)
    as [r3|] eqn:E3; [|discriminate]. cbn [bind] in H.
  assert (P3 : patched r3 = patched r).
  { rewrite <- E2. destruct n as [| | | |[nm|] ? ?| | | | | | |];
      try (now injection E3 as <-). now apply declare_patched in E3. }
  clear E3.
  destruct (match n with FunctionDeclaration _ ps _ => _ | _ => _ end)
    as [r4|] eqn:E4; [|discriminate]. cbn [bind] in H.
  assert (P4 : patched r4 = patched r).
  { rewrite <- P3. destruct n as [| | |? ps ?|[nm|] ps ?|ps ?| | | | | |];
      try (now injection E4 as <-); now apply declareParams_patched in E4. }
  clear E4. unfold new_Variable in H.
  destruct n; try (apply addVariable_patched in H; rewrite H; exact P4).
  injection H as <-. exact P4.
Qed.

Lemma declareDeclarators_patched kd ds : forall id r r',
  declareDeclarators kd id ds r = Ok r' -> patched r' = patched r.
Proof.
  induction ds as [|d ds IH]; intros id r r' H; simpl in H.
  - now injection H as <-.
  - destruct d as [| | | | | | | | | |bd i|]; try (now injection H as <-).
    destruct bd; try (now injection H as <-).
    destruct (tableGet _ _) as [v|].
    + destruct (_ || _); [discriminate|]. cbn [bind] in H.
      now rewrite (IH _ _ _ H).
    + unfold new_Variable in H.
      destruct (addVariable _ _ _) as [r2|] eqn:E; [|discriminate].
      cbn [bind] in H. rewrite (IH _ _ _ H). cbn.
      rewrite addName_patched. now rewrite (addVariable_patched _ _ _ _ E).
Qed.

Lemma leave_patched k r : patched (leave k r) = patched r.
Proof.
  unfold leave. destruct (parent _); [|reflexivity].
  now destruct (Nat.eqb _ _).
Qed.

Lemma declStep_patched e r r' : declStep e r = Ok r' -> patched r' = patched r.
Proof.
  destruct e as [k n|k n]; simpl; intros H;
    [|injection H as <-; apply leave_patched].
  unfold declEnter in H. case_node n; try (now injection H as <-).
  - destruct (declare _ _ _ _ _) as [r1|] eqn:E; [|discriminate].
    cbn [bind] in H. rewrite (enterFunction_patched _ _ _ _ H).
    now apply declare_patched in E.
  - now apply enterFunction_patched in H.
  - now apply enterFunction_patched in H.
  - destruct (match bd with Some (BindingIdentifier nm) => _ | _ => _ end)
      as [r1|] eqn:E; [|discriminate]. cbn [bind] in H. injection H as <-.
    unfold enterBlock, new_Scope. cbn.
    destruct bd as [[]|]; try (now injection E as <-).
    now apply declare_patched in E.
  - now apply declareDeclarators_patched in H.
Qed.

Lemma refStep_patched e r r' : refStep e r = Ok r' -> patched r' = patched r.
Proof.
  destruct e as [k n|k n]; simpl; intros H;
    [|injection H as <-; apply leave_patched].
  unfold refEnter in H. destruct (isScopeNode n).
  - destruct (findChild r k); [|discriminate]. now injection H as <-.
  - case_node n; try (now injection H as <-).
    destruct (lookupVariable _ _ _); injection H as <-; [reflexivity|].
    unfold new_Variable. cbn. now rewrite addName_patched.
Qed.

Lemma run_patched step es :
  (forall e r r', step e r = Ok r' -> patched r' = patched r) ->
  forall r r', run step es r = Ok r' -> patched r' = patched r.
Proof.
  intros Hs. induction es as [|e es IH]; intros r r' H; simpl in H.
  - now injection H as <-.
  - destruct (step e r) as [r1|] eqn:E; [|discriminate]. cbn [bind] in H.
    rewrite (IH _ _ H). eauto.
Qed.

Lemma walks_patched ast r1 r2 :
  collectDeclarations ast new_VariableRenamer = Ok r1 ->
  collectReferences ast r1 = Ok r2 ->
  patched r2 = ∅.
Proof.
  intros H1 H2.
  apply (run_patched _ _ refStep_patched) in H2.
  apply (run_patched _ _ declStep_patched) in H1.
  rewrite H2. cbn. rewrite H1. reflexivity.
Qed.

Lemma flat_map_lookup {A B} (f : A -> list B) (d : A) (l2 : list A) :
  forall l1,
    flat_map (fun i => f (default d ((l1 ++ l2) !! i)))
             (seq (length l1) (length l2))
    = flat_map f l2.
Proof.
  induction l2 as [|a l2 IH]; intros l1; simpl; [reflexivity|].
  rewrite list_lookup_middle by reflexivity. simpl. f_equal.
  specialize (IH (l1 ++ [a])). rewrite <- app_assoc in IH. simpl in IH.
  rewrite length_app in IH. simpl in IH.
  replace (length l1 + 1) with (S (length l1)) in IH by lia. exact IH.
Qed.

Lemma allEntries_tableEntries r : allEntries r = tableEntries r.
Proof.
  unfold allEntries, entries, tableEntries, getScope.
  exact (flat_map_lookup variables emptyScope (scopes r) []).
Qed.

Lemma generateNames_NoDup r : NoDup (variableNames (generateNames r)).
Proof.
  unfold generateNames, setNames; cbn [variableNames].
  apply StronglySorted_shortlex_NoDup, StronglySorted_filter_shortlex.
  exact candidates_sorted.
Qed.

Lemma generateNames_candidates r nm :
  nm ∈ variableNames (generateNames r) -> nm ∈ candidates.
Proof.
  unfold generateNames, setNames; cbn [variableNames]. intros H.
  apply list_elem_of_In, List.filter_In in H as [H _].
  now apply list_elem_of_In.
Qed.

(** What a completed run has written, in terms of the state [r2] left by
    the two collection walks and of the assignment of generated names to
    the eligible table entries. *)
Lemma execute_renaming ast r1 r2 R :
  collectDeclarations ast new_VariableRenamer = Ok r1 ->
  collectReferences ast r1 = Ok r2 ->
  execute ast = Ok R ->
  let a := assign (tableEntries r2) (variableNames (generateNames r2)) in
  scopes R = scopes r2
  /\ (forall v, sitesOf R v = sitesOf r2 v)
  /\ (forall k v, (k, v) ∈ tableEntries r2 -> shouldRename k = true ->
        exists nm, (v, nm) ∈ a)
  /\ (forall v nm, (v, nm) ∈ a ->
        (exists k, (k, v) ∈ tableEntries r2 /\ shouldRename k = true)
        /\ nm ∈ variableNames (generateNames r2)
        /\ name (getVariable R v) = nm
        /\ forall x, x ∈ sitesOf r2 v -> patched R !! x = Some nm)
  /\ NoDup (snd <$> a)
  /\ (forall v, v ∉ (fst <$> a) -> getVariable R v = getVariable r2 v)
  /\ (forall x, (forall v nm, (v, nm) ∈ a -> x ∉ sitesOf r2 v) ->
        patched R !! x = None).
Proof.
  intros H1 H2 HR a.
  destruct (WF_walks _ _ _ H1 H2) as (X & W & _).
  rewrite (execute_unfold _ _ _ H1 H2), allEntries_tableEntries in HR.
  set (g := generateNames r2) in *.
  assert (Et : tableEntries g = tableEntries r2) by reflexivity.
  assert (Es : forall v, sitesOf g v = sitesOf r2 v) by reflexivity.
  rewrite Et in HR.
  destruct (renameTable_frame _ _ _ HR) as (F1 & F2 & F3 & F4).
  split; [exact F1|]. split; [exact F2|]. split; [|split; [|split; [|split]]].
  - intros k v Hin Hk.
    apply (assign_complete _ _ k v (renameTable_names _ _ _ HR) Hin Hk).
  - intros v nm Hin. destruct (assign_elem _ _ _ _ Hin) as (Hk & Hn).
    split; [exact Hk|]. split; [exact Hn|].
    apply (renameTable_assigned _ _ _ HR); [apply W| | |exact Hin].
    + intros k' v' H'. destruct (wf_valid _ _ W k' v' H') as (y & Hy & _).
      change (heap g) with (heap r2). rewrite Hy. eauto.
    + intros k1 v1 k2 w1 x. apply (wf_disj _ _ W).
  - apply assign_names_NoDup, generateNames_NoDup.
  - exact F3.
  - intros x Hx. rewrite (F4 x Hx).
    change (patched g) with (patched r2).
    rewrite (walks_patched _ _ _ H1 H2). apply lookup_empty.
Qed.

(** ** Completion and consistent renaming *)



(** * Further properties of the pass *)

(** ** Outcomes of [execute] *)

(** X1.  [execute] has three outcomes only: it completes, or the
    declaration walk raised DuplicateDeclaration, or the renaming walk ran
    out of names.  The error of [collectReferences] (no scope found for a
    node) is never raised. *)
Theorem execute_raises_only_duplicate_or_exhaustion ast :
  (exists R, execute ast = Ok R)
  \/ (exists nm, execute ast = Err (DuplicateDeclaration nm)
                 /\ collectDeclarations ast new_VariableRenamer
                    = Err (DuplicateDeclaration nm))
  \/ execute ast = Err NameExhaustion.
Proof.
  destruct (execute_outcome ast) as (He & Ho).
  destruct (collectDeclarations ast new_VariableRenamer) as [r1|e] eqn:E.
  - destruct (Ho r1 eq_refl) as (r2 & _ & Hok & Hex).
    destruct (le_lt_dec (length (eligible (allEntries r2)))
                        (length (variableNames (generateNames r2)))) as [Hl|Hl].
    + left. exact (Hok Hl).
    + right. right. exact (Hex Hl).
  - destruct (He e eq_refl) as (Hx & nm & ->). right. left. exists nm. auto.
Qed.

(** ** One scope per scope-introducing node *)

Lemma declEnter_opens_type k n r r' :
  isScopeNode n = true -> declEnter k n r = Ok r' ->
  opens k (scopeTypeOf n) r r'.
Proof.
  intros Hn H. case_node n; try discriminate; simpl in H; cbn [scopeTypeOf].
  - destruct (declare _ _ _ _ _) as [r1|] eqn:E; [|discriminate]. simpl in H.
    eapply keeps_opens; [eapply keeps_declare; exact E|].
    eapply opens_enterFunction; exact H.
  - eapply opens_enterFunction; exact H.
  - eapply opens_enterFunction; exact H.
  - assert (exists r1, keeps r r1 /\ r' = enterBlock k r1) as (r1 & K & ->).
    { destruct bd as [bd|];
        [|exists r; split; [apply keeps_refl|simpl in H; congruence]].
      case_node bd;
        try (exists r; split; [apply keeps_refl|simpl in H; congruence]).
      destruct (declare _ _ _ _ _) as [r1|] eqn:E; [|discriminate].
      exists r1. split; [eapply keeps_declare; exact E|simpl in H; congruence]. }
    eapply keeps_opens; [exact K|apply opens_enterBlock].
  - injection H as <-. apply opens_enterBlock.
  - injection H as <-. apply opens_enterBlock.
Qed.

Lemma openShape_nodes k ty c F :
  (fun x => (node x, type x)) <$> openShape k ty c F
  = ((fun x => (node x, type x)) <$> F) ++ [(k, ty)].
Proof.
  unfold openShape. rewrite fmap_app. f_equal.
  rewrite (list_fmap_alter _ _ id) by (apply Forall_forall; now intros x _).
  apply list_eq. intros i. rewrite list_lookup_alter.
  destruct (decide (c = i)) as [->|]; [|reflexivity].
  now destruct (_ !! i).
Qed.

Lemma declRun_scopeNodes es : forall r r',
  run declStep es r = Ok r' ->
  (fun x => (node x, type x)) <$> shapes r'
  = ((fun x => (node x, type x)) <$> shapes r) ++ scopeNodes es.
Proof.
  induction es as [|e es IH]; intros r r' H; simpl in H.
  - injection H as <-. simpl. now rewrite app_nil_r.
  - destruct (declStep e r) as [r1|] eqn:E; [|discriminate]. cbn [bind] in H.
    rewrite (IH _ _ H). unfold scopeNodes at 2. cbn [flat_map].
    fold (scopeNodes es). rewrite app_assoc. f_equal.
    destruct e as [k n|k n]; simpl in E.
    + destruct (isScopeNode n) eqn:En.
      * destruct (declEnter_opens_type _ _ _ _ En E) as (_ & -> & _).
        apply openShape_nodes.
      * destruct (declEnter_keeps _ _ _ _ En E) as (_ & -> & _).
        now rewrite app_nil_r.
    + injection E as <-. destruct (leave_frame k r) as (-> & _).
      now rewrite app_nil_r.
Qed.

(** X2.  The declaration walk creates exactly one scope for each
    FunctionDeclaration, FunctionExpression, ArrowExpression, CatchClause,
    ForStatement and BlockStatement node, after the Global scope of the
    root, in the order in which the traversal enters these nodes; the scope
    is of type Function for the three function nodes and Other for the
    rest.  The walk ends with its cursor back on the Global scope. *)
Theorem one_scope_per_scope_node ast r1 :
  collectDeclarations ast new_VariableRenamer = Ok r1 ->
  (fun x => (node x, type x)) <$> scopes r1
  = (0, Global) :: scopeNodes (events 0 ast)
  /\ scope r1 = globalScope.
Proof.
  intros H. split.
  - pose proof (declRun_scopeNodes _ _ _ H) as E.
    unfold shapes in E. rewrite <- !list_fmap_compose in E.
    exact E.
  - exact (proj1 (walk_from_root ast new_VariableRenamer r1 eq_refl H)).
Qed.

Lemma one_scope_per_scope_node_witness :
  exists r1,
    collectDeclarations
      (Script [FunctionDeclaration "f" [BindingIdentifier "x"]
                 [BlockStatement [IdentifierExpression "x"]];
               CatchClause None []]) new_VariableRenamer = Ok r1
    /\ (fun x => (node x, type x)) <$> scopes r1
       = (0, Global) :: scopeNodes (events 0
           (Script [FunctionDeclaration "f" [BindingIdentifier "x"]
                      [BlockStatement [IdentifierExpression "x"]];
                    CatchClause None []]))
    /\ scopeNodes (events 0
           (Script [FunctionDeclaration "f" [BindingIdentifier "x"]
                      [BlockStatement [IdentifierExpression "x"]];
                    CatchClause None []]))
       = [(1, Function); (4, Other); (6, Other)].
Proof.
  eexists. 
  assert (H : collectDeclarations
      (Script [FunctionDeclaration "f" [BindingIdentifier "x"]
                 [BlockStatement [IdentifierExpression "x"]];
               CatchClause None []]) new_VariableRenamer = Ok _)
    by (vm_compute; reflexivity).
  split; [exact H|]. split.
  - exact (proj1 (one_scope_per_scope_node _ _ H)).
  - vm_compute. reflexivity.
Defined.

(** ** The order of the renaming walk *)

(** X3.  Started on the Global scope of a tree built by the declaration
    walk, [renameVariables] treats the table entries scope by scope in the
    order in which the scopes were created, each table in insertion order:
    the recursion over the child scopes is one pass over all tables. *)
Theorem renaming_walk_follows_creation_order ast r1 r :
  collectDeclarations ast new_VariableRenamer = Ok r1 ->
  scopes r = scopes r1 ->
  renameVariables (length (scopes r)) globalScope r
  = renameTable (tableEntries r) r.
Proof.
  intros H1 Hs. rewrite <- allEntries_tableEntries.
  exact (renameVariables_all ast r1 r1 r H1 eq_refl Hs).
Qed.

Lemma renaming_walk_follows_creation_order_witness :
  exists r1,
    collectDeclarations
      (Script [FunctionDeclaration "_0xf" [BindingIdentifier "_0xa"] [];
               VariableDeclaration var
                 [VariableDeclarator (BindingIdentifier "_0xb") None]])
      new_VariableRenamer = Ok r1
    /\ renameVariables (length (scopes r1)) globalScope r1
       = renameTable (tableEntries r1) r1
    /\ tableEntries r1
       = [("_0xf", 0); ("_0xb", 3); ("_0xa", 1); ("arguments", 2)].
Proof.
  eexists.
  assert (H : collectDeclarations
      (Script [FunctionDeclaration "_0xf" [BindingIdentifier "_0xa"] [];
               VariableDeclaration var
                 [VariableDeclarator (BindingIdentifier "_0xb") None]])
      new_VariableRenamer = Ok _)
    by (vm_compute; reflexivity).
  split; [exact H|]. split.
  - exact (renaming_walk_follows_creation_order _ _ _ H eq_refl).
  - vm_compute. reflexivity.
Defined.

(** ** The bookkeeping after the two walks *)

(** X4.  After the declaration and the reference walk no variable is
    registered in two table entries, every registered variable is a live
    object whose name is the key it is registered under, no tree node is
    recorded as a declaration or reference of two different registered
    variables, the keys of each table are distinct, and every registered
    name that is not eligible for renaming is recorded as used, except
    [arguments]. *)
Theorem walks_keep_bookkeeping_consistent ast r1 r2 :
  collectDeclarations ast new_VariableRenamer = Ok r1 ->
  collectReferences ast r1 = Ok r2 ->
  NoDup (snd <$> tableEntries r2)
  /\ (forall k v, (k, v) ∈ tableEntries r2 ->
        exists x, heap r2 !! v = Some x /\ name x = k)
  /\ (forall k1 v k2 w x,
        (k1, v) ∈ tableEntries r2 -> (k2, w) ∈ tableEntries r2 ->
        x ∈ sitesOf r2 v -> x ∈ sitesOf r2 w -> v = w)
  /\ (forall s x, scopes r2 !! s = Some x -> NoDup (fst <$> variables x))
  /\ (forall k v, (k, v) ∈ tableEntries r2 -> shouldRename k = false ->
        k ∈ usedVariableNames r2 \/ k = "arguments").
Proof.
  intros H1 H2. destruct (WF_walks _ _ _ H1 H2) as (X & W & U).
  split; [apply W|]. split; [apply W|]. split; [apply W|].
  split; [apply W|exact U].
Qed.

Lemma walks_keep_bookkeeping_consistent_witness :
  exists r1 r2,
    collectDeclarations
      (Script [FunctionDeclaration "f" [BindingIdentifier "x"]
                 [IdentifierExpression "x"; IdentifierExpression "f"]])
      new_VariableRenamer = Ok r1
    /\ collectReferences
      (Script [FunctionDeclaration "f" [BindingIdentifier "x"]
                 [IdentifierExpression "x"; IdentifierExpression "f"]])
      r1 = Ok r2
    /\ NoDup (snd <$> tableEntries r2).
Proof.
  eexists. eexists.
  split; [vm_compute; reflexivity|]. split; [vm_compute; reflexivity|].
  refine (proj1 (walks_keep_bookkeeping_consistent
    (Script [FunctionDeclaration "f" [BindingIdentifier "x"]
               [IdentifierExpression "x"; IdentifierExpression "f"]])
    _ _ _ _)).
  - vm_compute; reflexivity.
  - vm_compute; reflexivity.
Defined.

(** ** The shape of generated names *)

(** X5.  Whatever names are in use, [generateNames] offers at most
    26 + 26^2 + 26^3 = 18278 names, each made of one to three letters of
    the alphabet a-z; none of them is itself eligible for renaming. *)
Theorem generated_names_are_short_words r :
  length (variableNames (generateNames r)) <= 18278
  /\ forall nm, nm ∈ variableNames (generateNames r) ->
       1 <= String.length nm <= 3
       /\ forallb isLetter (list_ascii_of_string nm) = true
       /\ shouldRename nm = false.
Proof.
  split.
  - unfold generateNames, setNames; cbn [variableNames].
    etransitivity; [apply List.filter_length_le|].
    assert (E : length candidates = 18278) by (vm_compute; reflexivity).
    rewrite E. constructor.
  - intros nm H. pose proof (generateNames_candidates _ _ H) as Hc.
    assert (Hall : forallb (fun x =>
              (Nat.leb 1 (String.length x) && Nat.leb (String.length x) 3)
              && forallb isLetter (list_ascii_of_string x)) candidates = true)
      by (vm_compute; reflexivity).
    rewrite forallb_forall in Hall. apply list_elem_of_In in Hc.
    specialize (Hall nm Hc).
    apply andb_true_iff in Hall as [Hl Hf]. apply andb_true_iff in Hl as [H1 H3].
    apply Nat.leb_le in H1, H3.
    split; [lia|]. split; [exact Hf|].
    exact (generated_names_not_eligible _ _ H).
Qed.

Lemma generated_names_are_short_words_witness :
  "ab" ∈ variableNames (generateNames new_VariableRenamer)
  /\ 1 <= String.length "ab" <= 3.
Proof.
  assert (H : "ab" ∈ variableNames (generateNames new_VariableRenamer)).
  { apply (bool_decide_unpack _). vm_compute. exact I. }
  split; [exact H|].
  exact (proj1 (proj2 (generated_names_are_short_words new_VariableRenamer) _ H)).
Defined.

(** ** Where a fresh name is registered *)

Lemma getVariable_fresh y r :
  getVariable (setHeap (fun h => h ++ [y]) r) (length (heap r)) = y.
Proof.
  unfold getVariable. cbn. rewrite list_lookup_middle by reflexivity.
  reflexivity.
Qed.




(** ** The scope of a function expression *)

Lemma tableGet_app nm v t l :
  tableGet nm t = Some v -> tableGet nm (t ++ l) = Some v.
Proof.
  induction t as [|[k w] t IH]; simpl; [discriminate|].
  destruct (String.eqb k nm); [trivial|exact IH].
Qed.

Lemma tableGet_addVariable s v c nm w r r' :
  addVariable s v r = Ok r' ->
  tableGet nm (variables (getScope r c)) = Some w ->
  tableGet nm (variables (getScope r' c)) = Some w.
Proof.
  unfold addVariable. intros H Hw.
  destruct (tableGet _ _) eqn:E.
  - destruct (_ || _); [discriminate|]. injection H as <-. exact Hw.
  - injection H as <-. unfold getScope in *. cbn.
    rewrite list_lookup_alter. destruct (decide (s = c)) as [->|]; [|exact Hw].
    destruct (scopes r !! c) as [x|]; cbn in *; [|discriminate].
    rewrite (tableSet_fresh _ _ _ E). now apply tableGet_app.
Qed.

Lemma tableGet_declare s nm0 k site c nm w r r' :
  declare s nm0 k site r = Ok r' ->
  tableGet nm (variables (getScope r c)) = Some w ->
  tableGet nm (variables (getScope r' c)) = Some w.
Proof.
  unfold declare, new_Variable. intros H Hw.
  destruct (addVariable _ _ _) as [r3|] eqn:E; [|discriminate].
  injection H as <-. unfold getScope. rewrite scopes_addName.
  apply (tableGet_addVariable _ _ _ _ _ _ _ E). exact Hw.
Qed.

Lemma tableGet_declareParams ps : forall id c nm w r r',
  declareParams id ps r = Ok r' ->
  tableGet nm (variables (getScope r c)) = Some w ->
  tableGet nm (variables (getScope r' c)) = Some w.
Proof.
  induction ps as [|p ps IH]; intros id c nm w r r' H Hw; simpl in H.
  - now injection H as <-.
  - destruct (match p with BindingIdentifier _ => _ | _ => _ end) as [r1|] eqn:E;
      [|discriminate]. simpl in H. apply (IH _ _ _ _ _ _ H).
    destruct p; try (now injection E as <-).
    now apply (tableGet_declare _ _ _ _ _ _ _ _ _ E).
Qed.

Lemma addVariable_registers s v r r' :
  addVariable s v r = Ok r' -> s < length (scopes r) ->
  is_Some (tableGet (name (getVariable r v)) (variables (getScope r' s))).
Proof.
  unfold addVariable. intros H Hs.
  destruct (tableGet _ _) as [e|] eqn:E.
  - destruct (_ || _); [discriminate|]. injection H as <-.
    unfold getScope in *. cbn. rewrite E. eauto.
  - injection H as <-. unfold getScope in *. cbn.
    rewrite list_lookup_alter_eq.
    destruct (lookup_lt_is_Some_2 _ _ Hs) as [x Hx]. rewrite Hx in *. cbn in *.
    rewrite (tableGet_tableSet _ _ _ E). eauto.
Qed.

Lemma getScope_new_Scope k ty r :
  getScope (snd (new_Scope k ty (scope r) r)) (length (scopes r))
  = mkScope k ty (Some (scope r)) [] [].
Proof.
  unfold getScope, new_Scope. cbn.
  rewrite list_lookup_middle by now rewrite length_alter. reflexivity.
Qed.

(** X7.  Entering a named function expression opens a Function scope for
    it under the scope the walk is in and moves the walk there.  The name
    of the function is registered in this new scope with the name node as
    a declaration site, and so is [arguments]; the table of the enclosing
    scope is left as it was. *)
Theorem function_expression_name_lands_in_own_scope k nm ps b r r' :
  declEnter k (FunctionExpression (Some nm) ps b) r = Ok r' ->
  scope r < length (scopes r) ->
  scope r' = length (scopes r)
  /\ shapes r' !! scope r' = Some (mkScope k Function (Some (scope r)) [] [])
  /\ variables (getScope r' (scope r)) = variables (getScope r (scope r))
  /\ (exists v x, tableGet nm (variables (getScope r' (scope r'))) = Some v
                  /\ heap r' !! v = Some x /\ kind x = var
                  /\ S k ∈ declarations x)
  /\ is_Some (tableGet "arguments" (variables (getScope r' (scope r')))).
Proof.
  intros H Hc. cbn [declEnter] in H.
  pose proof (opens_enterFunction _ _ _ _ H) as (S2 & Sh2 & _).
  pose proof (table_enterFunction _ _ _ _ H Hc) as T0.
  split; [exact S2|]. split.
  { rewrite S2, Sh2, <- length_shapes. apply openShape_lookup_new. }
  split; [exact T0|]. rewrite S2.
  unfold enterFunction in H.
  pose proof (getScope_new_Scope k Function r) as G.
  destruct (new_Scope k Function (scope r) r) as [s r1] eqn:En.
  assert (Hs : s = length (scopes r)) by (unfold new_Scope in En; congruence).
  assert (L1 : length (scopes r1) = S (length (scopes r))).
  { unfold new_Scope in En. injection En as _ <-. cbn.
    rewrite length_app, length_alter. simpl. lia. }
  cbn [snd] in G. subst s.
  set (s := length (scopes r)) in *.
  set (r2 := setScope s r1) in *.
  destruct (declare s nm var (S k) r2) as [r3|] eqn:E3; [|discriminate].
  cbn [bind] in H.
  destruct (declareParams (S (S k)) ps r3) as [r4|] eqn:E4; [|discriminate].
  cbn [bind] in H. unfold new_Variable in H.
  destruct (declare_binds s nm (S k) r2 r3 E3) as (v & x & T3 & Hx & Kx & Dx).
  { change (scopes r2) with (scopes r1). lia. }
  { intros v. change (getScope r2 s) with (getScope r1 s). rewrite G.
    discriminate. }
  pose proof (keeps_declare _ _ _ _ _ _ E3) as (C3 & Sh3 & _).
  pose proof (keeps_declareParams _ _ _ _ E4) as (C4 & Sh4 & _).
  assert (L4 : length (scopes r4) = S (length (scopes r))).
  { transitivity (length (scopes r2)); [|exact L1].
    rewrite <- !length_shapes. now rewrite Sh4, Sh3. }
  assert (S4 : scope r4 = s) by (rewrite C4, C3; reflexivity).
  set (r5 := setHeap _ r4) in H.
  assert (S5 : scope r5 = s) by exact S4.
  rewrite S5 in H.
  assert (G5 : getVariable r5 (length (heap r4)) = mkVariable "arguments" var [] [])
    by apply getVariable_fresh.
  split.
  - pose proof (tableGet_declareParams _ _ _ _ _ _ _ E4 T3) as T4.
    pose proof (tableGet_addVariable _ _ s nm v _ _ H T4) as T5.
    destruct (heapGrows_declareParams _ _ _ _ E4 v x Hx)
      as (y & Hy & _ & Ky & Dy & _).
    assert (Hy5 : heap r5 !! v = Some y).
    { unfold r5. cbn. apply lookup_app_l_Some. exact Hy. }
    destruct (heapGrows_addVariable _ _ _ _ H v y Hy5)
      as (z & Hz & _ & Kz & Dz & _).
    exists v, z. split; [exact T5|]. split; [exact Hz|].
    split; [congruence|].
    destruct Dy as [l1 Ey]. destruct Dz as [l2 Ez]. rewrite Ez, Ey.
    apply elem_of_app. left. apply elem_of_app. now left.
  - pose proof (addVariable_registers _ _ _ _ H) as R. rewrite G5 in R.
    apply R. change (scopes r5) with (scopes r4). unfold s. lia.
Qed.

Lemma function_expression_name_lands_in_own_scope_witness :
  exists r',
    declEnter 1 (FunctionExpression (Some "f") [BindingIdentifier "f"] [])
              new_VariableRenamer = Ok r'
    /\ scope r' = length (scopes new_VariableRenamer).
Proof.
  eexists.
  assert (H : declEnter 1 (FunctionExpression (Some "f") [BindingIdentifier "f"] [])
                new_VariableRenamer = Ok _) by (vm_compute; reflexivity).
  split; [exact H|].
  refine (proj1 (function_expression_name_lands_in_own_scope
                   1 "f" [BindingIdentifier "f"] [] new_VariableRenamer _ H _)).
  vm_compute. lia.
Defined.

(** ** The scope of an arrow function *)

Lemma addVariable_entries s v c k w r r' :
  addVariable s v r = Ok r' ->
  (k, w) ∈ variables (getScope r' c) ->
  (k, w) ∈ variables (getScope r c)
  \/ (k = name (getVariable r v) /\ w = v /\ c = s).
Proof.
  unfold addVariable. intros H Hin.
  destruct (tableGet _ _) eqn:E.
  - destruct (_ || _); [discriminate|]. injection H as <-. now left.
  - injection H as <-. unfold getScope in *. cbn in Hin.
    rewrite list_lookup_alter in Hin.
    destruct (decide (s = c)) as [->|]; [|now left].
    destruct (scopes r !! c) as [x|]; cbn in *; [|now left].
    rewrite (tableSet_fresh _ _ _ E) in Hin.
    apply elem_of_app in Hin as [Hin|Hin]; [now left|].
    apply list_elem_of_singleton in Hin. injection Hin as -> ->. now right.
Qed.

Lemma declare_entries s nm kd site c k w r r' :
  declare s nm kd site r = Ok r' ->
  (k, w) ∈ variables (getScope r' c) ->
  (k, w) ∈ variables (getScope r c) \/ (k = nm /\ c = s).
Proof.
  unfold declare, new_Variable. intros H Hin.
  destruct (addVariable _ _ _) as [r3|] eqn:E; [|discriminate].
  injection H as <-. unfold getScope in Hin. rewrite scopes_addName in Hin.
  destruct (addVariable_entries _ _ _ _ _ _ _ E Hin) as [Ho|(-> & _ & ->)].
  - left. exact Ho.
  - right. split; [|reflexivity]. unfold pushDeclaration, getVariable. cbn.
    rewrite list_lookup_alter_eq, list_lookup_middle by reflexivity.
    reflexivity.
Qed.

Lemma declareParams_entries ps : forall id c k w r r',
  declareParams id ps r = Ok r' ->
  (k, w) ∈ variables (getScope r' c) ->
  (k, w) ∈ variables (getScope r c)
  \/ (BindingIdentifier k ∈ ps /\ c = scope r).
Proof.
  induction ps as [|p ps IH]; intros id c k w r r' H Hin; simpl in H.
  - injection H as <-. now left.
  - destruct (match p with BindingIdentifier _ => _ | _ => _ end) as [r1|] eqn:E;
      [|discriminate]. simpl in H.
    assert (Hc : scope r1 = scope r).
    { destruct p; try (now injection E as <-).
      apply (keeps_declare _ _ _ _ _ _ E). }
    destruct (IH _ _ _ _ _ _ H Hin) as [Ho|(Hp & ->)].
    + destruct p; try (injection E as <-; now left).
      destruct (declare_entries _ _ _ _ _ _ _ _ _ E Ho) as [Ho'|(-> & ->)].
      * now left.
      * right. split; [constructor|reflexivity].
    + right. split; [now right|exact Hc].
Qed.

(** X8.  Entering an arrow function opens a Function scope whose table
    holds the parameters that are plain identifiers and nothing else: no
    [arguments] variable is made for an arrow function.  The table of the
    enclosing scope is left as it was. *)
Theorem arrow_function_scope_holds_parameters_only k ps b r r' :
  declEnter k (ArrowExpression ps b) r = Ok r' ->
  scope r < length (scopes r) ->
  scope r' = length (scopes r)
  /\ shapes r' !! scope r' = Some (mkScope k Function (Some (scope r)) [] [])
  /\ variables (getScope r' (scope r)) = variables (getScope r (scope r))
  /\ (forall nm v, (nm, v) ∈ variables (getScope r' (scope r')) ->
        BindingIdentifier nm ∈ ps)
  /\ length (heap r') <= length (heap r) + length ps.
Proof.
  intros H Hc. cbn [declEnter] in H.
  pose proof (opens_enterFunction _ _ _ _ H) as (S2 & Sh2 & _).
  pose proof (table_enterFunction _ _ _ _ H Hc) as T0.
  split; [exact S2|]. split.
  { rewrite S2, Sh2, <- length_shapes. apply openShape_lookup_new. }
  split; [exact T0|]. rewrite S2.
  unfold enterFunction in H.
  pose proof (getScope_new_Scope k Function r) as G.
  destruct (new_Scope k Function (scope r) r) as [s r1] eqn:En.
  assert (Hs : s = length (scopes r)) by (unfold new_Scope in En; congruence).
  assert (Hh : heap r1 = heap r) by (unfold new_Scope in En; now injection En as _ <-).
  cbn [snd] in G. subst s. cbn [bind] in H.
  destruct (declareParams (S k) ps _) as [r4|] eqn:E4; [|discriminate].
  cbn [bind] in H. injection H as <-. split.
  - intros nm v Hin.
    destruct (declareParams_entries _ _ _ _ _ _ _ E4 Hin) as [Ho|[Hp _]];
      [|exact Hp].
    change (getScope (setScope (length (scopes r)) r1) (length (scopes r)))
      with (getScope r1 (length (scopes r))) in Ho.
    rewrite G in Ho. cbn in Ho. now apply elem_of_nil in Ho.
  - rewrite <- Hh.
    change (heap r1) with (heap (setScope (length (scopes r)) r1)).
    clear -E4. revert E4. generalize (setScope (length (scopes r)) r1) as r0.
    generalize (S k) as id.
    induction ps as [|p ps IH]; intros id r0 E4; simpl in E4.
    + injection E4 as <-. simpl. lia.
    + destruct (match p with BindingIdentifier _ => _ | _ => _ end) as [r1'|] eqn:E;
        [|discriminate]. simpl in E4. specialize (IH _ _ E4).
      assert (length (heap r1') <= S (length (heap r0))).
      { destruct p; try (injection E as <-; lia).
        unfold declare, new_Variable in E.
        destruct (addVariable _ _ _) as [r3|] eqn:Ea; [|discriminate].
        injection E as <-. rewrite heap_addName.
        unfold addVariable in Ea. destruct (tableGet _ _).
        - destruct (_ || _); [discriminate|]. injection Ea as <-. cbn.
          rewrite !length_alter, length_app. simpl. lia.
        - injection Ea as <-. cbn. rewrite length_alter, length_app. simpl. lia. }
      simpl. lia.
Qed.

Lemma arrow_function_scope_holds_parameters_only_witness :
  exists r',
    declEnter 1 (ArrowExpression [BindingIdentifier "x"] []) new_VariableRenamer
    = Ok r'
    /\ scope r' = length (scopes new_VariableRenamer).
Proof.
  eexists.
  assert (H : declEnter 1 (ArrowExpression [BindingIdentifier "x"] [])
                new_VariableRenamer = Ok _) by (vm_compute; reflexivity).
  split; [exact H|].
  refine (proj1 (arrow_function_scope_holds_parameters_only
                   1 [BindingIdentifier "x"] [] new_VariableRenamer _ H _)).
  vm_compute. lia.
Defined.

(** ** Programs without eligible names *)

Lemma patch_kids_id m l :
  Forall (fun c => forall k, patch m k c = c) l ->
  forall k,
    (fix kids (k : NodeId) (l : list Node) : list Node :=
       match l with
       | [] => []
       | c :: l' => patch m k c :: kids (k + size c) l'
       end) k l = l.
Proof.
  induction 1 as [|c l Hc Hl IH]; intros k; [reflexivity|].
  rewrite Hc, IH. reflexivity.
Qed.

Lemma patch_empty n : forall k, patch ∅ k n = n.
Proof.
  induction n as [n IH] using Node_childNodes_ind. intros k.
  destruct n as [ss|nm|nm|nm ps b|[nm|] ps b|ps b|[bd|] b|ps|ss|kd ds|bd [i|]|cs];
    cbn [childNodes opt_list fmap option_fmap option_map] in IH; cbn [patch];
    rewrite ?lookup_empty; cbn [default];
    repeat match goal with
    | H : Forall _ (_ :: _) |- _ => apply Forall_cons in H as [? ?]
    | H : Forall _ (_ ++ _) |- _ => apply Forall_app in H as [? ?]
    end;
    rewrite ?patch_kids_id by assumption;
    try reflexivity.
  all: repeat match goal with
    | H : forall k, patch ∅ k ?c = ?c |- _ => rewrite !H; clear H
    end; try reflexivity.
Qed.

Lemma assign_nil t names : eligible t = [] -> assign t names = [].
Proof.
  induction t as [|[k v] t IH]; simpl; [reflexivity|].
  destruct (shouldRename k); [discriminate|exact IH].
Qed.

(** X9.  When no variable is registered under a name that is eligible
    for renaming, [execute] completes and the tree is left exactly as it
    was: no node is written. *)
Theorem program_without_eligible_names_is_unchanged ast r1 r2 :
  collectDeclarations ast new_VariableRenamer = Ok r1 ->
  collectReferences ast r1 = Ok r2 ->
  eligible (tableEntries r2) = [] ->
  result ast = Ok ast
  /\ exists R, execute ast = Ok R /\ patched R = ∅
       /\ forall v, getVariable R v = getVariable r2 v.
Proof.
  intros H1 H2 He.
  destruct (execute_outcome ast) as (_ & Ho).
  destruct (Ho r1 H1) as (r2' & H2' & Hok & _). clear Ho.
  rewrite H2 in H2'. injection H2' as <-.
  rewrite allEntries_tableEntries, He in Hok.
  destruct (Hok (Nat.le_0_l _)) as (R & HR).
  destruct (execute_renaming _ _ _ _ H1 H2 HR) as (_ & _ & _ & _ & _ & Hk & Hp).
  rewrite (assign_nil _ _ He) in Hp, Hk.
  assert (Hm : patched R = ∅).
  { apply map_eq. intros x. rewrite lookup_empty. apply Hp.
    intros v nm Hin. now apply elem_of_nil in Hin. }
  split.
  - unfold result. rewrite HR. cbn [bind]. rewrite Hm, patch_empty. reflexivity.
  - exists R. split; [exact HR|]. split; [exact Hm|].
    intros v. apply Hk. cbn. apply not_elem_of_nil.
Qed.

Lemma program_without_eligible_names_is_unchanged_witness :
  result (Script [FunctionDeclaration "f" [BindingIdentifier "x"]
                    [IdentifierExpression "x"; IdentifierExpression "y"]])
  = Ok (Script [FunctionDeclaration "f" [BindingIdentifier "x"]
                  [IdentifierExpression "x"; IdentifierExpression "y"]]).
Proof.
  refine (proj1 (program_without_eligible_names_is_unchanged
    (Script [FunctionDeclaration "f" [BindingIdentifier "x"]
               [IdentifierExpression "x"; IdentifierExpression "y"]])
    _ _ _ _ _)).
  - vm_compute; reflexivity.
  - vm_compute; reflexivity.
  - vm_compute; reflexivity.
Defined.

(** * Resolution after renaming *)

(** ** The walks as sequences of operations *)

Lemma runOps_app os1 os2 r :
  runOps (os1 ++ os2) r = let* r1 := runOps os1 r in runOps os2 r1.
Proof.
  revert r. induction os1 as [|o os1 IH]; intros r; simpl; [reflexivity|].
  destruct (opStep o r); simpl; [apply IH|reflexivity].
Qed.

Lemma declareParams_ops ps : forall id r,
  declareParams id ps r = runOps (paramOps id ps) r.
Proof.
  induction ps as [|p ps IH]; intros id r; simpl; [reflexivity|].
  rewrite runOps_app.
  destruct p; simpl; try apply IH.
  destruct (declare _ _ _ _ _); simpl; [apply IH|reflexivity].
Qed.

Lemma declareDeclarators_ops kd ds : forall id r,
  declareDeclarators kd id ds r = runOps (declaratorOps kd id ds) r.
Proof.
  induction ds as [|d ds IH]; intros id r; [reflexivity|].
  destruct d as [| | | | | | | | | |bd i|]; try reflexivity.
  destruct bd; try reflexivity.
  cbn [declareDeclarators declaratorOps runOps opStep].
  match goal with |- bind ?a _ = bind ?b _ => change b with a; destruct a end;
    simpl; [apply IH|reflexivity].
Qed.

Lemma declStep_ops e r : declStep e r = runOps (declOps e) r.
Proof.
  destruct e as [k n|k n]; [|reflexivity]. simpl.
  destruct n as [ss|nm|nm|nm ps b|[nm|] ps b|ps b|[bd|] b|ps|ss|kd ds|bd i|cs];
    try reflexivity.
  - cbn [declEnter runOps opStep].
    destruct (declare _ _ _ _ _) as [r1|]; [|reflexivity]. cbn [bind].
    unfold enterFunction. cbn [runOps opStep].
    destruct (new_Scope _ _ _ _) as [s r2]. cbn [bind].
    rewrite runOps_app, declareParams_ops.
    destruct (runOps (paramOps _ _) _) as [r4|]; [|reflexivity]. cbn [bind].
    cbn [runOps opStep]. destruct (new_Variable _ _ _) as [v r5].
    destruct (addVariable _ _ _); reflexivity.
  - cbn [declEnter runOps opStep]. unfold enterFunction.
    destruct (new_Scope _ _ _ _) as [s r2]. cbn [bind].
    change (scope (setScope s r2)) with s.
    destruct (declare _ _ _ _ _) as [r3|]; [|reflexivity]. cbn [bind].
    rewrite runOps_app, declareParams_ops.
    destruct (runOps (paramOps _ _) _) as [r4|]; [|reflexivity]. cbn [bind].
    cbn [runOps opStep]. destruct (new_Variable _ _ _) as [v r5].
    destruct (addVariable _ _ _); reflexivity.
  - cbn [declEnter runOps opStep]. unfold enterFunction.
    destruct (new_Scope _ _ _ _) as [s r2]. cbn [bind].
    rewrite runOps_app, declareParams_ops.
    destruct (runOps (paramOps _ _) _) as [r4|]; [|reflexivity]. cbn [bind].
    cbn [runOps opStep]. destruct (new_Variable _ _ _) as [v r5].
    destruct (addVariable _ _ _); reflexivity.
  - cbn [declEnter runOps opStep]. unfold enterFunction.
    destruct (new_Scope _ _ _ _) as [s r2]. cbn [bind].
    rewrite declareParams_ops.
    destruct (runOps (paramOps _ _) _) as [r4|]; reflexivity.
  - destruct bd; reflexivity.
  - cbn [declEnter declOps]. apply declareDeclarators_ops.
Qed.

Lemma refStep_ops e r : refStep e r = runOps (refOps e) r.
Proof.
  destruct e as [k n|k n]; [|reflexivity]. simpl. unfold refEnter.
  destruct (isScopeNode n).
  - simpl. destruct (findChild r k); reflexivity.
  - destruct n as [| |nm| | | | | | | | |]; try reflexivity.
    cbn [runOps opStep].
    destruct (lookupVariable r (scope r) nm); reflexivity.
Qed.

Lemma run_declOps es : forall r,
  run declStep es r = runOps (flat_map declOps es) r.
Proof.
  induction es as [|e es IH]; intros r; simpl; [reflexivity|].
  rewrite runOps_app, declStep_ops.
  destruct (runOps (declOps e) r); simpl; [apply IH|reflexivity].
Qed.

Lemma run_refOps es : forall r,
  run refStep es r = runOps (flat_map refOps es) r.
Proof.
  induction es as [|e es IH]; intros r; simpl; [reflexivity|].
  rewrite runOps_app, refStep_ops.
  destruct (runOps (refOps e) r); simpl; [apply IH|reflexivity].
Qed.

(** ** The traversal of the renamed tree *)

Lemma patch_eq m k n :
  patch m k n
  = match n with
    | Script ss => Script (patchList m (S k) ss)
    | BindingIdentifier nm => BindingIdentifier (default nm (m !! k))
    | IdentifierExpression nm => IdentifierExpression (default nm (m !! k))
    | FunctionDeclaration nm ps b =>
        FunctionDeclaration (default nm (m !! S k)) (patchList m (S (S k)) ps)
                            (patchList m (S (S k) + sizes ps) b)
    | FunctionExpression (Some x) ps b =>
        FunctionExpression (Some (default x (m !! S k)))
                           (patchList m (S (S k)) ps)
                           (patchList m (S (S k) + sizes ps) b)
    | FunctionExpression None ps b =>
        FunctionExpression None (patchList m (S k) ps)
                           (patchList m (S k + sizes ps) b)
    | ArrowExpression ps b =>
        ArrowExpression (patchList m (S k) ps) (patchList m (S k + sizes ps) b)
    | CatchClause (Some c) b =>
        CatchClause (Some (patch m (S k) c)) (patchList m (S k + size c) b)
    | CatchClause None b => CatchClause None (patchList m (S k) b)
    | ForStatement ps => ForStatement (patchList m (S k) ps)
    | BlockStatement ss => BlockStatement (patchList m (S k) ss)
    | VariableDeclaration kd ds => VariableDeclaration kd (patchList m (S k) ds)
    | VariableDeclarator bd i =>
        VariableDeclarator (patch m (S k) bd)
          match i with Some c => Some (patch m (S k + size bd) c) | None => None end
    | OtherNode cs => OtherNode (patchList m (S k) cs)
    end.
Proof. destruct n as [| | | |[|] ? ?| |[|] ?| | | | |]; reflexivity. Qed.

Lemma patchList_cons m k c l :
  patchList m k (c :: l) = patch m k c :: patchList m (k + size c) l.
Proof. reflexivity. Qed.

Lemma sizes_patchList m l :
  Forall (fun c => forall k, size (patch m k c) = size c) l ->
  forall k, sizes (patchList m k l) = sizes l.
Proof.
  induction 1 as [|c l Hc Hl IH]; intros k; [reflexivity|].
  rewrite patchList_cons. cbn [sizes]. now rewrite Hc, IH.
Qed.

Lemma size_patch m n : forall k, size (patch m k n) = size n.
Proof.
  induction n as [n IH] using Node_childNodes_ind. intros k.
  rewrite patch_eq.
  destruct n as [ss|nm|nm|nm ps b|[nm|] ps b|ps b|[bd|] b|ps|ss|kd ds|bd [i|]|cs];
    cbn [childNodes opt_list fmap option_fmap option_map] in IH;
    repeat match goal with
    | H : Forall _ (_ :: _) |- _ => apply Forall_cons in H as [? ?]
    | H : Forall _ (_ ++ _) |- _ => apply Forall_app in H as [? ?]
    end;
    rewrite !size_eq; rewrite <- ?size_eq;
    rewrite ?sizes_patchList by assumption;
    repeat match goal with
    | H : forall k, size (patch m k ?c) = size ?c |- _ => rewrite !H; clear H
    end; reflexivity.
Qed.

Lemma sizes_patch m l k : sizes (patchList m k l) = sizes l.
Proof.
  apply sizes_patchList, Forall_forall. intros c _. apply size_patch.
Qed.

Lemma eventsList_patchList m l :
  Forall (fun c => forall k, events k (patch m k c) = patchEvent m <$> events k c) l ->
  forall k, eventsList k (patchList m k l) = patchEvent m <$> eventsList k l.
Proof.
  induction 1 as [|c l Hc Hl IH]; intros k; [reflexivity|].
  rewrite patchList_cons. cbn [eventsList].
  now rewrite Hc, size_patch, IH, fmap_app.
Qed.

Lemma events_patch m n : forall k,
  events k (patch m k n) = patchEvent m <$> events k n.
Proof.
  induction n as [n IH] using Node_childNodes_ind. intros k.
  rewrite (events_eq k n), (events_eq k (patch m k n)).
  rewrite fmap_cons, fmap_app. cbn [fmap list_fmap patchEvent]. f_equal.
  f_equal.
  rewrite (patch_eq m k n).
  destruct n as [ss|nm|nm|nm ps b|[nm|] ps b|ps b|[bd|] b|ps|ss|kd ds|bd [i|]|cs];
    cbn [childNodes opt_list fmap option_fmap option_map] in IH;
    repeat match goal with
    | H : Forall _ (_ :: _) |- _ => apply Forall_cons in H as [? ?]
    | H : Forall _ (_ ++ _) |- _ => apply Forall_app in H as [? ?]
    end;
    rewrite ?fmap_app, ?sizes_patch, ?size_patch;
    rewrite ?eventsList_patchList by assumption;
    repeat match goal with
    | H : forall k, events k (patch m k ?c) = _ |- _ => rewrite !H; clear H
    end; try reflexivity.
Qed.

Lemma paramOps_patch m ps : forall id,
  paramOps id (patchList m id ps) = patchOp m <$> paramOps id ps.
Proof.
  induction ps as [|p ps IH]; intros id; [reflexivity|].
  rewrite patchList_cons. cbn [paramOps]. rewrite size_patch, IH, fmap_app.
  f_equal. rewrite patch_eq.
  destruct p as [| | | |[|] ? ?| |[|] ?| | | | |]; reflexivity.
Qed.

Lemma declaratorOps_patch m kd ds : forall id,
  declaratorOps kd id (patchList m id ds) = patchOp m <$> declaratorOps kd id ds.
Proof.
  induction ds as [|d ds IH]; intros id; [reflexivity|].
  rewrite patchList_cons.
  pose proof (size_patch m d id) as Hs. rewrite patch_eq in *.
  destruct d as [| | | |[|] ? ?| |[|] ?| | | |bd i|]; try reflexivity.
  pose proof (patch_eq m (S id) bd) as Hb.
  destruct bd as [|nm| | |[|] ? ?| |[|] ?| | | | |]; rewrite Hb; try reflexivity.
  cbn [declaratorOps fmap list_fmap patchOp]. f_equal.
  rewrite <- Hb, Hs. apply IH.
Qed.

Lemma declOps_patch m e : declOps (patchEvent m e) = patchOp m <$> declOps e.
Proof.
  destruct e as [k n|k n]; [|reflexivity]. cbn [patchEvent declOps].
  rewrite patch_eq.
  destruct n as [ss|nm|nm|nm ps b|[nm|] ps b|ps b|[bd|] b|ps|ss|kd ds|bd i|cs];
    try reflexivity.
  - rewrite paramOps_patch. cbn [fmap list_fmap]. now rewrite fmap_app.
  - rewrite paramOps_patch. cbn [fmap list_fmap]. now rewrite fmap_app.
  - rewrite paramOps_patch. cbn [fmap list_fmap]. now rewrite fmap_app.
  - rewrite paramOps_patch. reflexivity.
  - rewrite (patch_eq m (S k) bd).
    destruct bd as [| | | |[|] ? ?| |[|] ?| | | | |]; reflexivity.
  - apply declaratorOps_patch.
Qed.

Lemma isScopeNode_patch m k n : isScopeNode (patch m k n) = isScopeNode n.
Proof.
  rewrite patch_eq. destruct n as [| | | |[|] ? ?| |[|] ?| | | | |]; reflexivity.
Qed.

Lemma refOps_patch m e : refOps (patchEvent m e) = patchOp m <$> refOps e.
Proof.
  destruct e as [k n|k n]; [|reflexivity]. cbn [patchEvent refOps].
  rewrite isScopeNode_patch. destruct (isScopeNode n); [reflexivity|].
  rewrite patch_eq. destruct n as [| | | |[|] ? ?| |[|] ?| | | | |]; reflexivity.
Qed.

Lemma flat_map_patch {A} (f : A -> list Op) (g : A -> A) m l :
  (forall a, f (g a) = patchOp m <$> f a) ->
  flat_map f (g <$> l) = patchOp m <$> flat_map f l.
Proof.
  intros H. induction l as [|a l IH]; [reflexivity|].
  rewrite fmap_cons. cbn [flat_map]. now rewrite H, IH, fmap_app.
Qed.

Lemma collectDeclarations_ops ast r :
  collectDeclarations ast r
  = runOps (flat_map declOps (events 0 ast)) (setScope globalScope r).
Proof. apply run_declOps. Qed.

Lemma collectReferences_ops ast r :
  collectReferences ast r
  = runOps (flat_map refOps (events 0 ast)) (setScope globalScope r).
Proof. apply run_refOps. Qed.

Lemma collectDeclarations_patch m ast r :
  collectDeclarations (patch m 0 ast) r
  = runOps (patchOp m <$> flat_map declOps (events 0 ast))
           (setScope globalScope r).
Proof.
  rewrite collectDeclarations_ops, events_patch.
  now rewrite (flat_map_patch declOps (patchEvent m) m _ (declOps_patch m)).
Qed.

Lemma collectReferences_patch m ast r :
  collectReferences (patch m 0 ast) r
  = runOps (patchOp m <$> flat_map refOps (events 0 ast))
           (setScope globalScope r).
Proof.
  rewrite collectReferences_ops, events_patch.
  now rewrite (flat_map_patch refOps (patchEvent m) m _ (refOps_patch m)).
Qed.

Lemma opSites_declOps e : flat_map opSites (declOps e) = eventDeclSites e.
Proof.
  assert (Hp : forall ps id, flat_map opSites (paramOps id ps) = paramSites id ps).
  { induction ps as [|p ps IH]; intros id; [reflexivity|]. cbn [paramOps paramSites].
    rewrite flat_map_app, IH. f_equal. now destruct p. }
  assert (Hd : forall kd ds id,
            flat_map opSites (declaratorOps kd id ds) = declaratorSites id ds).
  { induction ds as [|d ds IH]; intros id; [reflexivity|].
    destruct d as [| | | | | | | | | |bd i|]; try reflexivity.
    destruct bd; try reflexivity. cbn. f_equal. apply IH. }
  destruct e as [k n|k n]; [|reflexivity]. cbn [declOps eventDeclSites].
  destruct n as [ss|nm|nm|nm ps b|[nm|] ps b|ps b|[bd|] b|ps|ss|kd ds|bd i|cs];
    try reflexivity; cbn [flat_map opSites app declSites];
    rewrite ?flat_map_app, ?Hp, ?Hd; cbn; rewrite ?app_nil_r; try reflexivity.
  destruct bd; reflexivity.
Qed.

Lemma opSites_refOps e : flat_map opSites (refOps e) = eventRefSites e.
Proof.
  destruct e as [k n|k n]; [|reflexivity]. cbn [refOps eventRefSites].
  destruct n; reflexivity.
Qed.

Lemma flat_map_flat_map {A B C} (f : B -> list C) (g : A -> list B) l :
  flat_map f (flat_map g l) = flat_map (fun a => flat_map f (g a)) l.
Proof.
  induction l as [|a l IH]; simpl; [reflexivity|].
  now rewrite flat_map_app, IH.
Qed.

(** ** The relation between the two walks *)

Lemma entries_scope r k v :
  (k, v) ∈ tableEntries r <-> exists s, (k, v) ∈ variables (getScope r s).
Proof.
  unfold tableEntries, getScope. rewrite list_elem_of_In, in_flat_map. split.
  - intros (x & Hx & Hin). apply list_elem_of_In, list_elem_of_lookup in Hx as [s Hs].
    exists s. rewrite Hs. now apply list_elem_of_In.
  - intros (s & Hin). destruct (scopes r !! s) as [x|] eqn:E.
    + exists x. split; [|now apply list_elem_of_In].
      apply list_elem_of_In. eapply list_elem_of_lookup_2; eauto.
    + cbn in Hin. now apply elem_of_nil in Hin.
Qed.

Lemma shapes_lookup r r' s :
  shapes r' = shapes r ->
  shape (getScope r' s) = shape (getScope r s)
  /\ (is_Some (scopes r' !! s) <-> is_Some (scopes r !! s)).
Proof.
  intros H. unfold getScope.
  assert (E : shapes r' !! s = shapes r !! s) by now rewrite H.
  unfold shapes in E. rewrite !list_lookup_fmap in E.
  destruct (scopes r' !! s), (scopes r !! s); cbn in *;
    try discriminate; split; try congruence; try (split; eauto; fail).
Qed.

Lemma shapes_fields r r' s :
  shapes r' = shapes r ->
  node (getScope r' s) = node (getScope r s)
  /\ type (getScope r' s) = type (getScope r s)
  /\ parent (getScope r' s) = parent (getScope r s)
  /\ children (getScope r' s) = children (getScope r s).
Proof.
  intros H. destruct (shapes_lookup r r' s H) as [E _].
  unfold shape in E. injection E as -> -> -> ->. auto.
Qed.

Lemma shapes_length r r' :
  shapes r' = shapes r -> length (scopes r') = length (scopes r).
Proof. intros H. rewrite <- !length_shapes. now rewrite H. Qed.

Lemma sameSites_refl x : sameSites x x.
Proof. repeat split. Qed.

(** [Sim] looks at the scopes, the cursor and the heap only. *)
Lemma Sim_ext K r r' r1 r1' :
  Sim K r r' ->
  scopes r1 = scopes r -> heap r1 = heap r -> scope r1 = scope r ->
  scopes r1' = scopes r' -> heap r1' = heap r' -> scope r1' = scope r' ->
  Sim K r1 r1'.
Proof.
  intros [H1 H2 H3 H4 H5 H6 H7] E1 E2 E3 E1' E2' E3'.
  unfold extra, getScope, getVariable, shapes in *.
  constructor; unfold extra, getScope, getVariable, shapes;
    rewrite ?E1, ?E2, ?E3, ?E1', ?E2', ?E3'; assumption.
Qed.

Lemma getVariable_app y r v :
  getVariable (setHeap (fun h => h ++ [y]) r) v
  = if decide (v = length (heap r)) then y else getVariable r v.
Proof.
  unfold getVariable. cbn. destruct (decide (v = length (heap r))) as [->|Hne].
  - now rewrite list_lookup_middle.
  - destruct (decide (v < length (heap r))).
    + now rewrite lookup_app_l.
    + rewrite !lookup_ge_None_2; [reflexivity|lia|].
      rewrite length_app. simpl. lia.
Qed.

Lemma getVariable_alter f v r w :
  getVariable (setHeap (alter f v) r) w
  = if decide (w = v /\ v < length (heap r)) then f (getVariable r v)
    else getVariable r w.
Proof.
  unfold getVariable. cbn. rewrite list_lookup_alter.
  destruct (decide (v = w)) as [->|Hne].
  - destruct (decide (w = w /\ w < length (heap r))) as [[_ Hl]|Hn].
    + destruct (lookup_lt_is_Some_2 _ _ Hl) as [x ->]. reflexivity.
    + rewrite lookup_ge_None_2 by lia. reflexivity.
  - destruct (decide (w = v /\ _)) as [[-> _]|]; [congruence|reflexivity].
Qed.

Lemma Sim_heap_change K r r' r1 r1' :
  Sim K r r' ->
  scopes r1 = scopes r -> scope r1 = scope r ->
  scopes r1' = scopes r' -> scope r1' = scope r' ->
  length (heap r) <= length (heap r1) ->
  length (heap r1') = length (heap r1) ->
  (forall w, sameSites (getVariable r1 w) (getVariable r1' w)) ->
  (forall s k w, (k, w) ∈ variables (getScope r' s) -> extra r s k w ->
     kind (getVariable r1 w) = var /\ references (getVariable r1 w) = []) ->
  Sim K r1 r1'.
Proof.
  intros [H1 H2 H3 H4 H5 H6 H7] E1 E3 E1' E3' Hl Hl' Hh He.
  constructor; unfold getScope, shapes in *; rewrite ?E1, ?E3, ?E1', ?E3';
    try assumption.
  intros s k' v Hin. destruct (H6 s k' v Hin) as [Hr|Hx]; [now left|right].
  destruct (He s k' v Hin Hx) as [Hk Hr].
  destruct Hx as (X1 & X2 & X3 & X4 & X5 & X6).
  unfold extra, getScope. rewrite E1. repeat split; try assumption. lia.
Qed.

Lemma variables_setTable (q : Renamer) k v s c :
  s < length (scopes q) ->
  tableGet k (variables (getScope q s)) = None ->
  variables (getScope (setScopes (alter (setTable k v) s) q) c)
  = if decide (c = s) then variables (getScope q s) ++ [(k, v)]
    else variables (getScope q c).
Proof.
  intros Hl Hn. unfold getScope in *. cbn. rewrite list_lookup_alter.
  destruct (decide (s = c)) as [->|Hne].
  - destruct (decide (c = c)); [|congruence].
    destruct (lookup_lt_is_Some_2 _ _ Hl) as [x Hx]. rewrite Hx in *. cbn in *.
    now apply tableSet_fresh.
  - destruct (decide (c = s)); [congruence|reflexivity].
Qed.

Lemma shapes_setTable (q : Renamer) k v s :
  shapes (setScopes (alter (setTable k v) s) q) = shapes q.
Proof.
  unfold shapes. cbn. apply list_eq. intros i.
  rewrite !list_lookup_fmap, list_lookup_alter.
  destruct (decide (s = i)) as [->|]; [|reflexivity].
  now destruct (scopes q !! i).
Qed.

Lemma extra_insert r s nm v c k w :
  s < length (scopes r) ->
  tableGet nm (variables (getScope r s)) = None ->
  w <> v ->
  extra r c k w -> extra (setScopes (alter (setTable nm v) s) r) c k w.
Proof.
  intros Hl Hn Hne (X1 & X2 & X3 & X4 & X5 & X6).
  split; [exact X1|]. split.
  { rewrite (variables_setTable _ _ _ _ _ Hl Hn).
    destruct (decide (c = s)) as [->|]; [|exact X2].
    destruct X2 as [e He]. rewrite (tableGet_app _ _ _ _ He). eauto. }
  split; [exact X3|]. split; [exact X4|]. split; [|exact X6].
  intros s2 k2. rewrite (variables_setTable _ _ _ _ _ Hl Hn).
  destruct (decide (s2 = s)) as [->|]; [|apply X5].
  intros Hin. apply elem_of_app in Hin as [Hin|Hin]; [exact (X5 _ _ Hin)|].
  apply list_elem_of_singleton in Hin. congruence.
Qed.

(** Both walks insert the new variable [v], under its name and under its
    final name. *)
Lemma Sim_insert K r r' s nm v :
  Sim K r r' ->
  s < length (scopes r) ->
  tableGet nm (variables (getScope r s)) = None ->
  tableGet (K v) (variables (getScope r' s)) = None ->
  (forall s2 k2, (k2, v) ∉ variables (getScope r' s2)) ->
  Sim K (setScopes (alter (setTable nm v) s) r)
        (setScopes (alter (setTable (K v) v) s) r').
Proof.
  intros [H1 H2 H3 H4 H5 H6 H7] Hl Hn Hn' Hv.
  pose proof (shapes_length _ _ H1) as L.
  assert (Hl' : s < length (scopes r')) by lia.
  constructor.
  - now rewrite !shapes_setTable.
  - exact H2.
  - exact H3.
  - exact H4.
  - intros c k w. rewrite (variables_setTable _ _ _ _ _ Hl Hn),
      (variables_setTable _ _ _ _ _ Hl' Hn').
    destruct (decide (c = s)) as [->|]; [|apply H5].
    intros Hin. apply elem_of_app in Hin as [Hin|Hin]; apply elem_of_app.
    + left. now apply (H5 s k w).
    + right. apply list_elem_of_singleton in Hin. injection Hin as -> ->.
      constructor.
  - intros c k' w. rewrite (variables_setTable _ _ _ _ _ Hl' Hn').
    intros Hin.
    assert (Hold : (k', w) ∈ variables (getScope r' c) ->
      (exists k, (k, w) ∈ variables
           (getScope (setScopes (alter (setTable nm v) s) r) c) /\ k' = K w)
      \/ extra (setScopes (alter (setTable nm v) s) r) c k' w).
    { intros Ho. destruct (H6 c k' w Ho) as [(k & Hk & ->)|Hx].
      - left. exists k. split; [|reflexivity].
        rewrite (variables_setTable _ _ _ _ _ Hl Hn).
        destruct (decide (c = s)) as [->|]; [|exact Hk].
        apply elem_of_app. now left.
      - right. apply extra_insert; try assumption.
        intros ->. exact (Hv _ _ Ho). }
    destruct (decide (c = s)) as [->|]; [|now apply Hold].
    apply elem_of_app in Hin as [Hin|Hin]; [now apply Hold|].
    apply list_elem_of_singleton in Hin. injection Hin as -> ->.
    left. exists nm. split; [|reflexivity].
    rewrite (variables_setTable _ _ _ _ _ Hl Hn).
    destruct (decide (s = s)); [|congruence].
    apply elem_of_app. right. constructor.
  - intros c. rewrite (variables_setTable _ _ _ _ _ Hl' Hn').
    destruct (decide (c = s)) as [->|]; [|apply H7].
    rewrite fmap_app. apply NoDup_app. split; [apply H7|]. split.
    + intros x Hx Hx'. apply list_elem_of_singleton in Hx'. cbn in Hx'. subst x.
      now apply tableGet_None in Hn'.
    + apply NoDup_singleton.
Qed.

(** Only the walk over the renamed tree inserts [v]. *)
Lemma Sim_insert_extra K r r' s nm v :
  Sim K r r' ->
  s < length (scopes r) ->
  tableGet nm (variables (getScope r' s)) = None ->
  extra r s nm v ->
  Sim K r (setScopes (alter (setTable nm v) s) r').
Proof.
  intros [H1 H2 H3 H4 H5 H6 H7] Hl Hn' Hx.
  pose proof (shapes_length _ _ H1) as L.
  assert (Hl' : s < length (scopes r')) by lia.
  constructor.
  - now rewrite shapes_setTable.
  - exact H2.
  - exact H3.
  - exact H4.
  - intros c k w Hin. rewrite (variables_setTable _ _ _ _ _ Hl' Hn').
    destruct (decide (c = s)) as [->|]; [|now apply (H5 c k w)].
    apply elem_of_app. left. now apply (H5 s k w).
  - intros c k' w. rewrite (variables_setTable _ _ _ _ _ Hl' Hn').
    destruct (decide (c = s)) as [->|]; [|apply H6].
    intros Hin. apply elem_of_app in Hin as [Hin|Hin]; [now apply H6|].
    apply list_elem_of_singleton in Hin. injection Hin as -> ->. now right.
  - intros c. rewrite (variables_setTable _ _ _ _ _ Hl' Hn').
    destruct (decide (c = s)) as [->|]; [|apply H7].
    rewrite fmap_app. apply NoDup_app. split; [apply H7|]. split.
    + intros x Hx0 Hx'. apply list_elem_of_singleton in Hx'. cbn in Hx'. subst x.
      now apply tableGet_None in Hn'.
    + apply NoDup_singleton.
Qed.

Lemma Sim_tables_same K r r' r1 r1' :
  Sim K r r' ->
  shapes r1' = shapes r1 -> scope r1' = scope r1 ->
  heap r1 = heap r -> heap r1' = heap r' ->
  (forall c, variables (getScope r1 c) = variables (getScope r c)) ->
  (forall c, variables (getScope r1' c) = variables (getScope r' c)) ->
  Sim K r1 r1'.
Proof.
  intros [H1 H2 H3 H4 H5 H6 H7] E1 E2 Eh Eh' Et Et'.
  constructor; try assumption.
  - now rewrite Eh, Eh'.
  - intros v. unfold getVariable. rewrite Eh, Eh'. apply H4.
  - intros s k v. rewrite Et, Et'. apply H5.
  - intros s k' v. rewrite Et'. intros Hin.
    destruct (H6 s k' v Hin) as [(k & Hk & ->)|Hx].
    + left. exists k. now rewrite Et.
    + right. unfold extra in *. unfold getVariable in *. rewrite Eh, Et.
      destruct Hx as (X1 & X2 & X3 & X4 & X5 & X6).
      repeat split; try assumption. intros s2 k2. rewrite Et. apply X5.
  - intros s. rewrite Et'. apply H7.
Qed.

Lemma variables_new_Scope k ty r c :
  scope r < length (scopes r) ->
  variables (getScope (snd (new_Scope k ty (scope r) r)) c)
  = variables (getScope r c).
Proof.
  intros Hs. destruct (decide (c < length (scopes r))) as [Hc|Hc].
  - now apply table_new_Scope.
  - unfold getScope, new_Scope. cbn.
    rewrite (lookup_ge_None_2 (scopes r)) by lia.
    destruct (decide (c = length (scopes r))) as [->|].
    + rewrite list_lookup_middle by now rewrite length_alter. reflexivity.
    + rewrite lookup_ge_None_2; [reflexivity|].
      rewrite length_app, length_alter. simpl. lia.
Qed.

Lemma Sim_open K r r' k ty :
  Sim K r r' -> scope r < length (scopes r) ->
  Sim K (setScope (fst (new_Scope k ty (scope r) r))
                  (snd (new_Scope k ty (scope r) r)))
        (setScope (fst (new_Scope k ty (scope r') r'))
                  (snd (new_Scope k ty (scope r') r'))).
Proof.
  intros S Hs.
  pose proof (sim_shapes _ _ _ S) as Sh. pose proof (sim_scope _ _ _ S) as Sc.
  pose proof (shapes_length _ _ Sh) as L.
  apply (Sim_tables_same K r r'); try assumption; try reflexivity.
  - destruct (opens_new_Scope k ty r) as (_ & -> & _).
    destruct (opens_new_Scope k ty r') as (_ & -> & _). now rewrite Sh, Sc.
  - intros c. now apply (variables_new_Scope k ty r c).
  - intros c. apply (variables_new_Scope k ty r' c). lia.
Qed.

Lemma Sim_setScope K r r' s :
  Sim K r r' -> Sim K (setScope s r) (setScope s r').
Proof.
  intros S. apply (Sim_tables_same K r r'); try assumption; try reflexivity.
  apply S.
Qed.

Lemma Sim_leave K r r' k : Sim K r r' -> Sim K (leave k r) (leave k r').
Proof.
  intros S. unfold leave.
  destruct (shapes_fields r r' (scope r) (sim_shapes _ _ _ S)) as (En & _ & Ep & _).
  rewrite (sim_scope _ _ _ S), En, Ep.
  destruct (parent (getScope r (scope r))); [|exact S].
  destruct (Nat.eqb _ _); [now apply Sim_setScope|exact S].
Qed.

Lemma Sim_findChild K r r' k :
  Sim K r r' -> findChild r' k = findChild r k.
Proof.
  intros S. unfold findChild.
  destruct (shapes_fields r r' (scope r) (sim_shapes _ _ _ S)) as (_ & _ & _ & Ec).
  rewrite (sim_scope _ _ _ S), Ec. clear Ec.
  generalize (children (getScope r (scope r))) as l.
  induction l as [|c l IH]; [reflexivity|].
  cbn [List.find].
  destruct (shapes_fields r r' c (sim_shapes _ _ _ S)) as (-> & _).
  destruct (Nat.eqb _ _); [reflexivity|exact IH].
Qed.

(** ** What one operation keeps *)

Lemma WF_op o r r1 P :
  WF r P -> usedOk r -> opStep o r = Ok r1 ->
  (forall x, x ∈ opSites o -> x ∉ P) ->
  WF r1 (opSites o ++ P) /\ usedOk r1.
Proof.
  intros W U H HP. destruct o as [nm kd site|k ty| |kd nm site|k|k|nm k];
    cbn [opStep opSites] in *.
  - destruct (WF_declare _ _ _ _ _ _ _ W U H (wf_cursor _ _ W)) as (W1 & U1 & _).
    { apply HP. constructor. }
    auto.
  - injection H as <-. split; [apply (WF_new_Scope k ty r P W)|].
    intros k0 v Hin Hk. apply (U k0 v); [|exact Hk].
    apply entries_scope in Hin as [c Hc]. apply entries_scope. exists c.
    rewrite <- (variables_new_Scope k ty r c (wf_cursor _ _ W)). exact Hc.
  - exact (WF_arguments r r1 P W U H).
  - assert (Hfresh : site ∉ P) by (apply HP; constructor).
    destruct (tableGet nm _) as [v|] eqn:Eg.
    + destruct (_ || _); [discriminate|]. injection H as <-.
      split; [now apply WF_pushDeclaration|].
      eapply usedOk_same; [exact U| |]; reflexivity.
    + unfold new_Variable in H.
      destruct (addVariable _ _ _) as [r2|] eqn:E2; [|discriminate].
      cbn [bind] in H. injection H as <-.
      destruct (WF_fresh_variable r P (mkVariable nm kd [] []) W)
        as (W0 & H0 & F0).
      destruct (WF_addVariable _ _ P _ _ _ [] W0 E2 (wf_cursor _ _ W0) H0 F0)
        as (W2 & C2 & L2 & U2 & E2').
      { intros y Hy. exact Hy. }
      { intros y Hy. now apply elem_of_nil in Hy. }
      simpl in W2. destruct (used_addName nm r2) as (Hu1 & Hu2).
      split; [apply WF_pushDeclaration; [now apply WF_addName|exact Hfresh]|].
      apply (usedOk_step r _ nm (length (heap r)) U).
      * change (tableEntries (pushDeclaration (length (heap r)) site
                   (addName nm r2))) with (tableEntries (addName nm r2)).
        rewrite tableEntries_addName. exact E2'.
      * simpl. rewrite U2 in Hu1. exact Hu1.
      * intros Hn. left. now apply Hu2.
  - injection H as <-. split; [now apply WF_leave|].
    destruct (leave_frame k r) as (_ & Hu & _ & Hs).
    eapply usedOk_same; [exact U| |exact Hu]. unfold tableEntries. now rewrite Hs.
  - apply (WF_refEnter k (BlockStatement []) r r1 P W U); [exact H|].
    intros x Hx. now apply elem_of_nil in Hx.
  - apply (WF_refEnter k (IdentifierExpression nm) r r1 P W U); [|exact HP].
    unfold refEnter. cbn [isScopeNode]. exact H.
Qed.

Lemma WF_runOps os : forall r r1 P,
  WF r P -> usedOk r -> runOps os r = Ok r1 ->
  NoDup (flat_map opSites os) ->
  (forall x, x ∈ flat_map opSites os -> x ∉ P) ->
  WF r1 (flat_map opSites os ++ P) /\ usedOk r1.
Proof.
  induction os as [|o os IH]; intros r r1 P W U H Hn HP; simpl in H.
  - injection H as <-. auto.
  - destruct (opStep o r) as [r0|] eqn:E; [|discriminate]. cbn [bind] in H.
    cbn [flat_map] in Hn, HP. apply NoDup_app in Hn as (Hn1 & Hn12 & Hn2).
    destruct (WF_op _ _ _ _ W U E) as (W0 & U0).
    { intros x Hx. apply HP, elem_of_app. now left. }
    destruct (IH _ _ _ W0 U0 H Hn2) as (W1 & U1).
    { intros x Hx Hin. apply elem_of_app in Hin as [Hin|Hin].
      - exact (Hn12 _ Hin Hx).
      - apply (HP x); [apply elem_of_app; now right|exact Hin]. }
    split; [|exact U1]. eapply WF_mono; [exact W1|].
    intros x. cbn [flat_map]. rewrite !elem_of_app. tauto.
Qed.

Lemma grows_refl r : grows r r.
Proof. repeat split; auto. Qed.

Lemma grows_trans r1 r2 r3 : grows r1 r2 -> grows r2 r3 -> grows r1 r3.
Proof.
  intros (A1 & A2 & A3) (B1 & B2 & B3). repeat split; eauto.
  set_solver.
Qed.

Lemma heapGrows_sites r r' v x :
  heapGrows r r' -> x ∈ sitesOf r v -> x ∈ sitesOf r' v.
Proof.
  intros H. unfold sitesOf, getVariable, varSites.
  destruct (heap r !! v) as [y|] eqn:E; cbn.
  - destruct (H v y E) as (z & Ez & _ & _ & [l1 E1] & [l2 E2]).
    rewrite Ez. cbn. rewrite E1, E2, !elem_of_app. tauto.
  - intros Hx. now apply elem_of_nil in Hx.
Qed.

Lemma addVariable_grows_entries s v c k w r r' :
  addVariable s v r = Ok r' ->
  (k, w) ∈ variables (getScope r c) -> (k, w) ∈ variables (getScope r' c).
Proof.
  unfold addVariable. intros H Hin.
  destruct (tableGet _ _) eqn:E.
  - destruct (_ || _); [discriminate|]. injection H as <-. exact Hin.
  - injection H as <-. unfold getScope in *. cbn.
    rewrite list_lookup_alter. destruct (decide (s = c)) as [->|]; [|exact Hin].
    destruct (scopes r !! c) as [x|]; cbn in *; [|exact Hin].
    rewrite (tableSet_fresh _ _ _ E). apply elem_of_app. now left.
Qed.

Lemma grows_parts r r' :
  (forall c k w, (k, w) ∈ variables (getScope r c) ->
                 (k, w) ∈ variables (getScope r' c)) ->
  heapGrows r r' -> usedVariableNames r ⊆ usedVariableNames r' ->
  grows r r'.
Proof.
  intros H1 H2 H3. split; [exact H1|]. split; [|exact H3].
  intros v x. now apply heapGrows_sites.
Qed.

Lemma declare_grows_entries s nm kd site c k w r r' :
  declare s nm kd site r = Ok r' ->
  (k, w) ∈ variables (getScope r c) -> (k, w) ∈ variables (getScope r' c).
Proof.
  unfold declare, new_Variable. intros H Hin.
  destruct (addVariable _ _ _) as [r3|] eqn:E; [|discriminate].
  injection H as <-. unfold getScope. rewrite scopes_addName.
  apply (addVariable_grows_entries _ _ _ _ _ _ _ E). exact Hin.
Qed.

Lemma grows_op o r r1 P :
  WF r P -> opStep o r = Ok r1 -> grows r r1.
Proof.
  intros W H. destruct o as [nm kd site|k ty| |kd nm site|k|k|nm k];
    cbn [opStep] in H.
  - apply grows_parts.
    + intros c k w. apply (declare_grows_entries _ _ _ _ _ _ _ _ _ H).
    + eapply heapGrows_declare; exact H.
    + apply (keeps_declare _ _ _ _ _ _ H).
  - injection H as <-. apply grows_parts.
    + intros c k0 w Hin.
      change ((k0, w) ∈ variables (getScope (snd (new_Scope k ty (scope r) r)) c)).
      now rewrite (variables_new_Scope k ty r c (wf_cursor _ _ W)).
    + now apply heapGrows_same.
    + reflexivity.
  - unfold new_Variable in H. apply grows_parts.
    + intros c k w. apply (addVariable_grows_entries _ _ _ _ _ _ _ H).
    + eapply heapGrows_trans; [apply heapGrows_append|].
      eapply heapGrows_addVariable; exact H.
    + apply (keeps_addVariable _ _ _ _ H).
  - destruct (tableGet nm _) as [v|] eqn:Eg.
    + destruct (_ || _); [discriminate|]. injection H as <-. apply grows_parts.
      * intros c k w Hin. exact Hin.
      * apply heapGrows_pushDeclaration.
      * reflexivity.
    + unfold new_Variable in H.
      destruct (addVariable _ _ _) as [r2|] eqn:E2; [|discriminate].
      cbn [bind] in H. injection H as <-. apply grows_parts.
      * intros c k w Hin. unfold getScope. cbn [pushDeclaration scopes setHeap].
        rewrite scopes_addName.
        apply (addVariable_grows_entries _ _ _ _ _ _ _ E2). exact Hin.
      * eapply heapGrows_trans; [apply heapGrows_append|].
        eapply heapGrows_trans; [eapply heapGrows_addVariable; exact E2|].
        eapply heapGrows_trans; [|apply heapGrows_pushDeclaration].
        apply heapGrows_same. apply heap_addName.
      * cbn. etransitivity; [apply (keeps_addVariable _ _ _ _ E2)|].
        exact (proj1 (used_addName nm r2)).
  - injection H as <-. destruct (leave_frame k r) as (_ & Hu & Hh & Hs).
    apply grows_parts.
    + intros c k0 w. unfold getScope. now rewrite Hs.
    + now apply heapGrows_same.
    + now rewrite Hu.
  - destruct (findChild r k); [|discriminate]. injection H as <-.
    apply grows_parts; [auto|now apply heapGrows_same|reflexivity].
  - destruct (lookupVariable _ _ _) as [v|].
    + injection H as <-. apply grows_parts; [auto| |reflexivity].
      apply heapGrows_pushReference.
    + unfold new_Variable in H. injection H as <-. apply grows_parts.
      * intros c k0 w Hin. unfold getScope. cbn [pushReference scopes setHeap].
        rewrite scopes_addName. exact Hin.
      * eapply heapGrows_trans; [apply heapGrows_append|].
        eapply heapGrows_trans; [|apply heapGrows_pushReference].
        apply heapGrows_same. apply heap_addName.
      * cbn. exact (proj1 (used_addName nm
                 (setHeap (fun h => h ++ [mkVariable nm var [] []]) r))).
Qed.

Lemma grows_runOps os : forall r r1 P,
  WF r P -> usedOk r -> runOps os r = Ok r1 ->
  NoDup (flat_map opSites os) ->
  (forall x, x ∈ flat_map opSites os -> x ∉ P) ->
  grows r r1.
Proof.
  induction os as [|o os IH]; intros r r1 P W U H Hn HP; simpl in H.
  - injection H as <-. apply grows_refl.
  - destruct (opStep o r) as [r0|] eqn:E; [|discriminate]. cbn [bind] in H.
    cbn [flat_map] in Hn, HP. apply NoDup_app in Hn as (Hn1 & Hn12 & Hn2).
    destruct (WF_op _ _ _ _ W U E) as (W0 & U0).
    { intros x Hx. apply HP, elem_of_app. now left. }
    eapply grows_trans; [exact (grows_op _ _ _ _ W E)|].
    apply (IH _ _ _ W0 U0 H Hn2).
    intros x Hx Hin. apply elem_of_app in Hin as [Hin|Hin].
    + exact (Hn12 _ Hin Hx).
    + apply (HP x); [apply elem_of_app; now right|exact Hin].
Qed.

(** The sites recorded by registered variables, as a list. *)
Lemma regSite_list r x :
  regSite r x <-> x ∈ flat_map (fun e => sitesOf r (snd e)) (tableEntries r).
Proof.
  rewrite list_elem_of_In, in_flat_map. split.
  - intros (k & v & Hin & Hx). exists (k, v).
    split; apply list_elem_of_In; assumption.
  - intros ([k v] & Hin & Hx). exists k, v.
    split; apply list_elem_of_In; assumption.
Qed.

Lemma WF_exact r P :
  WF r P -> WF r (flat_map (fun e => sitesOf r (snd e)) (tableEntries r)).
Proof.
  intros [H1 H2 H3 H4 H5 H6 H7 H8]. constructor; try assumption.
  intros k v x Hin Hx. apply regSite_list. now exists k, v.
Qed.

Lemma regSite_runOps os r r1 P x :
  WF r P -> usedOk r -> runOps os r = Ok r1 ->
  NoDup (flat_map opSites os) ->
  (forall x, x ∈ flat_map opSites os -> x ∉ P) ->
  regSite r1 x -> regSite r x \/ x ∈ flat_map opSites os.
Proof.
  intros W U H Hn HP (k & v & Hin & Hx).
  destruct (WF_runOps os r r1 _ (WF_exact _ _ W) U H Hn) as (W1 & _).
  - intros y Hy Hr. apply regSite_list in Hr as (k0 & v0 & Hin0 & Hy0).
    exact (HP y Hy (wf_sites _ _ W _ _ _ Hin0 Hy0)).
  - pose proof (wf_sites _ _ W1 _ _ _ Hin Hx) as Hs.
    apply elem_of_app in Hs as [Hs|Hs]; [now right|left].
    now apply regSite_list.
Qed.

Lemma addVariable_grows s v r r' : addVariable s v r = Ok r' -> grows r r'.
Proof.
  intros H. apply grows_parts.
  - intros c k w. apply (addVariable_grows_entries _ _ _ _ _ _ _ H).
  - eapply heapGrows_addVariable; exact H.
  - apply (keeps_addVariable _ _ _ _ H).
Qed.

Lemma climb_shapes fuel : forall (r r' : Renamer) s,
  shapes r' = shapes r -> climb fuel (scopes r') s = climb fuel (scopes r) s.
Proof.
  induction fuel as [|fuel IH]; intros r r' s H; [reflexivity|]. cbn [climb].
  destruct (shapes_lookup r r' s H) as [E I]. unfold getScope in E.
  destruct (scopes r' !! s) as [x'|] eqn:E', (scopes r !! s) as [x|] eqn:E0;
    cbn in E.
  - unfold shape in E. injection E as _ -> -> _.
    destruct (type x); try reflexivity. destruct (parent x); [|reflexivity].
    now apply IH.
  - destruct (proj1 I (mk_is_Some _ _ eq_refl)) as [? ?]. discriminate.
  - destruct (proj2 I (mk_is_Some _ _ eq_refl)) as [? ?]. discriminate.
  - reflexivity.
Qed.

Lemma getDeclarationScope_shapes (r r' : Renamer) kd :
  shapes r' = shapes r -> scope r' = scope r ->
  getDeclarationScope r' (scope r') kd = getDeclarationScope r (scope r) kd.
Proof.
  intros H Hs. unfold getDeclarationScope. rewrite Hs.
  destruct kd; try reflexivity. now apply climb_shapes.
Qed.

Lemma lookupFrom_sim (r r' : Renamer) nm nm' (res : option VarId) :
  shapes r' = shapes r ->
  (forall c, tableGet nm (variables (getScope r c)) = None ->
             tableGet nm' (variables (getScope r' c)) = None) ->
  (forall c v, res = Some v -> tableGet nm (variables (getScope r c)) = Some v ->
               tableGet nm' (variables (getScope r' c)) = Some v) ->
  forall fuel s,
    lookupFrom fuel (scopes r) s nm = res ->
    lookupFrom fuel (scopes r') s nm' = res.
Proof.
  intros H Hn Hs. induction fuel as [|fuel IH]; intros s Hl; [exact Hl|].
  cbn [lookupFrom] in *.
  destruct (shapes_lookup r r' s H) as [E I].
  pose proof (Hn s) as Hn0. pose proof (Hs s) as Hs0. unfold getScope in *.
  destruct (scopes r' !! s) as [x'|] eqn:E', (scopes r !! s) as [x|] eqn:E0;
    cbn in *.
  - unfold shape in E. injection E as _ _ Ep _.
    destruct (tableGet nm (variables x)) as [v|] eqn:Et.
    + subst res. now rewrite (Hs0 v eq_refl eq_refl).
    + rewrite (Hn0 eq_refl), Ep.
      destruct (parent x); [now apply IH|exact Hl].
  - destruct (proj1 I (mk_is_Some _ _ eq_refl)) as [? ?]. discriminate.
  - destruct (proj2 I (mk_is_Some _ _ eq_refl)) as [? ?]. discriminate.
  - exact Hl.
Qed.

Lemma getVariable_declared y site r w :
  getVariable (pushDeclaration (length (heap r)) site
                 (setHeap (fun h => h ++ [y]) r)) w
  = if decide (w = length (heap r))
    then mkVariable (name y) (kind y) (declarations y ++ [site]) (references y)
    else getVariable r w.
Proof.
  unfold pushDeclaration. rewrite getVariable_alter, !getVariable_app.
  cbn [heap setHeap]. rewrite length_app. cbn [length].
  destruct (decide (w = length (heap r))) as [->|Hne].
  - destruct (decide (_ /\ _)) as [_|Hn]; [|exfalso; apply Hn; split; [reflexivity|lia]].
    destruct (decide (_ = _)); [reflexivity|congruence].
  - destruct (decide (_ /\ _)) as [[-> _]|]; [congruence|reflexivity].
Qed.

Lemma getVariable_referred y site r w :
  getVariable (pushReference (length (heap r)) site
                 (setHeap (fun h => h ++ [y]) r)) w
  = if decide (w = length (heap r))
    then mkVariable (name y) (kind y) (declarations y) (references y ++ [site])
    else getVariable r w.
Proof.
  unfold pushReference. rewrite getVariable_alter, !getVariable_app.
  cbn [heap setHeap]. rewrite length_app. cbn [length].
  destruct (decide (w = length (heap r))) as [->|Hne].
  - destruct (decide (_ /\ _)) as [_|Hn]; [|exfalso; apply Hn; split; [reflexivity|lia]].
    destruct (decide (_ = _)); [reflexivity|congruence].
  - destruct (decide (_ /\ _)) as [[-> _]|]; [congruence|reflexivity].
Qed.

(** After [addVariable] the new variable's name is a key of the scope,
    and its owner holds the declaration sites of the new variable. *)
Lemma addVariable_owner s v r r1 :
  addVariable s v r = Ok r1 -> s < length (scopes r) ->
  (forall e, tableGet (name (getVariable r v)) (variables (getScope r s)) = Some e ->
             e < length (heap r)) ->
  let o := default v (tableGet (name (getVariable r v)) (variables (getScope r s))) in
  (name (getVariable r v), o) ∈ variables (getScope r1 s)
  /\ forall x, x ∈ declarations (getVariable r v) -> x ∈ sitesOf r1 o.
Proof.
  intros H Hs He. unfold addVariable in H.
  destruct (tableGet _ _) as [e|] eqn:Et; cbn [default].
  - destruct (_ || _); [discriminate|]. injection H as <-. split.
    + now apply tableGet_Some_elem.
    + intros x Hx. unfold sitesOf. rewrite getVariable_alter.
      destruct (decide (_ /\ _)) as [_|Hn];
        [|exfalso; apply Hn; split; [reflexivity|now apply He]].
      unfold varSites. cbn. rewrite !elem_of_app. tauto.
  - injection H as <-. split.
    + change ((name (getVariable r v), v) ∈ variables (getScope
        (setScopes (alter (setTable (name (getVariable r v)) v) s) r) s)).
      rewrite (variables_setTable _ _ _ _ _ Hs Et).
      destruct (decide (s = s)); [|congruence]. apply elem_of_app. right.
      constructor.
    + intros x Hx. unfold sitesOf, varSites. apply elem_of_app. now left.
Qed.

Lemma WF_keys r P s : WF r P -> NoDup (fst <$> variables (getScope r s)).
Proof.
  intros W. unfold getScope. destruct (scopes r !! s) as [x|] eqn:E; cbn.
  - exact (wf_keys _ _ W s x E).
  - constructor.
Qed.

(** ** One operation on both trees *)

Section Simulation.

Variable fin : Renamer.
Variable m : gmap NodeId string.
Variable K : VarId -> string.

Hypothesis fin_site : forall k v x,
  (k, v) ∈ tableEntries fin -> x ∈ sitesOf fin v -> default k (m !! x) = K v.
Hypothesis fin_other : forall x, ~ regSite fin x -> m !! x = None.
Hypothesis fin_inj : forall k v k' w,
  (k, v) ∈ tableEntries fin -> (k', w) ∈ tableEntries fin ->
  K v = K w -> k = k'.
Hypothesis fin_new : forall k v,
  (k, v) ∈ tableEntries fin -> shouldRename (K v) = false.
Hypothesis fin_keep : forall k v,
  (k, v) ∈ tableEntries fin -> shouldRename k = false -> K v = k.
Hypothesis fin_used : forall k v,
  (k, v) ∈ tableEntries fin ->
  K v ∈ usedVariableNames fin \/ K v = "arguments" -> K v = k.

Lemma grows_entry r s k v :
  grows r fin -> (k, v) ∈ variables (getScope r s) -> (k, v) ∈ tableEntries fin.
Proof.
  intros (G & _) Hin. apply entries_scope. exists s. now apply G.
Qed.

Lemma final_name r s k v x :
  grows r fin -> (k, v) ∈ variables (getScope r s) -> x ∈ sitesOf r v ->
  default k (m !! x) = K v.
Proof.
  intros G Hin Hx. apply fin_site; [now apply (grows_entry r s)|].
  now apply G.
Qed.

Lemma orphan_name r (Fut : list NodeId) x :
  (forall y, regSite fin y -> regSite r y \/ y ∈ Fut) ->
  ~ regSite r x -> x ∉ Fut -> m !! x = None.
Proof.
  intros HF Hr Hx. apply fin_other. intros Hf.
  destruct (HF x Hf); contradiction.
Qed.

Lemma present_final r r' s k v :
  Sim K r r' -> (k, v) ∈ variables (getScope r s) ->
  tableGet (K v) (variables (getScope r' s)) = Some v.
Proof.
  intros S Hin. apply tableGet_elem; [apply (sim_keys _ _ _ S)|].
  now apply (sim_fwd _ _ _ S s k).
Qed.

Lemma absent_final r r' s nm v :
  Sim K r r' -> grows r fin ->
  tableGet nm (variables (getScope r s)) = None ->
  (nm, v) ∈ tableEntries fin ->
  tableGet (K v) (variables (getScope r' s)) = None.
Proof.
  intros S G Hn Hv.
  destruct (tableGet (K v) (variables (getScope r' s))) as [w|] eqn:E;
    [exfalso|reflexivity].
  apply tableGet_Some_elem in E.
  destruct (sim_bwd _ _ _ S _ _ _ E) as [(k & Hk & Ek)|(Hx & _)].
  - pose proof (fin_inj _ _ _ _ (grows_entry _ _ _ _ G Hk) Hv (eq_sym Ek)) as ->.
    apply tableGet_None in Hn. apply Hn.
    apply list_elem_of_fmap. exists (nm, w). auto.
  - rewrite (fin_new _ _ Hv) in Hx. discriminate.
Qed.

Lemma absent_orphan r r' s nm :
  Sim K r r' -> grows r fin ->
  tableGet nm (variables (getScope r s)) = None ->
  shouldRename nm = true \/ nm ∈ usedVariableNames fin \/ nm = "arguments" ->
  tableGet nm (variables (getScope r' s)) = None.
Proof.
  intros S G Hn Hc.
  destruct (tableGet nm (variables (getScope r' s))) as [w|] eqn:E;
    [exfalso|reflexivity].
  apply tableGet_Some_elem in E.
  destruct (sim_bwd _ _ _ S _ _ _ E) as [(k & Hk & Ek)|(_ & [e He] & _)].
  - pose proof (grows_entry _ _ _ _ G Hk) as Hf.
    assert (k = nm) as ->.
    { destruct Hc as [Hc|Hc].
      - rewrite Ek, (fin_new _ _ Hf) in Hc. discriminate.
      - rewrite Ek. symmetry. apply fin_used; [exact Hf|]. now rewrite <- Ek. }
    apply tableGet_None in Hn. apply Hn.
    apply list_elem_of_fmap. exists (nm, w). auto.
  - congruence.
Qed.


Lemma sim_addVariable_same s v r r' r1 :
  Sim K r r' -> s < length (scopes r) ->
  (forall s2 k2, (k2, v) ∉ variables (getScope r' s2)) ->
  addVariable s v r = Ok r1 -> grows r1 fin ->
  (forall e, tableGet (name (getVariable r v)) (variables (getScope r s)) = Some e ->
             name (getVariable r' v) = K e) ->
  (tableGet (name (getVariable r v)) (variables (getScope r s)) = None ->
   name (getVariable r' v) = K v) ->
  exists r1', addVariable s v r' = Ok r1' /\ Sim K r1 r1'.
Proof.
  intros S Hs Hv H G Hsome Hnone.
  pose proof (grows_trans _ _ _ (addVariable_grows _ _ _ _ H) G) as G0.
  unfold addVariable in *.
  destruct (tableGet (name (getVariable r v)) (variables (getScope r s)))
    as [e|] eqn:Et.
  - destruct (isBlockScoped (getVariable r e) || isBlockScoped (getVariable r v))
      eqn:Eb; [discriminate|]. injection H as <-.
    pose proof (tableGet_Some_elem _ _ _ Et) as Hin.
    rewrite (Hsome e eq_refl), (present_final _ _ _ _ _ S Hin).
    destruct (sim_heap _ _ _ S e) as (Ke & De & Re).
    destruct (sim_heap _ _ _ S v) as (Kv & Dv & Rv).
    unfold isBlockScoped in *. rewrite Ke, Kv, Eb.
    eexists. split; [reflexivity|].
    apply (Sim_heap_change K r r'); try reflexivity; try exact S.
    + cbn. now rewrite length_alter.
    + cbn. rewrite !length_alter. apply (sim_len _ _ _ S).
    + intros w. rewrite !getVariable_alter, (sim_len _ _ _ S).
      destruct (decide (w = e /\ _)); [|apply (sim_heap _ _ _ S)].
      split; [exact Ke|]. split; [cbn; congruence|exact Re].
    + intros c k w Hw (_ & _ & X3 & _ & X5 & X6).
      rewrite getVariable_alter.
      destruct (decide (w = e /\ _)) as [[-> _]|]; [|auto].
      exfalso. exact (X5 _ _ Hin).
  - injection H as <-.
    assert (Hf : (name (getVariable r v), v) ∈ tableEntries fin).
    { eapply (grows_entry _ s); [exact G|].
      change ((name (getVariable r v), v) ∈ variables (getScope
        (setScopes (alter (setTable (name (getVariable r v)) v) s) r) s)).
      rewrite (variables_setTable _ _ _ _ _ Hs Et).
      destruct (decide (s = s)); [|congruence]. apply elem_of_app. right.
      constructor. }
    pose proof (absent_final _ _ _ _ _ S G0 Et Hf) as Hn'.
    rewrite (Hnone eq_refl), Hn'.
    eexists. split; [reflexivity|].
    now apply (Sim_insert K r r' s (name (getVariable r v)) v S Hs Et Hn').
Qed.

Lemma unregistered_fresh P r r' v :
  WF r P -> Sim K r r' -> length (heap r) <= v ->
  forall s2 k2, (k2, v) ∉ variables (getScope r' s2).
Proof.
  intros W S Hv s2 k2 Hin.
  destruct (sim_bwd _ _ _ S _ _ _ Hin) as [(k & Hk & _)|(_ & _ & _ & Hl & _)];
    [|lia].
  assert (Hr : (k, v) ∈ tableEntries r) by (apply entries_scope; eauto).
  pose proof (registered_lt _ _ _ _ W Hr). lia.
Qed.

Lemma grows_addName nm r : grows r (addName nm r).
Proof.
  apply grows_parts.
  - intros c k w. unfold getScope. now rewrite scopes_addName.
  - apply heapGrows_same, heap_addName.
  - apply used_addName.
Qed.

Lemma Sim_addName nm nm' r r' :
  Sim K r r' -> Sim K (addName nm r) (addName nm' r').
Proof.
  intros S. apply (Sim_ext K r r' _ _ S);
    auto using scopes_addName, heap_addName, scope_addName.
Qed.

Lemma sim_declare P nm kd site r r' r1 :
  WF r P -> Sim K r r' ->
  declare (scope r) nm kd site r = Ok r1 ->
  grows r1 fin ->
  exists r1', declare (scope r') (default nm (m !! site)) kd site r' = Ok r1'
              /\ Sim K r1 r1'.
Proof.
  intros W S H G. unfold declare, new_Variable in *.
  rewrite (sim_scope _ _ _ S), (sim_len _ _ _ S).
  set (v := length (heap r)) in *.
  set (nm' := default nm (m !! site)).
  set (rb := pushDeclaration v site (setHeap (fun h => h ++ [mkVariable nm kd [] []]) r)) in *.
  set (rb' := pushDeclaration v site
                (setHeap (fun h => h ++ [mkVariable nm' kd [] []]) r')).
  destruct (addVariable (scope r) v rb) as [r3|] eqn:E3; [|discriminate].
  injection H as <-.
  assert (Gb : forall w, getVariable rb w
     = if decide (w = v) then mkVariable nm kd [site] [] else getVariable r w)
    by (intros w; apply getVariable_declared).
  assert (Gb' : forall w, getVariable rb' w
     = if decide (w = v) then mkVariable nm' kd [site] [] else getVariable r' w).
  { intros w. unfold rb', v. rewrite <- (sim_len _ _ _ S).
    apply getVariable_declared. }
  assert (Sb : Sim K rb rb').
  { apply (Sim_heap_change K r r'); try reflexivity; try exact S.
    - cbn. rewrite length_alter, length_app. lia.
    - cbn. rewrite !length_alter, !length_app, (sim_len _ _ _ S). reflexivity.
    - intros w. rewrite Gb, Gb'. destruct (decide (w = v)); [repeat split|].
      apply (sim_heap _ _ _ S).
    - intros c k w Hw (_ & _ & X3 & X4 & _ & X6). rewrite Gb.
      destruct (decide (w = v)); [unfold v in *; lia|auto]. }
  pose proof (wf_cursor _ _ W) as Hc.
  assert (Hlt : forall e, tableGet nm (variables (getScope r (scope r))) = Some e ->
                          e < length (heap r)).
  { intros e He. apply (registered_lt _ _ _ _ W (tableGet_registered _ _ _ _ He)). }
  assert (Eb : name (getVariable rb v) = nm).
  { rewrite Gb. destruct (decide (v = v)); [reflexivity|congruence]. }
  assert (Eb' : name (getVariable rb' v) = nm').
  { rewrite Gb'. destruct (decide (v = v)); [reflexivity|congruence]. }
  destruct (addVariable_owner _ _ _ _ E3 Hc) as (Ho1 & Ho2).
  { rewrite Eb. intros e He. cbn. rewrite length_alter, length_app.
    specialize (Hlt e He). lia. }
  rewrite Eb in Ho1.
  change (variables (getScope rb (scope r))) with (variables (getScope r (scope r))) in Ho1, Ho2.
  rewrite Eb in Ho2.
  assert (Hname : nm' = K (default v (tableGet nm (variables (getScope r (scope r)))))).
  { symmetry. unfold nm'. symmetry.
    apply (final_name (addName nm r3) (scope r) nm); [exact G| |].
    - unfold getScope. rewrite scopes_addName. exact Ho1.
    - unfold sitesOf, getVariable. rewrite heap_addName. apply Ho2.
      rewrite Gb. destruct (decide (v = v)); [|congruence]. cbn. constructor. }
  destruct (sim_addVariable_same (scope r) v rb rb' r3 Sb Hc) as (r3' & E3' & S3).
  - apply (unregistered_fresh P r r' v W S). unfold v. lia.
  - exact E3.
  - eapply grows_trans; [apply (grows_addName nm)|exact G].
  - rewrite Eb, Eb'. intros e He.
    change (variables (getScope rb (scope r))) with (variables (getScope r (scope r))) in He.
    rewrite He in Hname. exact Hname.
  - rewrite Eb, Eb'. intros He.
    change (variables (getScope rb (scope r))) with (variables (getScope r (scope r))) in He.
    rewrite He in Hname. exact Hname.
  - rewrite E3'. eexists. split; [reflexivity|]. now apply Sim_addName.
Qed.

Lemma sim_arguments P r r' r1 :
  WF r P -> Sim K r r' ->
  opStep OArguments r = Ok r1 -> grows r1 fin ->
  exists r1', opStep OArguments r' = Ok r1' /\ Sim K r1 r1'.
Proof.
  intros W S H G. cbn [opStep] in *. unfold new_Variable in *.
  cbn [scope setHeap] in *.
  rewrite (sim_scope _ _ _ S), (sim_len _ _ _ S).
  set (v := length (heap r)) in *.
  set (y := mkVariable "arguments" var [] []) in *.
  set (ra := setHeap (fun h => h ++ [y]) r) in *.
  set (ra' := setHeap (fun h => h ++ [y]) r').
  assert (Ga : forall w, getVariable ra w
     = if decide (w = v) then y else getVariable r w)
    by (intros w; apply getVariable_app).
  assert (Ga' : forall w, getVariable ra' w
     = if decide (w = v) then y else getVariable r' w).
  { intros w. unfold ra', v. rewrite <- (sim_len _ _ _ S). apply getVariable_app. }
  assert (Sa : Sim K ra ra').
  { apply (Sim_heap_change K r r'); try reflexivity; try exact S.
    - cbn. rewrite length_app. lia.
    - cbn. rewrite !length_app, (sim_len _ _ _ S). reflexivity.
    - intros w. rewrite Ga, Ga'. destruct (decide (w = v)); [repeat split|].
      apply (sim_heap _ _ _ S).
    - intros c k w Hw (_ & _ & X3 & X4 & _ & X6). rewrite Ga.
      destruct (decide (w = v)); [unfold v in *; lia|auto]. }
  pose proof (wf_cursor _ _ W) as Hc.
  assert (Ea : name (getVariable ra v) = "arguments").
  { rewrite Ga. destruct (decide (v = v)); [reflexivity|congruence]. }
  assert (Ea' : name (getVariable ra' v) = "arguments").
  { rewrite Ga'. destruct (decide (v = v)); [reflexivity|congruence]. }
  destruct (addVariable_owner _ _ _ _ H Hc) as (Ho1 & _).
  { rewrite Ea. intros e He. cbn. rewrite length_app.
    pose proof (registered_lt _ _ _ _ W (tableGet_registered r _ _ _ He)). lia. }
  rewrite Ea in Ho1.
  pose proof (fin_keep _ _ (grows_entry _ _ _ _ G Ho1) eq_refl) as Hk.
  apply (sim_addVariable_same (scope r) v ra ra' r1 Sa Hc); try assumption.
  - apply (unregistered_fresh P r r' v W S). unfold v. lia.
  - rewrite Ea, Ea'. intros e He. rewrite He in Hk. cbn in Hk. congruence.
  - rewrite Ea, Ea'. intros He. rewrite He in Hk. cbn in Hk. congruence.
Qed.

Lemma sim_use P (Fut : list NodeId) nm k r r' r1 :
  WF r P -> Sim K r r' ->
  opStep (OUse nm k) r = Ok r1 -> k ∉ P ->
  grows r1 fin ->
  (forall y, regSite fin y -> regSite r1 y \/ y ∈ Fut) -> k ∉ Fut ->
  exists r1', opStep (OUse (default nm (m !! k)) k) r' = Ok r1' /\ Sim K r1 r1'.
Proof.
  intros W Sm H HP G HF Hk. cbn [opStep] in *. unfold lookupVariable in *.
  rewrite (sim_scope _ _ _ Sm).
  pose proof (grows_trans _ _ _ (grows_op (OUse nm k) r r1 P W H) G) as G0.
  destruct (lookupFrom (S (scope r)) (scopes r) (scope r) nm) as [v|] eqn:El.
  - injection H as <-.
    pose proof (lookupFrom_registered _ _ _ _ _ El) as Hr.
    pose proof (registered_lt _ _ _ _ W Hr) as Hv.
    destruct (proj1 (entries_scope _ _ _) Hr) as [c Hc].
    assert (Hname : default nm (m !! k) = K v).
    { apply (final_name (pushReference v k r) c nm); [exact G|exact Hc|].
      unfold sitesOf, pushReference. rewrite getVariable_alter.
      destruct (decide (_ /\ _)) as [_|Hn]; [|exfalso; apply Hn; auto].
      unfold varSites. cbn. rewrite !elem_of_app, list_elem_of_singleton. auto. }
    rewrite Hname.
    rewrite (lookupFrom_sim r r' nm (K v) (Some v) (sim_shapes _ _ _ Sm)
               ltac:(intros c0 Hn; exact (absent_final _ _ _ _ _ Sm G0 Hn
                        (grows_entry _ _ _ _ G0 Hc)))
               ltac:(intros c0 v0 [= <-] Hs;
                     exact (present_final _ _ _ _ _ Sm (tableGet_Some_elem _ _ _ Hs)))
               _ _ El).
    eexists. split; [reflexivity|].
    apply (Sim_heap_change K r r'); try reflexivity; try exact Sm.
    + cbn. now rewrite length_alter.
    + cbn. rewrite !length_alter. apply (sim_len _ _ _ Sm).
    + intros w. unfold pushReference. rewrite !getVariable_alter, (sim_len _ _ _ Sm).
      destruct (sim_heap _ _ _ Sm v) as (Kv & Dv & Rv).
      destruct (decide (w = v /\ _)); [|apply (sim_heap _ _ _ Sm)].
      split; [exact Kv|]. split; [exact Dv|cbn; congruence].
    + intros c0 k0 w Hw (_ & _ & X3 & _ & X5 & X6).
      unfold pushReference. rewrite getVariable_alter.
      destruct (decide (w = v /\ _)) as [[-> _]|]; [|auto].
      exfalso. exact (X5 _ _ Hc).
  - unfold new_Variable in *. injection H as <-.
    rewrite (sim_len _ _ _ Sm).
    set (v := length (heap r)) in *.
    set (y := mkVariable nm var [] []) in *.
    assert (Hreg : forall k0 w, (k0, w) ∈ tableEntries r -> w <> v).
    { intros k0 w Hw. pose proof (registered_lt _ _ _ _ W Hw). unfold v. lia. }
    assert (Horph : m !! k = None).
    { apply (orphan_name _ Fut k HF); [|exact Hk].
      intros (k0 & w & Hw & Hx).
      change (tableEntries (pushReference v k (addName nm (setHeap (fun h => h ++ [y]) r))))
        with (tableEntries (addName nm (setHeap (fun h => h ++ [y]) r))) in Hw.
      rewrite tableEntries_addName in Hw.
      change (tableEntries (setHeap (fun h => h ++ [y]) r)) with (tableEntries r) in Hw.
      apply HP. apply (wf_sites _ _ W k0 w k Hw).
      unfold sitesOf, getVariable in Hx |- *. cbn [heap pushReference setHeap] in Hx.
      rewrite heap_addName in Hx. cbn [heap setHeap] in Hx.
      rewrite list_lookup_alter_ne in Hx by (symmetry; now apply (Hreg k0)).
      rewrite lookup_app_l in Hx by apply (registered_lt _ _ _ _ W Hw).
      exact Hx. }
    rewrite Horph. cbn [default].
    assert (Hcond : shouldRename nm = true \/ nm ∈ usedVariableNames fin \/ nm = "arguments").
    { destruct (shouldRename nm) eqn:En; [now left|right; left].
      apply G. cbn. apply used_addName. exact En. }
    rewrite (lookupFrom_sim r r' nm nm None (sim_shapes _ _ _ Sm)
               ltac:(intros c0 Hn; exact (absent_orphan _ _ _ _ Sm G0 Hn Hcond))
               ltac:(intros c0 v0 [=]) _ _ El).
    eexists. split; [reflexivity|].
    eapply (Sim_ext K (pushReference v k (setHeap (fun h => h ++ [y]) r))
                      (pushReference v k (setHeap (fun h => h ++ [y]) r')));
      try (cbn; rewrite ?scopes_addName, ?heap_addName, ?scope_addName;
           reflexivity).
    assert (Gb : forall w,
       getVariable (pushReference v k (setHeap (fun h => h ++ [y]) r)) w
       = if decide (w = v) then mkVariable nm var [] [k] else getVariable r w)
      by (intros w; apply getVariable_referred).
    assert (Gb' : forall w,
       getVariable (pushReference v k (setHeap (fun h => h ++ [y]) r')) w
       = if decide (w = v) then mkVariable nm var [] [k] else getVariable r' w).
    { intros w. unfold v. rewrite <- (sim_len _ _ _ Sm).
      apply getVariable_referred. }
    apply (Sim_heap_change K r r'); try reflexivity; try exact Sm.
    + cbn. rewrite length_alter, length_app. lia.
    + cbn. rewrite !length_alter, !length_app, (sim_len _ _ _ Sm). reflexivity.
    + intros w. rewrite Gb, Gb'.
      destruct (decide (w = _)); [repeat split|apply (sim_heap _ _ _ Sm)].
    + intros c0 k0 w Hw (_ & _ & X3 & X4 & _ & X6). rewrite Gb.
      destruct (decide (w = _)); [unfold v in *; lia|auto].
Qed.

Lemma Sim_heapStep r r' r1 r1' z z' :
  Sim K r r' ->
  scopes r1 = scopes r -> scope r1 = scope r ->
  scopes r1' = scopes r' -> scope r1' = scope r' ->
  heapStep r r1 z -> heapStep r' r1' z' -> sameSites z z' ->
  Sim K r1 r1'.
Proof.
  intros Sm E1 E2 E1' E2' (L & Hz & Ho) (L' & Hz' & Ho') Hzz.
  pose proof (sim_len _ _ _ Sm) as Hl. rewrite Hl in *.
  apply (Sim_heap_change K r r'); try assumption.
  - lia.
  - lia.
  - intros w. destruct (decide (w = length (heap r))) as [->|Hne].
    + now rewrite Hz, Hz'.
    + destruct (Ho w Hne) as (A1 & A2 & A3).
      destruct (Ho' w Hne) as (B1 & B2 & B3).
      destruct (sim_heap _ _ _ Sm w) as (C1 & C2 & C3).
      repeat split; congruence.
  - intros c k w Hw (_ & _ & X3 & X4 & _ & X6).
    destruct (Ho w ltac:(lia)) as (A1 & A2 & A3). split; congruence.
Qed.

Lemma heapStep_push (q q1 : Renamer) y site :
  heap q1 = alter (fun x => mkVariable (name x) (kind x)
                              (declarations x ++ [site]) (references x))
                  (length (heap q)) (heap q ++ [y]) ->
  heapStep q q1 (mkVariable (name y) (kind y) (declarations y ++ [site])
                            (references y)).
Proof.
  intros E. unfold heapStep, getVariable. rewrite E.
  split; [now rewrite length_alter, length_app, Nat.add_1_r|]. split.
  - rewrite list_lookup_alter_eq, list_lookup_middle by reflexivity. reflexivity.
  - intros w Hw. rewrite list_lookup_alter_ne by congruence.
    destruct (decide (w < length (heap q))).
    + rewrite lookup_app_l by assumption. apply sameSites_refl.
    + rewrite !lookup_ge_None_2 by (rewrite ?length_app; simpl; lia).
      apply sameSites_refl.
Qed.

Lemma heapStep_merge_push (q q1 : Renamer) y e site :
  e < length (heap q) -> declarations y = [] ->
  heap q1 = alter (fun x => mkVariable (name x) (kind x)
                              (declarations x ++ [site]) (references x))
                  (length (heap q))
                  (alter (fun x => mkVariable (name x) (kind x)
                                     (declarations x ++ declarations y)
                                     (references x))
                         e (heap q ++ [y])) ->
  heapStep q q1 (mkVariable (name y) (kind y) (declarations y ++ [site])
                            (references y)).
Proof.
  intros He Hy E. unfold heapStep, getVariable. rewrite E.
  split; [now rewrite !length_alter, length_app, Nat.add_1_r|]. split.
  - rewrite list_lookup_alter_eq.
    rewrite list_lookup_alter_ne by (intros ->; lia).
    rewrite list_lookup_middle by reflexivity. reflexivity.
  - intros w Hw. rewrite list_lookup_alter_ne by congruence.
    rewrite list_lookup_alter. destruct (decide (e = w)) as [->|].
    + rewrite lookup_app_l by assumption.
      destruct (lookup_lt_is_Some_2 _ _ He) as [x ->]. cbn.
      repeat split. cbn. now rewrite Hy, app_nil_r.
    + destruct (decide (w < length (heap q))).
      * rewrite lookup_app_l by assumption. apply sameSites_refl.
      * rewrite !lookup_ge_None_2 by (rewrite ?length_app; simpl; lia).
        apply sameSites_refl.
Qed.

Lemma sim_declarator P (Fut : list NodeId) kd nm site r r' r1 :
  WF r P -> Sim K r r' ->
  opStep (ODeclarator kd nm site) r = Ok r1 -> site ∉ P ->
  grows r1 fin ->
  (forall y, regSite fin y -> regSite r1 y \/ y ∈ Fut) -> site ∉ Fut ->
  exists r1', opStep (ODeclarator kd (default nm (m !! site)) site) r' = Ok r1'
              /\ Sim K r1 r1'.
Proof.
  intros W Sm H HP G HF Hsite.
  pose proof (grows_trans _ _ _
    (grows_op (ODeclarator kd nm site) r r1 P W H) G) as G0.
  cbn [opStep] in *.
  rewrite (getDeclarationScope_shapes r r' kd (sim_shapes _ _ _ Sm)
             (sim_scope _ _ _ Sm)).
  set (d := getDeclarationScope r (scope r) kd) in *.
  pose proof (wf_cursor _ _ W) as Hc.
  pose proof (sim_len _ _ _ Sm) as Hlen.
  destruct (tableGet nm (variables (getScope r d))) as [v|] eqn:Ed.
  - destruct (isBlockScoped (getVariable r v) || blockScopedTypes kd) eqn:Eb;
      [discriminate|]. injection H as <-.
    pose proof (tableGet_Some_elem _ _ _ Ed) as Hin.
    pose proof (registered_lt _ _ _ _ W (tableGet_registered _ _ _ _ Ed)) as Hv.
    assert (Hname : default nm (m !! site) = K v).
    { apply (final_name (pushDeclaration v site r) d nm); [exact G|exact Hin|].
      unfold sitesOf, pushDeclaration. rewrite getVariable_alter.
      destruct (decide (_ /\ _)) as [_|Hn]; [|exfalso; apply Hn; auto].
      unfold varSites. cbn. rewrite !elem_of_app, list_elem_of_singleton. auto. }
    rewrite Hname, (present_final _ _ _ _ _ Sm Hin).
    destruct (sim_heap _ _ _ Sm v) as (Kv & Dv & Rv).
    unfold isBlockScoped in *. rewrite Kv, Eb.
    eexists. split; [reflexivity|].
    apply (Sim_heap_change K r r'); try reflexivity; try exact Sm.
    + cbn. now rewrite length_alter.
    + cbn. rewrite !length_alter. exact Hlen.
    + intros w. unfold pushDeclaration. rewrite !getVariable_alter, Hlen.
      destruct (decide (w = v /\ _)); [|apply (sim_heap _ _ _ Sm)].
      split; [exact Kv|]. split; [cbn; congruence|exact Rv].
    + intros c0 k0 w Hw (_ & _ & X3 & _ & X5 & X6).
      unfold pushDeclaration. rewrite getVariable_alter.
      destruct (decide (w = v /\ _)) as [[-> _]|]; [|auto].
      exfalso. exact (X5 _ _ Hin).
  - unfold new_Variable in *. cbn [scope setHeap] in *.
    rewrite (sim_scope _ _ _ Sm), Hlen.
    set (v := length (heap r)) in *.
    set (y := mkVariable nm kd [] []) in *.
    set (ra := setHeap (fun h => h ++ [y]) r) in *.
    destruct (addVariable (scope r) v ra) as [r2|] eqn:E2; [|discriminate].
    cbn [bind] in H. injection H as <-.
    assert (Ga : getVariable ra v = y).
    { unfold ra, v. rewrite getVariable_app.
      destruct (decide (_ = _)); [reflexivity|congruence]. }
    assert (Ga' : forall y', getVariable (setHeap (fun h => h ++ [y']) r') v = y').
    { intros y'. rewrite <- Hlen, getVariable_app.
      destruct (decide (_ = _)); [reflexivity|congruence]. }
    assert (Hreg : forall k0 w, (k0, w) ∈ tableEntries r -> w < v).
    { intros k0 w Hw. apply (registered_lt _ _ _ _ W Hw). }
    assert (Hun : forall s2 k2, (k2, v) ∉ variables (getScope r' s2)).
    { apply (unregistered_fresh P r r' v W Sm). unfold v. lia. }
    assert (Hk0 : forall w, w < v -> kind (getVariable ra w) = kind (getVariable r w)).
    { intros w Hw. unfold ra. rewrite getVariable_app.
      destruct (decide (_ = _)); [unfold v in *; lia|reflexivity]. }
    assert (Hk' : forall w, w < v ->
              kind (getVariable (setHeap (fun h => h ++ [y]) r') w)
              = kind (getVariable r w)).
    { intros w Hw. rewrite getVariable_app.
      destruct (decide (_ = _)); [lia|apply (sim_heap _ _ _ Sm)]. }
    unfold addVariable in E2. rewrite Ga in E2. cbn [name y] in E2.
    change (getScope ra (scope r)) with (getScope r (scope r)) in E2.
    destruct (tableGet nm (variables (getScope r (scope r)))) as [e|] eqn:Es.
    + (* the name is in the table of the current scope: merged, orphan *)
      destruct (isBlockScoped (getVariable ra e) || isBlockScoped y) eqn:Eb;
        [discriminate|]. injection E2 as <-.
      apply orb_false_elim in Eb as [Eb1 Eb2].
      pose proof (tableGet_Some_elem _ _ _ Es) as Hin.
      assert (He : e < v) by (apply (Hreg nm), (tableGet_registered _ _ _ _ Es)).
      set (r1 := pushDeclaration v site (addName nm
                   (setHeap (alter (fun x => mkVariable (name x) (kind x)
                      (declarations x ++ declarations y) (references x)) e) ra))) in *.
      assert (Hs1 : scopes r1 = scopes r)
        by (unfold r1; cbn; now rewrite scopes_addName).
      assert (Hc1 : scope r1 = scope r)
        by (unfold r1; cbn; now rewrite scope_addName).
      assert (St : heapStep r r1 (mkVariable nm kd [site] [])).
      { apply (heapStep_merge_push r r1 y e site He eq_refl).
        unfold r1. cbn. now rewrite heap_addName. }
      assert (Horph : m !! site = None).
      { apply (orphan_name _ Fut site HF); [|exact Hsite].
        intros (k0 & w & Hw & Hx).
        assert (Hw' : (k0, w) ∈ tableEntries r).
        { assert (Ht1 : tableEntries r1 = tableEntries r)
            by (unfold tableEntries; now rewrite Hs1).
          rewrite <- Ht1. exact Hw. }
        apply HP. apply (wf_sites _ _ W k0 w site Hw').
        destruct St as (_ & _ & Ho).
        destruct (Ho w) as (_ & D & R).
        { specialize (Hreg _ _ Hw'). unfold v in *. lia. }
        unfold sitesOf, varSites in *. now rewrite <- D, <- R. }
      rewrite Horph. cbn [default].
      assert (Hcond : shouldRename nm = true
                      \/ nm ∈ usedVariableNames fin \/ nm = "arguments").
      { destruct (shouldRename nm) eqn:En; [now left|right; left].
        apply G. unfold r1. cbn. apply used_addName. exact En. }
      rewrite (absent_orphan _ _ _ _ Sm G0 Ed Hcond).
      set (ra' := setHeap (fun h => h ++ [y]) r').
      assert (Gy : getVariable ra' v = y) by apply Ga'.
      unfold addVariable. fold y. fold ra'. rewrite Gy. cbn [name y].
      change (getScope ra' (scope r)) with (getScope r' (scope r)).
      destruct (tableGet nm (variables (getScope r' (scope r)))) as [w|] eqn:Es'.
      * assert (Hw : w < v /\ isBlockScoped (getVariable ra' w) = false).
        { destruct (sim_bwd _ _ _ Sm _ _ _ (tableGet_Some_elem _ _ _ Es'))
            as [(k & Hk & Ek)|(_ & _ & X3 & X4 & _)].
          - pose proof (grows_entry _ _ _ _ G0 Hk) as Hf.
            assert (k = nm) as ->.
            { destruct Hcond as [Hcd|Hcd].
              - rewrite Ek, (fin_new _ _ Hf) in Hcd. discriminate.
              - rewrite Ek. symmetry. apply fin_used; [exact Hf|].
                now rewrite <- Ek. }
            assert (w = e) as ->.
            { pose proof (tableGet_elem nm w _ (WF_keys r P (scope r) W) Hk) as Hg.
              congruence. }
            split; [exact He|]. unfold isBlockScoped in *. unfold ra'.
            rewrite (Hk' e He), <- (Hk0 e He). exact Eb1.
          - split; [exact X4|]. unfold isBlockScoped, ra'.
            rewrite (Hk' w X4), X3. reflexivity. }
        destruct Hw as [Hwv Hwb]. rewrite Hwb, Eb2. cbn [orb bind].
        eexists. split; [reflexivity|].
        apply (Sim_heapStep r r' r1 _ (mkVariable nm kd [site] [])
                 (mkVariable nm kd [site] []) Sm Hs1 Hc1);
          try (cbn; rewrite ?scopes_addName, ?scope_addName; reflexivity).
        -- exact St.
        -- apply (heapStep_merge_push r' _ y w site); [lia|reflexivity|].
           rewrite Hlen. cbn. now rewrite heap_addName.
        -- apply sameSites_refl.
      * cbn [bind]. eexists. split; [reflexivity|].
        assert (Hel : shouldRename nm = true).
        { destruct (shouldRename nm) eqn:En; [reflexivity|exfalso].
          pose proof (fin_keep _ _ (grows_entry _ _ _ _ G0 Hin) En) as Hke.
          pose proof (present_final _ _ _ _ _ Sm Hin) as Hp.
          rewrite Hke in Hp. congruence. }
        set (rH' := pushDeclaration v site ra').
        assert (St' : heapStep r' rH' (mkVariable nm kd [site] [])).
        { apply (heapStep_push r' rH' y site). rewrite Hlen. reflexivity. }
        assert (SmH : Sim K r1 rH').
        { apply (Sim_heapStep r r' r1 rH' _ _ Sm Hs1 Hc1 eq_refl eq_refl St St').
          apply sameSites_refl. }
        assert (Hx : extra r1 (scope r) nm v).
        { destruct St as (L1 & Z1 & _). fold v in Z1.
          split; [exact Hel|]. split.
          { unfold getScope. rewrite Hs1. fold (getScope r (scope r)).
            rewrite Es. eauto. }
          split; [rewrite Z1; cbn; destruct kd; try discriminate; reflexivity|].
          split; [unfold v; lia|]. split; [|now rewrite Z1].
          intros s2 k2 Hin2. unfold getScope in Hin2. rewrite Hs1 in Hin2.
          fold (getScope r s2) in Hin2.
          assert (Hr2 : (k2, v) ∈ tableEntries r) by (apply entries_scope; eauto).
          specialize (Hreg _ _ Hr2). lia. }
        assert (Hc1' : scope r < length (scopes r1)) by now rewrite Hs1.
        pose proof (Sim_insert_extra K r1 rH' (scope r) nm v SmH Hc1' Es' Hx) as SmI.
        apply (Sim_ext K _ _ _ _ SmI); try reflexivity;
          cbn; rewrite ?scopes_addName, ?heap_addName, ?scope_addName; reflexivity.
    + (* the name is in neither table: inserted by both walks *)
      injection E2 as <-.
      set (r1 := pushDeclaration v site (addName nm
                   (setScopes (alter (fun x => mkScope (node x) (type x) (parent x)
                      (children x) (tableSet nm v (variables x))) (scope r)) ra))) in *.
      assert (Hs1 : scopes r1 = alter (setTable nm v) (scope r) (scopes r))
        by (unfold r1; cbn; now rewrite scopes_addName).
      assert (St : heapStep r r1 (mkVariable nm kd [site] [])).
      { apply (heapStep_push r r1 y site). unfold r1. cbn. now rewrite heap_addName. }
      assert (Hown : (nm, v) ∈ variables (getScope r1 (scope r))).
      { unfold getScope. rewrite Hs1.
        change ((nm, v) ∈ variables (getScope
          (setScopes (alter (setTable nm v) (scope r)) r) (scope r))).
        rewrite (variables_setTable _ _ _ _ _ Hc Es).
        destruct (decide (scope r = scope r)); [|congruence].
        apply elem_of_app. right. constructor. }
      pose proof (grows_entry _ _ _ _ G Hown) as Hf.
      assert (Hname : default nm (m !! site) = K v).
      { apply (final_name r1 (scope r) nm); [exact G|exact Hown|].
        destruct St as (_ & Z1 & _). fold v in Z1.
        unfold sitesOf. rewrite Z1. unfold varSites. cbn. constructor. }
      rewrite Hname, (absent_final _ _ _ _ _ Sm G0 Ed Hf).
      set (y' := mkVariable (K v) kd [] []).
      set (ra' := setHeap (fun h => h ++ [y']) r').
      assert (Gy : getVariable ra' v = y') by apply Ga'.
      unfold addVariable. rewrite Gy. cbn [name y'].
      change (getScope ra' (scope r)) with (getScope r' (scope r)).
      pose proof (absent_final _ _ _ _ _ Sm G0 Es Hf) as Hn'.
      rewrite Hn'. cbn [bind]. eexists. split; [reflexivity|].
      set (rH := pushDeclaration v site ra).
      set (rH' := pushDeclaration v site ra').
      assert (SmH : Sim K rH rH').
      { apply (Sim_heapStep r r' rH rH' (mkVariable nm kd [site] [])
                 (mkVariable (K v) kd [site] []) Sm); try reflexivity.
        - apply (heapStep_push r rH y site). reflexivity.
        - apply (heapStep_push r' rH' y' site). rewrite Hlen. reflexivity.
        - repeat split. }
      pose proof (Sim_insert K rH rH' (scope r) nm v SmH Hc Es Hn' Hun) as SmI.
      apply (Sim_ext K _ _ _ _ SmI); try reflexivity;
        cbn; rewrite ?scopes_addName, ?heap_addName, ?scope_addName; reflexivity.
Qed.

Lemma sim_op P (Fut : list NodeId) o r r' r1 :
  WF r P -> Sim K r r' -> opStep o r = Ok r1 ->
  (forall x, x ∈ opSites o -> x ∉ P) ->
  grows r1 fin ->
  (forall y, regSite fin y -> regSite r1 y \/ y ∈ Fut) ->
  (forall x, x ∈ opSites o -> x ∉ Fut) ->
  exists r1', opStep (patchOp m o) r' = Ok r1' /\ Sim K r1 r1'.
Proof.
  intros W Sm H HP G HF HFut.
  destruct o as [nm kd site|k ty| |kd nm site|k|k|nm k]; cbn [patchOp].
  - cbn [opStep] in *. now apply (sim_declare P nm kd site r r' r1).
  - cbn [opStep] in *. injection H as <-. eexists. split; [reflexivity|].
    apply (Sim_open K r r' k ty Sm (wf_cursor _ _ W)).
  - now apply (sim_arguments P r r' r1).
  - apply (sim_declarator P Fut kd nm site r r' r1); try assumption.
    + apply HP. constructor.
    + apply HFut. constructor.
  - cbn [opStep] in *. injection H as <-. eexists. split; [reflexivity|].
    now apply Sim_leave.
  - cbn [opStep] in *. rewrite (Sim_findChild K r r' k Sm).
    destruct (findChild r k) as [s|]; [|discriminate]. injection H as <-.
    eexists. split; [reflexivity|]. now apply Sim_setScope.
  - apply (sim_use P Fut nm k r r' r1); try assumption.
    + apply HP. constructor.
    + apply HFut. constructor.
Qed.

Lemma sim_runOps os : forall r r' r1 P (Fut : list NodeId),
  WF r P -> usedOk r -> Sim K r r' -> runOps os r = Ok r1 ->
  NoDup (flat_map opSites os) ->
  (forall x, x ∈ flat_map opSites os -> x ∉ P) ->
  grows r1 fin ->
  (forall y, regSite fin y -> regSite r1 y \/ y ∈ Fut) ->
  (forall x, x ∈ flat_map opSites os -> x ∉ Fut) ->
  exists r1', runOps (patchOp m <$> os) r' = Ok r1' /\ Sim K r1 r1'.
Proof.
  induction os as [|o os IH]; intros r r' r1 P Fut W U Sm H Hn HP G HF HFut.
  - cbn in *. injection H as <-. eauto.
  - cbn [runOps] in H. destruct (opStep o r) as [r0|] eqn:E; [|discriminate].
    cbn [bind] in H. cbn [flat_map] in Hn, HP, HFut.
    apply NoDup_app in Hn as (Hn1 & Hn12 & Hn2).
    destruct (WF_op _ _ _ _ W U E) as (W0 & U0).
    { intros x Hx. apply HP, elem_of_app. now left. }
    assert (HP0 : forall x, x ∈ flat_map opSites os -> x ∉ opSites o ++ P).
    { intros x Hx Hin. apply elem_of_app in Hin as [Hin|Hin].
      - exact (Hn12 _ Hin Hx).
      - apply (HP x); [apply elem_of_app; now right|exact Hin]. }
    pose proof (grows_runOps os r0 r1 _ W0 U0 H Hn2 HP0) as G1.
    destruct (sim_op P (flat_map opSites os ++ Fut) o r r' r0 W Sm E)
      as (r0' & E' & Sm0).
    + intros x Hx. apply HP, elem_of_app. now left.
    + exact (grows_trans _ _ _ G1 G).
    + intros y Hy. destruct (HF y Hy) as [Hr|Hr].
      * destruct (regSite_runOps os r0 r1 _ y W0 U0 H Hn2 HP0 Hr) as [?|?];
          [now left|right; apply elem_of_app; now left].
      * right. apply elem_of_app. now right.
    + intros x Hx Hin. apply elem_of_app in Hin as [Hin|Hin].
      * exact (Hn12 _ Hx Hin).
      * apply (HFut x); [apply elem_of_app; now left|exact Hin].
    + destruct (IH r0 r0' r1 _ Fut W0 U0 Sm0 H Hn2 HP0 G HF) as (r1' & E1' & Sm1).
      { intros x Hx. apply HFut, elem_of_app. now right. }
      exists r1'. split; [|exact Sm1].
      rewrite fmap_cons. cbn [runOps]. rewrite E'. exact E1'.
Qed.

End Simulation.

(** ** The two walks over the renamed tree *)

Lemma Sim_new K : Sim K (setScope globalScope new_VariableRenamer)
                        (setScope globalScope new_VariableRenamer).
Proof.
  assert (Hv : forall s, variables
            (getScope (setScope globalScope new_VariableRenamer) s) = []).
  { intros [|[|s]]; reflexivity. }
  constructor; try reflexivity.
  - intros v. apply sameSites_refl.
  - intros s k v Hin. rewrite Hv in Hin. now apply elem_of_nil in Hin.
  - intros s k v Hin. rewrite Hv in Hin. now apply elem_of_nil in Hin.
  - intros s. rewrite Hv. constructor.
Qed.

Lemma walks_simulate ast r1 r2 (m : gmap NodeId string) (K : VarId -> string) :
  collectDeclarations ast new_VariableRenamer = Ok r1 ->
  collectReferences ast r1 = Ok r2 ->
  (forall k v x, (k, v) ∈ tableEntries r2 -> x ∈ sitesOf r2 v ->
                 default k (m !! x) = K v) ->
  (forall x, ~ regSite r2 x -> m !! x = None) ->
  (forall k v k' w, (k, v) ∈ tableEntries r2 -> (k', w) ∈ tableEntries r2 ->
                    K v = K w -> k = k') ->
  (forall k v, (k, v) ∈ tableEntries r2 -> shouldRename (K v) = false) ->
  (forall k v, (k, v) ∈ tableEntries r2 -> shouldRename k = false -> K v = k) ->
  (forall k v, (k, v) ∈ tableEntries r2 ->
     K v ∈ usedVariableNames r2 \/ K v = "arguments" -> K v = k) ->
  exists r1' r2',
    collectDeclarations (patch m 0 ast) new_VariableRenamer = Ok r1'
    /\ collectReferences (patch m 0 ast) r1' = Ok r2'
    /\ Sim K r2 r2'.
Proof.
  intros H1 H2 A1 A2 A3 A4 A5 A6.
  rewrite collectDeclarations_patch, collectDeclarations_ops in *.
  rewrite collectReferences_ops in H2.
  set (ops1 := flat_map declOps (events 0 ast)) in *.
  set (ops2 := flat_map refOps (events 0 ast)) in *.
  pose proof (nodeSites_NoDup ast 0) as Hn. unfold nodeSites in Hn.
  unfold eventSites in Hn. rewrite flat_map_split in Hn.
  assert (E1 : flat_map opSites ops1 = flat_map eventDeclSites (events 0 ast)).
  { unfold ops1. rewrite flat_map_flat_map. apply flat_map_ext.
    intros e. apply opSites_declOps. }
  assert (E2 : flat_map opSites ops2 = flat_map eventRefSites (events 0 ast)).
  { unfold ops2. rewrite flat_map_flat_map. apply flat_map_ext.
    intros e. apply opSites_refOps. }
  rewrite <- E1, <- E2 in Hn.
  apply NoDup_app in Hn as (Hd & Hdr & Hr).
  set (r0 := setScope globalScope new_VariableRenamer) in *.
  assert (W0 : WF r0 []).
  { apply WF_setScope; [exact WF_new|]. simpl. unfold globalScope. lia. }
  assert (U0 : usedOk r0) by (intros k v H; now apply elem_of_nil in H).
  assert (HP0 : forall x, x ∈ flat_map opSites ops1 -> x ∉ @nil NodeId).
  { intros x _. apply not_elem_of_nil. }
  destruct (WF_runOps ops1 r0 r1 [] W0 U0 H1 Hd HP0) as (W1 & U1).
  rewrite app_nil_r in W1.
  set (r1s := setScope globalScope r1) in *.
  assert (W1' : WF r1s (flat_map opSites ops1)).
  { apply WF_setScope; [exact W1|].
    pose proof (wf_cursor _ _ W1). unfold globalScope. lia. }
  assert (HP1 : forall x, x ∈ flat_map opSites ops2 -> x ∉ flat_map opSites ops1).
  { intros x Hx Hin. exact (Hdr _ Hin Hx). }
  pose proof (grows_runOps ops2 r1s r2 _ W1' U1 H2 Hr HP1) as G12.
  destruct (sim_runOps r2 m K A1 A2 A3 A4 A5 A6 ops1 r0 r0 r1 []
              (flat_map opSites ops2) W0 U0 (Sim_new K) H1 Hd HP0)
    as (r1' & E1' & Sm1).
  - exact G12.
  - intros y Hy.
    destruct (regSite_runOps ops2 r1s r2 _ y W1' U1 H2 Hr HP1 Hy); auto.
  - intros x Hx Hin. exact (Hdr _ Hx Hin).
  - exists r1'. rewrite E1'.
    destruct (sim_runOps r2 m K A1 A2 A3 A4 A5 A6 ops2 r1s
                (setScope globalScope r1') r2 _ [] W1' U1
                (Sim_setScope K _ _ globalScope Sm1) H2 Hr HP1)
      as (r2' & E2' & Sm2).
    + apply grows_refl.
    + intros y Hy. now left.
    + intros x _. apply not_elem_of_nil.
    + exists r2'. split; [reflexivity|]. split; [|exact Sm2].
      rewrite collectReferences_patch. exact E2'.
Qed.

(** ** Renaming preserves resolution *)

Lemma generated_name_not_arguments r nm :
  nm ∈ variableNames (generateNames r) -> nm <> "arguments".
Proof.
  intros H. apply generateNames_candidates in H.
  assert (Hall : forallb (fun x => negb (String.eqb x "arguments")) candidates
                 = true) by (vm_compute; reflexivity).
  rewrite forallb_forall in Hall. apply list_elem_of_In in H.
  specialize (Hall nm H). apply negb_true_iff, String.eqb_neq in Hall.
  exact Hall.
Qed.

(** The final names against the state left by the two walks. *)
Lemma final_names ast r1 r2 R :
  collectDeclarations ast new_VariableRenamer = Ok r1 ->
  collectReferences ast r1 = Ok r2 ->
  execute ast = Ok R ->
  let K v := name (getVariable R v) in
  (forall k v, (k, v) ∈ tableEntries r2 -> shouldRename k = true ->
     K v ∈ variableNames (generateNames r2)
     /\ forall x, x ∈ sitesOf r2 v -> patched R !! x = Some (K v))
  /\ (forall k v, (k, v) ∈ tableEntries r2 -> shouldRename k = false ->
        K v = k /\ forall x, x ∈ sitesOf r2 v -> patched R !! x = None)
  /\ (forall x, ~ regSite r2 x -> patched R !! x = None)
  /\ (forall k v k' w, (k, v) ∈ tableEntries r2 -> (k', w) ∈ tableEntries r2 ->
        shouldRename k = true -> shouldRename k' = true -> K v = K w -> v = w).
Proof.
  intros H1 H2 HR K.
  destruct (execute_renaming _ _ _ _ H1 H2 HR)
    as (_ & _ & Hall & Has & Hnd & Hkeep & Hpat).
  destruct (WF_walks _ _ _ H1 H2) as (X & W & _).
  set (a := assign (tableEntries r2) (variableNames (generateNames r2))) in *.
  assert (Hnot : forall k v, (k, v) ∈ tableEntries r2 -> shouldRename k = false ->
            v ∉ (fst <$> a)).
  { intros k v Hin Hk Hv.
    apply list_elem_of_fmap in Hv as ([v' nm] & Ev & A). simpl in Ev. subst v'.
    destruct (Has _ _ A) as ((k' & Hin' & Hk') & _).
    destruct (wf_valid _ _ W _ _ Hin) as (y & Hy & Ny).
    destruct (wf_valid _ _ W _ _ Hin') as (y' & Hy' & Ny').
    rewrite Hy in Hy'. injection Hy' as <-. congruence. }
  split; [|split; [|split]].
  - intros k v Hin Hk. destruct (Hall k v Hin Hk) as (nm & A).
    destruct (Has _ _ A) as (_ & Hg & Hname & Hsites). unfold K.
    rewrite Hname. auto.
  - intros k v Hin Hk. pose proof (Hnot k v Hin Hk) as Hv. split.
    + unfold K. rewrite (Hkeep v Hv).
      destruct (wf_valid _ _ W _ _ Hin) as (y & Hy & Ny).
      unfold getVariable. now rewrite Hy.
    + intros x Hx. apply Hpat. intros v' nm A Hx'.
      destruct (Has _ _ A) as ((k' & Hin' & Hk') & _).
      pose proof (wf_disj _ _ W _ _ _ _ _ Hin Hin' Hx Hx') as <-.
      apply Hv. apply list_elem_of_fmap. exists (v, nm). auto.
  - intros x Hx. apply Hpat. intros v nm A Hx'.
    destruct (Has _ _ A) as ((k & Hin & _) & _). apply Hx. now exists k, v.
  - intros k v k' w Hin Hin' Hk Hk' HK.
    destruct (Hall k v Hin Hk) as (nm0 & A0).
    destruct (Hall k' w Hin' Hk') as (nm1 & A1).
    destruct (Has _ _ A0) as (_ & _ & Hn0 & _).
    destruct (Has _ _ A1) as (_ & _ & Hn1 & _).
    unfold K in HK. rewrite Hn0, Hn1 in HK. subst nm1.
    apply list_elem_of_lookup in A0 as [i Hi].
    apply list_elem_of_lookup in A1 as [j Hj].
    assert (i = j) as ->.
    { apply (NoDup_lookup _ _ _ nm0 Hnd); rewrite list_lookup_fmap.
      - now rewrite Hi.
      - now rewrite Hj. }
    congruence.
Qed.

Lemma resolvesTo_spec r x s ds :
  resolvesTo r x s ds = true
  <-> exists k v, (k, v) ∈ variables (getScope r s)
                  /\ x ∈ references (getVariable r v)
                  /\ declarations (getVariable r v) = ds.
Proof.
  unfold resolvesTo. rewrite existsb_exists. split.
  - intros ([k v] & Hin & Hb). apply andb_true_iff in Hb as [Hb1 Hb2].
    apply bool_decide_eq_true in Hb1, Hb2. exists k, v.
    split; [now apply list_elem_of_In|auto].
  - intros (k & v & Hin & Hx & Hd). exists (k, v).
    split; [now apply list_elem_of_In|].
    apply andb_true_iff. split; now apply bool_decide_eq_true.
Qed.

(** X10.  When [execute] completes, the two collection walks run again
    over the renamed tree complete too, and they build the same scope
    tree; every variable that was registered is registered again, in the
    same scope, under the name the renaming gave it and with the same
    declaration and reference nodes; and every use resolves as before: it
    is a reference of a variable registered in scope [s] with declaration
    nodes [ds] after renaming exactly when it was before.  In particular a
    use that resolved to no registered variable still resolves to none. *)
Theorem renaming_preserves_resolution ast R :
  execute ast = Ok R ->
  exists r1 r2 r1' r2',
    collectDeclarations ast new_VariableRenamer = Ok r1
    /\ collectReferences ast r1 = Ok r2
    /\ collectDeclarations (patch (patched R) 0 ast) new_VariableRenamer = Ok r1'
    /\ collectReferences (patch (patched R) 0 ast) r1' = Ok r2'
    /\ shapes r2' = shapes r2
    /\ (forall s k v, (k, v) ∈ variables (getScope r2 s) ->
          (name (getVariable R v), v) ∈ variables (getScope r2' s)
          /\ declarations (getVariable r2' v) = declarations (getVariable r2 v)
          /\ references (getVariable r2' v) = references (getVariable r2 v))
    /\ (forall x s ds, resolvesTo r2' x s ds = resolvesTo r2 x s ds).
Proof.
  intros HR.
  destruct (collectDeclarations ast new_VariableRenamer) as [r1|e] eqn:H1;
    [|unfold execute in HR; rewrite H1 in HR; discriminate].
  destruct (collectReferences ast r1) as [r2|e] eqn:H2;
    [|unfold execute in HR; rewrite H1 in HR; cbn [bind] in HR;
      rewrite H2 in HR; discriminate].
  destruct (final_names _ _ _ _ H1 H2 HR) as (Fe & Fn & Fo & Fi).
  destruct (WF_walks _ _ _ H1 H2) as (X & W & U).
  set (K := fun v => name (getVariable R v)).
  assert (Fe' : forall k v, (k, v) ∈ tableEntries r2 -> shouldRename k = true ->
            K v ∈ variableNames (generateNames r2)
            /\ forall x, x ∈ sitesOf r2 v -> patched R !! x = Some (K v))
    by exact Fe.
  assert (Fn' : forall k v, (k, v) ∈ tableEntries r2 -> shouldRename k = false ->
            K v = k /\ forall x, x ∈ sitesOf r2 v -> patched R !! x = None)
    by exact Fn.
  assert (Fi' : forall k v k' w, (k, v) ∈ tableEntries r2 ->
            (k', w) ∈ tableEntries r2 -> shouldRename k = true ->
            shouldRename k' = true -> K v = K w -> v = w) by exact Fi.
  clear Fe Fn Fi.
  assert (Hgen : forall k v, (k, v) ∈ tableEntries r2 -> shouldRename k = true ->
            shouldRename (K v) = false /\ K v ∉ usedVariableNames r2
            /\ K v <> "arguments").
  { intros k v Hin Hk. destruct (Fe' k v Hin Hk) as (Hg & _).
    split; [exact (generated_names_not_eligible _ _ Hg)|].
    split; [exact (generateNames_unused _ _ Hg)|].
    exact (generated_name_not_arguments _ _ Hg). }
  destruct (walks_simulate ast r1 r2 (patched R) K H1 H2)
    as (r1' & r2' & H1' & H2' & Sm).
  - intros k v x Hin Hx. destruct (shouldRename k) eqn:Hk.
    + destruct (Fe' k v Hin Hk) as (_ & Hs). now rewrite (Hs x Hx).
    + destruct (Fn' k v Hin Hk) as (E & Hs). now rewrite (Hs x Hx), E.
  - exact Fo.
  - intros k v k' w Hin Hin' HK.
    destruct (shouldRename k) eqn:Hk, (shouldRename k') eqn:Hk'.
    + pose proof (Fi' _ _ _ _ Hin Hin' Hk Hk' HK) as <-.
      destruct (wf_valid _ _ W _ _ Hin) as (y & Hy & Ny).
      destruct (wf_valid _ _ W _ _ Hin') as (y' & Hy' & Ny').
      rewrite Hy in Hy'. injection Hy' as <-. congruence.
    + exfalso. destruct (Hgen k v Hin Hk) as (_ & Hu & Ha).
      destruct (Fn' k' w Hin' Hk') as (Ek & _).
      destruct (U k' w Hin' Hk') as [Hin2|Harg]; [apply Hu|apply Ha]; congruence.
    + exfalso. destruct (Hgen k' w Hin' Hk') as (_ & Hu & Ha).
      destruct (Fn' k v Hin Hk) as (Ek & _).
      destruct (U k v Hin Hk) as [Hin2|Harg]; [apply Hu|apply Ha]; congruence.
    + destruct (Fn' k v Hin Hk) as (E1 & _).
      destruct (Fn' k' w Hin' Hk') as (E2 & _). congruence.
  - intros k v Hin. destruct (shouldRename k) eqn:Hk.
    + apply (Hgen k v Hin Hk).
    + destruct (Fn' k v Hin Hk) as (E & _). now rewrite E.
  - intros k v Hin Hk. apply (Fn' k v Hin Hk).
  - intros k v Hin Hc. destruct (shouldRename k) eqn:Hk.
    + exfalso. destruct (Hgen k v Hin Hk) as (_ & Hu & Ha).
      destruct Hc; [now apply Hu|now apply Ha].
    + apply (Fn' k v Hin Hk).
  - exists r1, r2, r1', r2'. split; [reflexivity|]. split; [exact H2|].
    split; [exact H1'|]. split; [exact H2'|]. split; [apply Sm|]. split.
    + intros s k v Hin. split; [exact (sim_fwd _ _ _ Sm s k v Hin)|].
      destruct (sim_heap _ _ _ Sm v) as (_ & D & Rf). auto.
    + intros x s ds. apply eq_true_iff_eq. rewrite !resolvesTo_spec. split.
      * intros (k' & v & Hin & Hx & Hd).
        destruct (sim_heap _ _ _ Sm v) as (_ & D & Rf).
        destruct (sim_bwd _ _ _ Sm _ _ _ Hin) as [(k & Hk & _)|Hex].
        -- exists k, v. rewrite <- D, <- Rf. auto.
        -- destruct Hex as (_ & _ & _ & _ & _ & X6).
           rewrite Rf, X6 in Hx. now apply elem_of_nil in Hx.
      * intros (k & v & Hin & Hx & Hd).
        destruct (sim_heap _ _ _ Sm v) as (_ & D & Rf).
        exists (K v), v. rewrite D, Rf.
        split; [exact (sim_fwd _ _ _ Sm s k v Hin)|auto].
Qed.

Lemma renaming_preserves_resolution_witness :
  exists R r1' r2',
    execute
      (Script [FunctionDeclaration "_0xf" [BindingIdentifier "_0xa"]
         [BlockStatement
            [VariableDeclaration var
               [VariableDeclarator (BindingIdentifier "_0xb") None;
                VariableDeclarator (BindingIdentifier "_0xb") None];
             IdentifierExpression "_0xb"; IdentifierExpression "_0xa";
             IdentifierExpression "g"]]]) = Ok R
    /\ collectDeclarations
         (patch (patched R) 0
            (Script [FunctionDeclaration "_0xf" [BindingIdentifier "_0xa"]
               [BlockStatement
                  [VariableDeclaration var
                     [VariableDeclarator (BindingIdentifier "_0xb") None;
                      VariableDeclarator (BindingIdentifier "_0xb") None];
                   IdentifierExpression "_0xb"; IdentifierExpression "_0xa";
                   IdentifierExpression "g"]]]))
         new_VariableRenamer = Ok r1'
    /\ collectReferences
         (patch (patched R) 0
            (Script [FunctionDeclaration "_0xf" [BindingIdentifier "_0xa"]
               [BlockStatement
                  [VariableDeclaration var
                     [VariableDeclarator (BindingIdentifier "_0xb") None;
                      VariableDeclarator (BindingIdentifier "_0xb") None];
                   IdentifierExpression "_0xb"; IdentifierExpression "_0xa";
                   IdentifierExpression "g"]]]))
         r1' = Ok r2'.
Proof.
  assert (H : exists R, execute
      (Script [FunctionDeclaration "_0xf" [BindingIdentifier "_0xa"]
         [BlockStatement
            [VariableDeclaration var
               [VariableDeclarator (BindingIdentifier "_0xb") None;
                VariableDeclarator (BindingIdentifier "_0xb") None];
             IdentifierExpression "_0xb"; IdentifierExpression "_0xa";
             IdentifierExpression "g"]]]) = Ok R)
    by (eexists; vm_compute; reflexivity).
  destruct H as [R H].
  destruct (renaming_preserves_resolution _ R H)
    as (r1 & r2 & r1' & r2' & _ & _ & H1' & H2' & _).
  exists R, r1', r2'. auto.
Defined.

(** The renamed tree of the program above: the second declarator of the
    same name in the block is not recorded by the registered variable and
    keeps its name. *)
Example renamed_block_example :
  result
    (Script [FunctionDeclaration "_0xf" [BindingIdentifier "_0xa"]
       [BlockStatement
          [VariableDeclaration var
             [VariableDeclarator (BindingIdentifier "_0xb") None;
              VariableDeclarator (BindingIdentifier "_0xb") None];
           IdentifierExpression "_0xb"; IdentifierExpression "_0xa";
           IdentifierExpression "g"]]])
  = Ok (Script [FunctionDeclaration "a" [BindingIdentifier "b"]
       [BlockStatement
          [VariableDeclaration var
             [VariableDeclarator (BindingIdentifier "c") None;
              VariableDeclarator (BindingIdentifier "_0xb") None];
           IdentifierExpression "c"; IdentifierExpression "b";
           IdentifierExpression "g"]]]).
Proof. vm_compute. reflexivity. Qed.

(** ** The declaration walk only adds *)

(** X11.  At any point of the declaration walk, what has been recorded
    stays: every table entry is still in the table of its scope, under the
    same key and for the same variable, when the walk ends; every site
    recorded by a variable is still recorded by it; and every name recorded
    as used is still recorded. *)
Theorem declaration_walk_only_adds ast es1 es2 r r1 :
  events 0 ast = es1 ++ es2 ->
  run declStep es1 (setScope globalScope new_VariableRenamer) = Ok r ->
  run declStep es2 r = Ok r1 ->
  collectDeclarations ast new_VariableRenamer = Ok r1
  /\ (forall s k v, (k, v) ∈ variables (getScope r s) ->
                    (k, v) ∈ variables (getScope r1 s))
  /\ (forall v x, x ∈ sitesOf r v -> x ∈ sitesOf r1 v)
  /\ usedVariableNames r ⊆ usedVariableNames r1.
Proof.
  intros He H1 H2. split.
  { unfold collectDeclarations. rewrite He, run_app, H1. exact H2. }
  pose proof (nodeSites_NoDup ast 0) as Hn. unfold nodeSites in Hn.
  unfold eventSites in Hn. rewrite flat_map_split in Hn.
  apply NoDup_app in Hn as (Hd & _ & _).
  rewrite He, flat_map_app in Hd. apply NoDup_app in Hd as (Hd1 & Hd12 & Hd2).
  assert (W0 : WF (setScope globalScope new_VariableRenamer) []).
  { apply WF_setScope; [exact WF_new|]. simpl. unfold globalScope. lia. }
  destruct (WF_declRun es1 _ r [] W0) as (W & U); try assumption.
  { intros k v H. now apply elem_of_nil in H. }
  { intros x _. apply not_elem_of_nil. }
  rewrite run_declOps in H2.
  assert (E2 : flat_map opSites (flat_map declOps es2)
               = flat_map eventDeclSites es2).
  { rewrite flat_map_flat_map. apply flat_map_ext. intros e.
    apply opSites_declOps. }
  apply (grows_runOps _ r r1 _ W U H2).
  - now rewrite E2.
  - rewrite E2. intros x Hx Hin. rewrite app_nil_r in Hin.
    exact (Hd12 _ Hin Hx).
Qed.

Lemma declaration_walk_only_adds_witness :
  exists r r1,
    run declStep
      (take 4 (events 0 (Script
         [FunctionDeclaration "f" [BindingIdentifier "x"]
            [VariableDeclaration var
               [VariableDeclarator (BindingIdentifier "y") None]]])))
      (setScope globalScope new_VariableRenamer) = Ok r
    /\ collectDeclarations (Script
         [FunctionDeclaration "f" [BindingIdentifier "x"]
            [VariableDeclaration var
               [VariableDeclarator (BindingIdentifier "y") None]]])
         new_VariableRenamer = Ok r1
    /\ usedVariableNames r ⊆ usedVariableNames r1.
Proof.
  eexists. eexists.
  split; [vm_compute; reflexivity|].
  refine ((fun H => conj (proj1 H) (proj2 (proj2 (proj2 H))))
    (declaration_walk_only_adds
       (Script
         [FunctionDeclaration "f" [BindingIdentifier "x"]
            [VariableDeclaration var
               [VariableDeclarator (BindingIdentifier "y") None]]])
       (take 4 (events 0 (Script
         [FunctionDeclaration "f" [BindingIdentifier "x"]
            [VariableDeclaration var
               [VariableDeclarator (BindingIdentifier "y") None]]])))
       (drop 4 (events 0 (Script
         [FunctionDeclaration "f" [BindingIdentifier "x"]
            [VariableDeclaration var
               [VariableDeclarator (BindingIdentifier "y") None]]])))
       _ _ _ _ _)).
  - symmetry. apply take_drop.
  - vm_compute. reflexivity.
  - vm_compute. reflexivity.
Defined.

(** ** Which name each variable gets *)

Lemma assign_zip t : forall names,
  length (eligible t) <= length names ->
  assign t names
  = zip (snd <$> eligible t) (take (length (eligible t)) names).
Proof.
  induction t as [|[k v] t IH]; intros names Hl; [reflexivity|].
  unfold eligible in *. cbn [assign List.filter fst] in *.
  destruct (shouldRename k); [|now apply IH].
  destruct names as [|nm rest]; cbn [length] in Hl; [lia|].
  cbn [fmap list_fmap snd length take zip zip_with]. f_equal. apply IH. lia.
Qed.

Lemma fmap_zip_eq {A B} (f : A -> B) : forall (vs : list A) (ns : list B),
  length vs = length ns ->
  (forall v nm, (v, nm) ∈ zip vs ns -> f v = nm) ->
  f <$> vs = ns.
Proof.
  induction vs as [|v vs IH]; intros [|n ns] Hl H; try discriminate;
    [reflexivity|].
  cbn in *. f_equal.
  - apply H. constructor.
  - apply IH; [lia|]. intros v' nm' Hin. apply H. now right.
Qed.

(** X12.  When [execute] completes, the variables registered under an
    eligible name, taken scope by scope in the order of creation of the
    scopes and in insertion order within a table, carry the generated
    names in order: the first one has the first name that is not in use,
    the second one the second, and so on. *)
Theorem names_are_handed_out_in_table_order ast r1 r2 R :
  collectDeclarations ast new_VariableRenamer = Ok r1 ->
  collectReferences ast r1 = Ok r2 ->
  execute ast = Ok R ->
  (fun e => name (getVariable R (snd e))) <$> eligible (tableEntries r2)
  = take (length (eligible (tableEntries r2)))
         (variableNames (generateNames r2)).
Proof.
  intros H1 H2 HR.
  destruct (execute_renaming _ _ _ _ H1 H2 HR) as (_ & _ & _ & Has & _).
  assert (Hl : length (eligible (tableEntries r2))
               <= length (variableNames (generateNames r2))).
  { rewrite (execute_unfold _ _ _ H1 H2), allEntries_tableEntries in HR.
    exact (renameTable_names _ _ _ HR). }
  rewrite (assign_zip _ _ Hl) in Has.
  transitivity ((fun v => name (getVariable R v))
                  <$> (snd <$> eligible (tableEntries r2)));
    [now rewrite <- list_fmap_compose|].
  apply fmap_zip_eq.
  - rewrite length_fmap, length_take. lia.
  - intros v nm Hin. now destruct (Has v nm Hin) as (_ & _ & Hn & _).
Qed.

Lemma names_are_handed_out_in_table_order_witness :
  exists r1 r2 R,
    collectDeclarations
      (Script [FunctionDeclaration "_0xf" [BindingIdentifier "_0xa"]
                 [IdentifierExpression "b"];
               VariableDeclaration var
                 [VariableDeclarator (BindingIdentifier "_0xb") None]])
      new_VariableRenamer = Ok r1
    /\ collectReferences
      (Script [FunctionDeclaration "_0xf" [BindingIdentifier "_0xa"]
                 [IdentifierExpression "b"];
               VariableDeclaration var
                 [VariableDeclarator (BindingIdentifier "_0xb") None]])
      r1 = Ok r2
    /\ execute
      (Script [FunctionDeclaration "_0xf" [BindingIdentifier "_0xa"]
                 [IdentifierExpression "b"];
               VariableDeclaration var
                 [VariableDeclarator (BindingIdentifier "_0xb") None]])
      = Ok R
    /\ (fun e => name (getVariable R (snd e))) <$> eligible (tableEntries r2)
       = take (length (eligible (tableEntries r2)))
              (variableNames (generateNames r2)).
Proof.
  assert (H : exists r1 r2 R,
    collectDeclarations
      (Script [FunctionDeclaration "_0xf" [BindingIdentifier "_0xa"]
                 [IdentifierExpression "b"];
               VariableDeclaration var
                 [VariableDeclarator (BindingIdentifier "_0xb") None]])
      new_VariableRenamer = Ok r1
    /\ collectReferences
      (Script [FunctionDeclaration "_0xf" [BindingIdentifier "_0xa"]
                 [IdentifierExpression "b"];
               VariableDeclaration var
                 [VariableDeclarator (BindingIdentifier "_0xb") None]])
      r1 = Ok r2
    /\ execute
      (Script [FunctionDeclaration "_0xf" [BindingIdentifier "_0xa"]
                 [IdentifierExpression "b"];
               VariableDeclaration var
                 [VariableDeclarator (BindingIdentifier "_0xb") None]])
      = Ok R).
  { eexists. eexists. eexists.
    split; [vm_compute; reflexivity|].
    split; [vm_compute; reflexivity|]. vm_compute; reflexivity. }
  destruct H as (r1 & r2 & R & H1 & H2 & HR).
  exists r1, r2, R. split; [exact H1|]. split; [exact H2|]. split; [exact HR|].
  exact (names_are_handed_out_in_table_order _ _ _ _ H1 H2 HR).
Defined.

(** * The names at the recorded sites *)

Lemma prov_trans r r1 r2 A B :
  prov r r1 A -> prov r1 r2 B -> prov r r2 (A ++ B).
Proof.
  intros H1 H2 w x Hx. destruct (H2 w x Hx) as [[Hx1 En]|Hb].
  - destruct (H1 w x Hx1) as [[Hx0 En0]|Ha].
    + left. split; [exact Hx0|congruence].
    + right. apply elem_of_app. left. now rewrite En.
  - right. apply elem_of_app. now right.
Qed.

Lemma prov_mono r r1 A B : prov r r1 A -> A ⊆ B -> prov r r1 B.
Proof.
  intros H HAB w x Hx. destruct (H w x Hx) as [?|?]; [now left|right].
  now apply HAB.
Qed.

Lemma prov_same r r1 : heap r1 = heap r -> prov r r1 [].
Proof.
  intros E w x Hx. left. unfold sitesOf, getVariable in *. rewrite E in *. auto.
Qed.

Lemma prov_append y r :
  varSites y = [] -> prov r (setHeap (fun h => h ++ [y]) r) [].
Proof.
  intros Hy w x Hx. left. unfold sitesOf in *. rewrite getVariable_app in *.
  destruct (decide (w = length (heap r))); [|auto].
  rewrite Hy in Hx. now apply elem_of_nil in Hx.
Qed.

Lemma prov_alter (f : Variable_ -> Variable_) u r A :
  (forall z, name (f z) = name z) ->
  (forall x, x ∈ varSites (f (getVariable r u)) ->
     x ∈ varSites (getVariable r u) \/ (x, name (getVariable r u)) ∈ A) ->
  prov r (setHeap (alter f u) r) A.
Proof.
  intros Hn Hs w x Hx. unfold sitesOf in *. rewrite getVariable_alter in *.
  destruct (decide (w = u /\ _)) as [[-> _]|]; [|now left].
  rewrite Hn. destruct (Hs x Hx) as [?|?]; [now left|now right].
Qed.

Lemma prov_pushDeclaration u site r :
  prov r (pushDeclaration u site r) [(site, name (getVariable r u))].
Proof.
  apply prov_alter; [reflexivity|]. intros x. unfold varSites. cbn.
  rewrite !elem_of_app, list_elem_of_singleton.
  intros [[?| ->]|?]; auto. right. constructor.
Qed.

Lemma prov_pushReference u site r :
  prov r (pushReference u site r) [(site, name (getVariable r u))].
Proof.
  apply prov_alter; [reflexivity|]. intros x. unfold varSites. cbn.
  rewrite !elem_of_app, list_elem_of_singleton.
  intros [?|[?| ->]]; auto. right. constructor.
Qed.

(** [addVariable], when the sites of the new variable are nodes of [A]
    that carry its name. *)
Lemma prov_addVariable s v r r1 A :
  addVariable s v r = Ok r1 ->
  (forall e, tableGet (name (getVariable r v)) (variables (getScope r s)) = Some e ->
             name (getVariable r e) = name (getVariable r v)) ->
  (forall x, x ∈ declarations (getVariable r v) ->
             (x, name (getVariable r v)) ∈ A) ->
  prov r r1 A.
Proof.
  intros H He HA. unfold addVariable in H.
  destruct (tableGet _ _) as [e|] eqn:Et.
  - destruct (_ || _); [discriminate|]. injection H as <-.
    apply prov_alter; [reflexivity|]. intros x. unfold varSites. cbn.
    rewrite !elem_of_app. intros [[?|Hd]|?]; auto.
    right. rewrite (He e eq_refl). now apply HA.
  - injection H as <-. eapply prov_mono; [now apply prov_same|].
    intros x Hx. now apply elem_of_nil in Hx.
Qed.

Lemma prov_addName nm r : prov r (addName nm r) [].
Proof. apply prov_same, heap_addName. Qed.

Lemma registered_name r P k v :
  WF r P -> (k, v) ∈ tableEntries r -> name (getVariable r v) = k.
Proof.
  intros W Hin. destruct (wf_valid _ _ W _ _ Hin) as (z & Hz & Nz).
  unfold getVariable. now rewrite Hz.
Qed.

Lemma prov_op o r r1 P :
  WF r P -> opStep o r = Ok r1 -> prov r r1 (opNames o).
Proof.
  intros W H. destruct o as [nm kd site|k ty| |kd nm site|k|k|nm k];
    cbn [opStep opNames] in *.
  - unfold declare, new_Variable in H.
    set (v := length (heap r)) in *.
    set (y := mkVariable nm kd [] []) in *.
    set (ra := setHeap (fun h => h ++ [y]) r) in *.
    set (rb := pushDeclaration v site ra) in *.
    destruct (addVariable (scope r) v rb) as [r3|] eqn:E3; [|discriminate].
    injection H as <-.
    assert (Gb : forall w, getVariable rb w
       = if decide (w = v) then mkVariable nm kd [site] [] else getVariable r w)
      by (intros w; apply getVariable_declared).
    assert (Gv : getVariable rb v = mkVariable nm kd [site] []).
    { rewrite Gb. destruct (decide (v = v)); [reflexivity|congruence]. }
    assert (Ga : getVariable ra v = y).
    { unfold ra, v. rewrite getVariable_app.
      destruct (decide (_ = _)); [reflexivity|congruence]. }
    apply (prov_mono _ _ (([] ++ [(site, nm)]) ++ [(site, nm)] ++ [])).
    + eapply prov_trans; [eapply prov_trans|eapply prov_trans].
      * apply (prov_append y r); reflexivity.
      * pose proof (prov_pushDeclaration v site ra) as Hp.
        rewrite Ga in Hp. exact Hp.
      * apply (prov_addVariable _ _ _ _ [(site, nm)] E3).
        -- rewrite Gv. cbn [name]. intros e He.
           pose proof (tableGet_registered r _ _ _ He) as Hr.
           rewrite Gb. destruct (decide (e = v)) as [->|].
           ++ pose proof (registered_lt _ _ _ _ W Hr). unfold v in *. lia.
           ++ exact (registered_name _ _ _ _ W Hr).
        -- rewrite Gv. cbn. intros x Hx.
           apply list_elem_of_singleton in Hx as ->. constructor.
      * apply prov_addName.
    + intros x. cbn. rewrite !elem_of_cons. tauto.
  - injection H as <-. now apply prov_same.
  - unfold new_Variable in H. cbn [scope setHeap] in H.
    set (v := length (heap r)) in *.
    set (y := mkVariable "arguments" var [] []) in *.
    set (ra := setHeap (fun h => h ++ [y]) r) in *.
    assert (Ga : forall w, getVariable ra w
       = if decide (w = v) then y else getVariable r w)
      by (intros w; apply getVariable_app).
    assert (Gv : getVariable ra v = y).
    { rewrite Ga. destruct (decide (v = v)); [reflexivity|congruence]. }
    apply (prov_mono _ _ ([] ++ [])); [|intros x Hx; exact Hx].
    eapply prov_trans; [apply (prov_append y r); reflexivity|].
    apply (prov_addVariable _ _ _ _ [] H).
    + rewrite Gv. cbn [name y]. intros e He.
      pose proof (tableGet_registered r _ _ _ He) as Hr.
      rewrite Ga. destruct (decide (e = v)) as [->|].
      * pose proof (registered_lt _ _ _ _ W Hr). unfold v in *. lia.
      * exact (registered_name _ _ _ _ W Hr).
    + rewrite Gv. cbn. intros x Hx. now apply elem_of_nil in Hx.
  - destruct (tableGet nm _) as [v|] eqn:Ed.
    + destruct (_ || _); [discriminate|]. injection H as <-.
      pose proof (prov_pushDeclaration v site r) as Hp.
      now rewrite (registered_name _ _ _ _ W (tableGet_registered _ _ _ _ Ed)) in Hp.
    + unfold new_Variable in H. cbn [scope setHeap] in H.
      set (v := length (heap r)) in *.
      set (y := mkVariable nm kd [] []) in *.
      set (ra := setHeap (fun h => h ++ [y]) r) in *.
      destruct (addVariable (scope r) v ra) as [r2|] eqn:E2; [|discriminate].
      cbn [bind] in H. injection H as <-.
      assert (Ga : forall w, getVariable ra w
         = if decide (w = v) then y else getVariable r w)
        by (intros w; apply getVariable_app).
      assert (Gv : getVariable ra v = y).
      { rewrite Ga. destruct (decide (v = v)); [reflexivity|congruence]. }
      assert (P2 : prov ra r2 []).
      { apply (prov_addVariable _ _ _ _ [] E2).
        - rewrite Gv. cbn [name y]. intros e He.
          pose proof (tableGet_registered r _ _ _ He) as Hr.
          rewrite Ga. destruct (decide (e = v)) as [->|].
          + pose proof (registered_lt _ _ _ _ W Hr). unfold v in *. lia.
          + exact (registered_name _ _ _ _ W Hr).
        - rewrite Gv. cbn. intros x Hx. now apply elem_of_nil in Hx. }
      assert (N2 : name (getVariable (addName nm r2) v) = nm).
      { unfold getVariable. rewrite heap_addName.
        pose proof (heapGrows_addVariable _ _ _ _ E2 v y) as Hg.
        destruct Hg as (z & Hz & Nz & _).
        - unfold ra, v. cbn. now rewrite list_lookup_middle.
        - rewrite Hz. exact Nz. }
      apply (prov_mono _ _ (([] ++ []) ++ [] ++ [(site, nm)]));
        [|intros x Hx; exact Hx].
      eapply prov_trans; [eapply prov_trans|eapply prov_trans].
      * apply (prov_append y r); reflexivity.
      * exact P2.
      * apply prov_addName.
      * pose proof (prov_pushDeclaration v site (addName nm r2)) as Hp.
        rewrite N2 in Hp. exact Hp.
  - injection H as <-. apply prov_same. apply leave_frame.
  - destruct (findChild r k); [|discriminate]. injection H as <-.
    now apply prov_same.
  - destruct (lookupVariable _ _ _) as [v|] eqn:El.
    + injection H as <-.
      pose proof (prov_pushReference v k r) as Hp.
      now rewrite (registered_name _ _ _ _ W
                     (lookupFrom_registered _ _ _ _ _ El)) in Hp.
    + unfold new_Variable in H. injection H as <-.
      set (v := length (heap r)) in *.
      set (y := mkVariable nm var [] []) in *.
      set (ra := setHeap (fun h => h ++ [y]) r) in *.
      assert (N2 : name (getVariable (addName nm ra) v) = nm).
      { unfold getVariable. rewrite heap_addName. unfold ra, v. cbn.
        now rewrite list_lookup_middle. }
      apply (prov_mono _ _ ([] ++ [] ++ [(k, nm)]));
        [|intros x Hx; exact Hx].
      eapply prov_trans; [apply (prov_append y r); reflexivity|].
      eapply prov_trans; [apply prov_addName|].
      pose proof (prov_pushReference v k (addName nm ra)) as Hp.
      rewrite N2 in Hp. exact Hp.
Qed.

Lemma prov_runOps os : forall r r1 P,
  WF r P -> usedOk r -> runOps os r = Ok r1 ->
  NoDup (flat_map opSites os) ->
  (forall x, x ∈ flat_map opSites os -> x ∉ P) ->
  prov r r1 (flat_map opNames os).
Proof.
  induction os as [|o os IH]; intros r r1 P W U H Hn HP; simpl in H.
  - injection H as <-. intros w x Hx. now left.
  - destruct (opStep o r) as [r0|] eqn:E; [|discriminate]. cbn [bind] in H.
    cbn [flat_map] in Hn, HP. apply NoDup_app in Hn as (Hn1 & Hn12 & Hn2).
    destruct (WF_op _ _ _ _ W U E) as (W0 & U0).
    { intros x Hx. apply HP, elem_of_app. now left. }
    cbn [flat_map]. eapply prov_trans; [exact (prov_op _ _ _ _ W E)|].
    apply (IH _ _ _ W0 U0 H Hn2).
    intros x Hx Hin. apply elem_of_app in Hin as [Hin|Hin].
    + exact (Hn12 _ Hin Hx).
    + apply (HP x); [apply elem_of_app; now right|exact Hin].
Qed.

(** ** The identifier nodes of the tree *)

Lemma identifiers_app es1 es2 :
  identifiers (es1 ++ es2) = identifiers es1 ++ identifiers es2.
Proof. apply flat_map_app. Qed.

Lemma identifiers_node k n :
  identifiers (events k n)
  = match n with
    | BindingIdentifier nm | IdentifierExpression nm => [(k, nm)]
    | _ => []
    end ++ identifiers (eventsList (S k) (childNodes n)).
Proof.
  rewrite events_childNodes. unfold identifiers at 1. cbn [flat_map].
  fold (identifiers (eventsList (S k) (childNodes n) ++ [Leave k n])).
  rewrite identifiers_app. cbn. rewrite app_nil_r. reflexivity.
Qed.

Lemma identifiers_cons k c l :
  identifiers (eventsList k (c :: l))
  = identifiers (events k c) ++ identifiers (eventsList (k + size c) l).
Proof. cbn [eventsList]. apply identifiers_app. Qed.

Lemma identifiers_range n : forall k x nm,
  (x, nm) ∈ identifiers (events k n) -> k <= x < k + size n.
Proof.
  induction n as [n IH] using Node_childNodes_ind. intros k x nm.
  rewrite identifiers_node, size_childNodes. intros H.
  apply elem_of_app in H as [H|H].
  - case_node n; try (now apply elem_of_nil in H);
      apply list_elem_of_singleton in H; injection H as -> _; lia.
  - assert (S k <= x < S k + sizes (childNodes n)); [|lia].
    revert H. generalize (S k). induction IH as [|c l Hc Hl IHl]; intros j H.
    + now apply elem_of_nil in H.
    + rewrite identifiers_cons in H. apply elem_of_app in H as [H|H].
      * apply Hc in H. simpl. lia.
      * apply IHl in H. simpl. pose proof (size_childNodes c). lia.
Qed.

Lemma identifiers_list_range l : forall k x nm,
  (x, nm) ∈ identifiers (eventsList k l) -> k <= x < k + sizes l.
Proof.
  induction l as [|c l IH]; intros k x nm H.
  - now apply elem_of_nil in H.
  - rewrite identifiers_cons in H. apply elem_of_app in H as [H|H].
    + apply identifiers_range in H. simpl. lia.
    + apply IH in H. simpl. pose proof (size_childNodes c). lia.
Qed.

Lemma identifiers_functional n : forall k x nm1 nm2,
  (x, nm1) ∈ identifiers (events k n) ->
  (x, nm2) ∈ identifiers (events k n) -> nm1 = nm2.
Proof.
  induction n as [n IH] using Node_childNodes_ind. intros k x nm1 nm2.
  rewrite identifiers_node. intros H1 H2.
  apply elem_of_app in H1 as [H1|H1]; apply elem_of_app in H2 as [H2|H2].
  - case_node n; try (now apply elem_of_nil in H1);
      apply list_elem_of_singleton in H1, H2; congruence.
  - exfalso. apply identifiers_list_range in H2.
    case_node n; try (now apply elem_of_nil in H1);
      apply list_elem_of_singleton in H1; injection H1 as -> _; lia.
  - exfalso. apply identifiers_list_range in H1.
    case_node n; try (now apply elem_of_nil in H2);
      apply list_elem_of_singleton in H2; injection H2 as -> _; lia.
  - revert H1 H2. generalize (S k).
    induction IH as [|c l Hc Hl IHl]; intros j H1 H2.
    + now apply elem_of_nil in H1.
    + rewrite identifiers_cons in H1, H2.
      apply elem_of_app in H1 as [H1|H1]; apply elem_of_app in H2 as [H2|H2].
      * exact (Hc _ _ _ _ H1 H2).
      * apply identifiers_range in H1. apply identifiers_list_range in H2. lia.
      * apply identifiers_range in H2. apply identifiers_list_range in H1. lia.
      * exact (IHl _ H1 H2).
Qed.

Lemma paramOps_names ps : forall id x nm,
  (x, nm) ∈ flat_map opNames (paramOps id ps) ->
  (x, nm) ∈ identifiers (eventsList id ps).
Proof.
  induction ps as [|p ps IH]; intros id x nm H.
  - now apply elem_of_nil in H.
  - cbn [paramOps] in H. rewrite flat_map_app in H.
    rewrite identifiers_cons. apply elem_of_app.
    apply elem_of_app in H as [H|H]; [left|right; now apply IH].
    destruct p; try (now apply elem_of_nil in H).
    rewrite identifiers_node. apply elem_of_app. left. exact H.
Qed.

Lemma declaratorOps_names kd ds : forall id x nm,
  (x, nm) ∈ flat_map opNames (declaratorOps kd id ds) ->
  (x, nm) ∈ identifiers (eventsList id ds).
Proof.
  induction ds as [|d ds IH]; intros id x nm H.
  - now apply elem_of_nil in H.
  - rewrite identifiers_cons. apply elem_of_app.
    destruct d as [| | | | | | | | | |bd i|]; try (now apply elem_of_nil in H).
    destruct bd as [|nm0| | | | | | | | | |]; try (now apply elem_of_nil in H).
    cbn [declaratorOps flat_map opNames app] in H.
    apply elem_of_cons in H as [H|H]; [left|right; now apply IH].
    rewrite identifiers_node. apply elem_of_app. right.
    cbn [childNodes]. rewrite identifiers_cons. apply elem_of_app. left.
    rewrite identifiers_node. apply elem_of_app. left. rewrite H. constructor.
Qed.

Lemma declOps_names k n x nm :
  (x, nm) ∈ flat_map opNames (declOps (Enter k n)) ->
  (x, nm) ∈ identifiers (eventsList (S k) (childNodes n)).
Proof.
  assert (Hhead : forall nm0 l, (S k, nm0) ∈
            identifiers (eventsList (S k) (BindingIdentifier nm0 :: l))).
  { intros nm0 l. rewrite identifiers_cons. apply elem_of_app. left.
    rewrite identifiers_node. apply elem_of_app. left. constructor. }
  assert (Hps : forall nm0 ps b,
            (x, nm) ∈ flat_map opNames (paramOps (S (S k)) ps) ->
            (x, nm) ∈ identifiers
              (eventsList (S k) (BindingIdentifier nm0 :: ps ++ b))).
  { intros nm0 ps b H. rewrite identifiers_cons. apply elem_of_app. right.
    rewrite eventsList_app, identifiers_app. apply elem_of_app. left.
    replace (S k + size (BindingIdentifier nm0)) with (S (S k))
      by (simpl; lia).
    now apply paramOps_names. }
  assert (Hps0 : forall ps b,
            (x, nm) ∈ flat_map opNames (paramOps (S k) ps) ->
            (x, nm) ∈ identifiers (eventsList (S k) (ps ++ b))).
  { intros ps b H. rewrite eventsList_app, identifiers_app.
    apply elem_of_app. left. now apply paramOps_names. }
  cbn [declOps]. intros H.
  destruct n as [ss|nm0|nm0|nm0 ps b|[nm0|] ps b|ps b|[bd|] b|ps|ss|kd ds|bd i|cs];
    cbn [childNodes opt_list fmap option_fmap option_map app] in *;
    try (now apply elem_of_nil in H).
  - cbn [flat_map opNames app] in H. rewrite flat_map_app in H.
    apply elem_of_cons in H as [->|H]; [apply Hhead|].
    apply elem_of_app in H as [H|H]; [now apply Hps|].
    now apply elem_of_nil in H.
  - cbn [flat_map opNames app] in H. rewrite flat_map_app in H.
    apply elem_of_cons in H as [->|H]; [apply Hhead|].
    apply elem_of_app in H as [H|H]; [now apply Hps|].
    now apply elem_of_nil in H.
  - cbn [flat_map opNames app] in H. rewrite flat_map_app in H.
    apply elem_of_app in H as [H|H]; [now apply Hps0|].
    now apply elem_of_nil in H.
  - cbn [flat_map opNames app] in H. now apply Hps0.
  - destruct bd; try (now apply elem_of_nil in H).
    cbn in H. apply list_elem_of_singleton in H as ->. apply Hhead.
  - now apply (declaratorOps_names kd).
Qed.

Lemma declOps_tree_names n : forall k x nm,
  (x, nm) ∈ flat_map opNames (flat_map declOps (events k n)) ->
  (x, nm) ∈ identifiers (events k n).
Proof.
  induction n as [n IH] using Node_childNodes_ind. intros k x nm.
  rewrite identifiers_node, events_childNodes. cbn [flat_map].
  rewrite !flat_map_app. cbn [flat_map declOps opNames app].
  rewrite app_nil_r. intros H. apply elem_of_app. right.
  apply elem_of_app in H as [H|H]; [now apply declOps_names|].
  revert H. generalize (S k). induction IH as [|c l Hc Hl IHl]; intros j H.
  - now apply elem_of_nil in H.
  - cbn [eventsList] in H. rewrite !flat_map_app in H.
    rewrite identifiers_cons. apply elem_of_app.
    apply elem_of_app in H as [H|H]; [left; now apply Hc|right; now apply IHl].
Qed.

Lemma refOps_tree_names es x nm :
  (x, nm) ∈ flat_map opNames (flat_map refOps es) -> (x, nm) ∈ identifiers es.
Proof.
  induction es as [|e es IH]; intros H; [now apply elem_of_nil in H|].
  cbn [flat_map] in H. rewrite flat_map_app in H.
  change (e :: es) with ([e] ++ es). rewrite identifiers_app.
  apply elem_of_app.
  apply elem_of_app in H as [H|H]; [left|right; now apply IH].
  destruct e as [k n|k n]; [|now apply elem_of_nil in H].
  cbn [refOps] in H. destruct (isScopeNode n); [now apply elem_of_nil in H|].
  destruct n; try (now apply elem_of_nil in H). exact H.
Qed.

Lemma walks_prov ast r1 r2 :
  collectDeclarations ast new_VariableRenamer = Ok r1 ->
  collectReferences ast r1 = Ok r2 ->
  forall v x, x ∈ sitesOf r2 v ->
    (x, name (getVariable r2 v)) ∈ identifiers (events 0 ast).
Proof.
  intros H1 H2.
  rewrite collectDeclarations_ops in H1. rewrite collectReferences_ops in H2.
  set (ops1 := flat_map declOps (events 0 ast)) in *.
  set (ops2 := flat_map refOps (events 0 ast)) in *.
  pose proof (nodeSites_NoDup ast 0) as Hn. unfold nodeSites in Hn.
  unfold eventSites in Hn. rewrite flat_map_split in Hn.
  assert (E1 : flat_map opSites ops1 = flat_map eventDeclSites (events 0 ast)).
  { unfold ops1. rewrite flat_map_flat_map. apply flat_map_ext.
    intros e. apply opSites_declOps. }
  assert (E2 : flat_map opSites ops2 = flat_map eventRefSites (events 0 ast)).
  { unfold ops2. rewrite flat_map_flat_map. apply flat_map_ext.
    intros e. apply opSites_refOps. }
  rewrite <- E1, <- E2 in Hn.
  apply NoDup_app in Hn as (Hd & Hdr & Hr).
  set (r0 := setScope globalScope new_VariableRenamer) in *.
  assert (W0 : WF r0 []).
  { apply WF_setScope; [exact WF_new|]. simpl. unfold globalScope. lia. }
  assert (U0 : usedOk r0) by (intros k v H; now apply elem_of_nil in H).
  assert (HP0 : forall x, x ∈ flat_map opSites ops1 -> x ∉ @nil NodeId).
  { intros x _. apply not_elem_of_nil. }
  destruct (WF_runOps ops1 r0 r1 [] W0 U0 H1 Hd HP0) as (W1 & U1).
  rewrite app_nil_r in W1.
  set (r1s := setScope globalScope r1) in *.
  assert (W1' : WF r1s (flat_map opSites ops1)).
  { apply WF_setScope; [exact W1|].
    pose proof (wf_cursor _ _ W1). unfold globalScope. lia. }
  assert (HP1 : forall x, x ∈ flat_map opSites ops2 -> x ∉ flat_map opSites ops1).
  { intros x Hx Hin. exact (Hdr _ Hin Hx). }
  pose proof (prov_runOps ops1 r0 r1 [] W0 U0 H1 Hd HP0) as P1.
  pose proof (prov_runOps ops2 r1s r2 _ W1' U1 H2 Hr HP1) as P2.
  pose proof (prov_trans r0 r1s r2 _ _ P1 P2) as P.
  intros v x Hx. destruct (P v x Hx) as [[H0 _]|Hin].
  - unfold sitesOf, getVariable in H0. cbn in H0. now apply elem_of_nil in H0.
  - apply elem_of_app in Hin as [Hin|Hin].
    + now apply declOps_tree_names.
    + now apply refOps_tree_names.
Qed.

(** ** Names that are not eligible are never changed *)

Lemma regSite_dec r x : regSite r x \/ ~ regSite r x.
Proof.
  destruct (decide (Exists (fun kv => x ∈ sitesOf r kv.2) (tableEntries r)))
    as [He|Hn].
  - left. apply Exists_exists in He as ([k v] & Hin & Hx).
    exists k, v. split; [exact Hin|exact Hx].
  - right. intros (k & v & Hin & Hx). apply Hn. apply Exists_exists.
    exists (k, v). split; [exact Hin|exact Hx].
Qed.

(** X13.  After the two walks every node recorded as a declaration or a
    reference of a variable is an identifier node of the tree that carries
    the name of the variable; for a registered variable this is the key it
    is registered under. *)
Theorem recorded_sites_carry_the_variable_name ast r1 r2 :
  collectDeclarations ast new_VariableRenamer = Ok r1 ->
  collectReferences ast r1 = Ok r2 ->
  (forall v x, x ∈ sitesOf r2 v ->
     (x, name (getVariable r2 v)) ∈ identifiers (events 0 ast))
  /\ (forall k v x, (k, v) ∈ tableEntries r2 -> x ∈ sitesOf r2 v ->
        (x, k) ∈ identifiers (events 0 ast)).
Proof.
  intros H1 H2. pose proof (walks_prov _ _ _ H1 H2) as P. split; [exact P|].
  intros k v x Hin Hx. destruct (WF_walks _ _ _ H1 H2) as (X & W & _).
  rewrite <- (registered_name _ _ _ _ W Hin). now apply P.
Qed.

Lemma recorded_sites_carry_the_variable_name_witness :
  exists r1 r2,
    collectDeclarations
      (Script [FunctionDeclaration "f" [BindingIdentifier "x"]
                 [IdentifierExpression "x"; IdentifierExpression "y"]])
      new_VariableRenamer = Ok r1
    /\ collectReferences
      (Script [FunctionDeclaration "f" [BindingIdentifier "x"]
                 [IdentifierExpression "x"; IdentifierExpression "y"]])
      r1 = Ok r2
    /\ (forall v x, x ∈ sitesOf r2 v ->
          (x, name (getVariable r2 v)) ∈ identifiers (events 0
             (Script [FunctionDeclaration "f" [BindingIdentifier "x"]
                        [IdentifierExpression "x"; IdentifierExpression "y"]]))).
Proof.
  assert (H : exists r1 r2,
    collectDeclarations
      (Script [FunctionDeclaration "f" [BindingIdentifier "x"]
                 [IdentifierExpression "x"; IdentifierExpression "y"]])
      new_VariableRenamer = Ok r1
    /\ collectReferences
      (Script [FunctionDeclaration "f" [BindingIdentifier "x"]
                 [IdentifierExpression "x"; IdentifierExpression "y"]])
      r1 = Ok r2).
  { eexists. eexists. split; [vm_compute; reflexivity|].
    vm_compute; reflexivity. }
  destruct H as (r1 & r2 & H1 & H2). exists r1, r2.
  split; [exact H1|]. split; [exact H2|].
  exact (proj1 (recorded_sites_carry_the_variable_name _ _ _ H1 H2)).
Defined.

(** X14.  [execute] never writes an identifier node whose name is not
    eligible for renaming: a node of the tree that carries a name that does
    not start with [_0x] keeps it. *)
Theorem execute_keeps_names_that_are_not_eligible ast R x nm :
  execute ast = Ok R ->
  (x, nm) ∈ identifiers (events 0 ast) ->
  shouldRename nm = false ->
  patched R !! x = None.
Proof.
  intros HR Hid Hnm.
  destruct (collectDeclarations ast new_VariableRenamer) as [r1|e] eqn:H1;
    [|unfold execute in HR; rewrite H1 in HR; discriminate].
  destruct (collectReferences ast r1) as [r2|e] eqn:H2;
    [|unfold execute in HR; rewrite H1 in HR; cbn [bind] in HR;
      rewrite H2 in HR; discriminate].
  destruct (final_names _ _ _ _ H1 H2 HR) as (_ & Fn & Fo & _).
  destruct (WF_walks _ _ _ H1 H2) as (X & W & _).
  destruct (patched R !! x) as [new|] eqn:Ep; [exfalso|reflexivity].
  assert (Hreg : regSite r2 x).
  { destruct (regSite_dec r2 x) as [?|Hn]; [assumption|].
    rewrite (Fo x Hn) in Ep. discriminate. }
  destruct Hreg as (k & v & Hin & Hx).
  pose proof (walks_prov _ _ _ H1 H2 v x Hx) as Hk.
  rewrite (registered_name _ _ _ _ W Hin) in Hk.
  pose proof (identifiers_functional _ _ _ _ _ Hk Hid) as ->.
  destruct (Fn nm v Hin Hnm) as (_ & Hs). rewrite (Hs x Hx) in Ep. discriminate.
Qed.

Lemma execute_keeps_names_that_are_not_eligible_witness :
  exists R,
    execute (Script [FunctionDeclaration "f" [BindingIdentifier "_0xa"]
               [IdentifierExpression "_0xa"; IdentifierExpression "y"]]) = Ok R
    /\ patched R !! 5 = None.
Proof.
  assert (H : exists R,
    execute (Script [FunctionDeclaration "f" [BindingIdentifier "_0xa"]
               [IdentifierExpression "_0xa"; IdentifierExpression "y"]]) = Ok R).
  { eexists. vm_compute. reflexivity. }
  destruct H as (R & H). exists R. split; [exact H|].
  apply (execute_keeps_names_that_are_not_eligible _ R 5 "y" H).
  - apply (bool_decide_unpack _). vm_compute. exact I.
  - reflexivity.
Defined.
